(** * Fleet log collection of managed node groups (eks/mng/logs.go)

    A shallow embedding of [FetchLogs], [fetchLogs], [shorten] and
    [randString], and the properties of the collection engine proved on it.

    Go strings are byte sequences: they are modelled as [string], one [ascii]
    per byte.  Effects (the rate limiter, the remote session, the file
    system, the random source, the order of a [range] over a map, the
    persistent status store) are answered by an environment that sees the
    events so far, and every effectful call is recorded in a trace.  Calls of
    the logger are not modelled. *)

From Stdlib Require Import Ascii String NArith Lia.
From stdpp Require Import gmap strings list fin_maps.

Local Open Scope N_scope.
Local Open Scope nat_scope.

(** ** Byte strings: the part of Go's [strings], [unicode/utf8], [regexp] and
    [path/filepath] that the collector uses *)

Module GoStr.

(** [len(s)] *)
Abbreviation len := String.length.

(** [s[:n]], for [n <= len(s)] (Go panics beyond; the two slices of the
    code, [name[:230]] and [dns[:7]], are taken of longer strings). *)
Fixpoint take (n : nat) (s : string) : string :=
  match n, s with
  | S k, String c t => String c (take k t)
  | _, _ => ""
  end.

Definition byte (c : ascii) : N := N_of_ascii c.

Definition between (lo hi : N) (c : ascii) : bool :=
  ((lo <=? byte c) && (byte c <=? hi))%N.

(** [strings.HasPrefix(s, p)] *)
Fixpoint HasPrefix (s p : string) : bool :=
  match p, s with
  | "", _ => true
  | String a p', String b s' => if decide (a = b) then HasPrefix s' p' else false
  | String _ _, "" => false
  end.

(** [strings.HasSuffix(s, x)]: [x] is the end of [s]. *)
Definition HasSuffix (s x : string) : Prop := exists front, s = front +:+ x.

(** [filepath.Ext(path)] on a system whose separator is the slash: the
    suffix that starts at the last dot of the last element of the path, empty
    when that element has no dot.  Go scans from the end and stops at a dot
    or a slash; [ext_scan] computes the same answer from the front. *)
Inductive scan : Type :=
| Found (e : string)   (* a dot comes first, scanning from the end *)
| Slash                (* a separator comes first *)
| Open.                (* neither dot nor separator *)

Fixpoint ext_scan (s : string) : scan :=
  match s with
  | "" => Open
  | String c t =>
      match ext_scan t with
      | Found e => Found e
      | Slash => Slash
      | Open =>
          if decide (c = "."%char) then Found (String c t)
          else if decide (c = "/"%char) then Slash
          else Open
      end
  end.

Definition Ext (path : string) : string :=
  match ext_scan path with Found e => e | _ => "" end.

(** [strings.Split(s, sep)] for a one-byte separator; [Split("", sep)] is
    one empty string. *)
Fixpoint Split (sep : ascii) (s : string) : list string :=
  match s with
  | "" => [""]
  | String c t =>
      if decide (c = sep) then "" :: Split sep t
      else match Split sep t with
           | h :: r => String c h :: r
           | [] => [String c ""]
           end
  end.

(** *** UTF-8 decoding, as [for _, r := range s] and [utf8.DecodeRuneInString]
    do it: an invalid or truncated sequence yields [RuneError] and consumes
    one byte. *)
Definition RuneError : N := 0xFFFD%N.

(** [first] and [acceptRanges] of unicode/utf8: for a leading byte, the
    length of the sequence and the range accepted for the second byte. *)
Definition lead (b0 : N) : option (nat * N * N) :=
  if ((0xC2 <=? b0) && (b0 <=? 0xDF))%N then Some (2, 0x80%N, 0xBF%N)
  else if (b0 =? 0xE0)%N then Some (3, 0xA0%N, 0xBF%N)
  else if ((0xE1 <=? b0) && (b0 <=? 0xEC))%N then Some (3, 0x80%N, 0xBF%N)
  else if (b0 =? 0xED)%N then Some (3, 0x80%N, 0x9F%N)
  else if ((0xEE <=? b0) && (b0 <=? 0xEF))%N then Some (3, 0x80%N, 0xBF%N)
  else if (b0 =? 0xF0)%N then Some (4, 0x90%N, 0xBF%N)
  else if ((0xF1 <=? b0) && (b0 <=? 0xF3))%N then Some (4, 0x80%N, 0xBF%N)
  else if (b0 =? 0xF4)%N then Some (4, 0x80%N, 0x8F%N)
  else None.

Definition cont (c : ascii) : bool := between 0x80 0xBF c.
Definition low6 (c : ascii) : N := N.land (byte c) 0x3F.

(** [utf8.DecodeRuneInString(s)]: the first rune of [s] and its width. *)
Definition DecodeRune (s : string) : N * nat :=
  match s with
  | "" => (RuneError, 0)
  | String b0 t =>
      if (byte b0 <? 0x80)%N then (byte b0, 1)
      else
        match lead (byte b0) with
        | None => (RuneError, 1)
        | Some (sz, lo, hi) =>
            match t with
            | String b1 t1 =>
                if negb (between lo hi b1) then (RuneError, 1)
                else if decide (sz = 2) then
                  (N.lor (N.shiftl (N.land (byte b0) 0x1F) 6) (low6 b1), 2)
                else
                  match t1 with
                  | String b2 t2 =>
                      if negb (cont b2) then (RuneError, 1)
                      else if decide (sz = 3) then
                        (N.lor (N.shiftl (N.land (byte b0) 0x0F) 12)
                           (N.lor (N.shiftl (low6 b1) 6) (low6 b2)), 3)
                      else
                        match t2 with
                        | String b3 _ =>
                            if negb (cont b3) then (RuneError, 1)
                            else
                              (N.lor (N.shiftl (N.land (byte b0) 0x07) 18)
                                 (N.lor (N.shiftl (low6 b1) 12)
                                    (N.lor (N.shiftl (low6 b2) 6) (low6 b3))), 4)
                        | "" => (RuneError, 1)
                        end
                  | "" => (RuneError, 1)
                  end
            | "" => (RuneError, 1)
            end
        end
  end.

(** The runes of [s] in order, each with the bytes that encode it: what
    [for _, r := range s] goes through. *)
Fixpoint runes (s : string) : list (N * string) :=
  match s with
  | "" => []
  | String b0 t =>
      let '(r, sz) := DecodeRune s in
      match sz, t with
      | 4, String b1 (String b2 (String b3 t3)) =>
          (r, String b0 (String b1 (String b2 (String b3 "")))) :: runes t3
      | 3, String b1 (String b2 t2) =>
          (r, String b0 (String b1 (String b2 ""))) :: runes t2
      | 2, String b1 t1 => (r, String b0 (String b1 "")) :: runes t1
      | _, _ => (r, String b0 "") :: runes t
      end
  end.

(** [unicode.IsSpace]: the Latin-1 cases and the [White_Space] table. *)
Definition IsSpace (r : N) : bool :=
  ((0x09 <=? r) && (r <=? 0x0D) || (r =? 0x20) || (r =? 0x85) || (r =? 0xA0)
   || (r =? 0x1680) || (0x2000 <=? r) && (r <=? 0x200A)
   || (r =? 0x2028) || (r =? 0x2029) || (r =? 0x202F) || (r =? 0x205F)
   || (r =? 0x3000))%N.

(** [strings.FieldsFunc(s, f)]: [cur] is the field being read, [None] when
    the loop is between fields (Go's [start < 0]). *)
Fixpoint fields_go (f : N -> bool) (cur : option string) (rs : list (N * string))
  : list string :=
  match rs with
  | [] => match cur with Some w => [w] | None => [] end
  | (r, bs) :: rs' =>
      if f r then
        match cur with
        | Some w => w :: fields_go f None rs'
        | None => fields_go f None rs'
        end
      else fields_go f (Some (from_option id "" cur +:+ bs)) rs'
  end.

Definition FieldsFunc (f : N -> bool) (s : string) : list string :=
  fields_go f None (runes s).

(** [strings.Fields(s)].  Go has a fast path for a string of ASCII bytes,
    which splits at the six ASCII spaces; on such a string it returns what
    [FieldsFunc(s, unicode.IsSpace)] returns, which is what it calls
    otherwise. *)
Definition Fields (s : string) : list string := FieldsFunc IsSpace s.

(** The letters and digits of the pattern [[^a-zA-Z0-9]+]. *)
Definition alnum (r : N) : bool :=
  ((0x30 <=? r) && (r <=? 0x39) || (0x41 <=? r) && (r <=? 0x5A)
   || (0x61 <=? r) && (r <=? 0x7A))%N.

Fixpoint concat_bytes (rs : list (N * string)) : string :=
  match rs with
  | [] => ""
  | (_, bs) :: rs' => bs +:+ concat_bytes rs'
  end.

(** [regex.ReplaceAllString(s, "")] for [regex = [^a-zA-Z0-9]+]: every run
    of runes that are not ASCII letters or digits is deleted. *)
Definition stripNonAlnum (s : string) : string :=
  concat_bytes (filter (fun rb => Is_true (alnum rb.1)) (runes s)).

(** [strings.ToLower] on a string of ASCII bytes (the only strings it is
    given here: the result of [stripNonAlnum]); bytes from 0x80 on, which Go
    would decode and map by the Unicode tables, are left as they are. *)
Definition lower (c : ascii) : ascii :=
  if between 0x41 0x5A c then ascii_of_N (byte c + 32)%N else c.

Fixpoint ToLower (s : string) : string :=
  match s with
  | "" => ""
  | String c t => String (lower c) (ToLower t)
  end.

(** [strings.ReplaceAll(s, old, "")] for a non-empty [old]: the occurrences
    of [old] are found from left to right without overlap and deleted.
    [skip] counts the bytes of the current occurrence still to be dropped. *)
Fixpoint remove_go (old : string) (skip : nat) (s : string) : string :=
  match s with
  | "" => ""
  | String c t =>
      match skip with
      | S k => remove_go old k t
      | O =>
          if HasPrefix s old then remove_go old (len old - 1) t
          else String c (remove_go old 0 t)
      end
  end.

Definition RemoveAll (s old : string) : string := remove_go old 0 s.

End GoStr.

Import GoStr.

(** ** A state monad with early return

    [M S E A] is a computation over a state [S] that either goes on with a
    value of [A] or leaves the enclosing Go function ([return]) with an [E]. *)

Inductive res (E A : Type) : Type :=
| Ok (a : A)
| Exit (e : E).
Arguments Ok {E A} a.
Arguments Exit {E A} e.

Definition M (S E A : Type) : Type := S -> res E A * S.

Definition ret {S E A} (a : A) : M S E A := fun s => (Ok a, s).

Definition bind {S E A B} (m : M S E A) (k : A -> M S E B) : M S E B :=
  fun s =>
    match m s with
    | (Ok a, s') => k a s'
    | (Exit e, s') => (Exit e, s')
    end.

(** [return e] of the enclosing function *)
Definition exit {S E A} (e : E) : M S E A := fun s => (Exit e, s).

Notation "'do' x <- m ; k" := (bind m (fun x => k))
  (at level 10, x name, m at level 100, k at level 200).
Notation "m ;; k" := (bind m (fun _ => k))
  (at level 100, k at level 200, right associativity).

(** [for _, x := range l { a = body(x, a) }] *)
Fixpoint foldM {S E A B} (body : B -> A -> M S E A) (l : list B) (a : A)
  : M S E A :=
  match l with
  | [] => ret a
  | x :: l' => do a' <- body x a; foldM body l' a'
  end.

(** Weakest precondition: [wp m Q s] when [m] run from [s] ends in a result
    and a state that satisfy [Q]. *)
Definition wp {S E A} (m : M S E A) (Q : res E A -> S -> Prop) (s : S) : Prop :=
  Q (m s).1 (m s).2.

(** ** Data of the collection engine *)

(** A Go [error] value other than [nil].  [ErrExternal] stands for an error
    returned by a collaborator (remote session, file system, status store);
    the others are built by this package with [fmt.Errorf]. *)
Inductive error : Type :=
| ErrExternal (msg : string)
| ErrRun (cmd instID : string) (cause : error)
| ErrCreate (fpath instID : string) (cause : error)
| ErrWrite (fpath instID : string) (cause : error)
| ErrUnknownGroup (mngName : string)
| ErrRedundant (mngName instID : string)
| ErrDisabled (enable : bool).

(** [type instanceLogs struct] *)
Record instanceLogs : Type := {
  mngName : string;
  instanceID : string;
  paths : list string;
  err : option error;
}.

(** The fields of [ec2config.Instance] that the collector reads. *)
Record Instance : Type := {
  PublicIP : string;
  PublicDNSName : string;
}.

(** A value of [StatusManagedNodeGroups.Nodes]: [Logs] is [None] for a nil
    map. *)
Record MNG : Type := {
  Instances : gmap string Instance;
  Logs : option (gmap string (list string));
}.

(** The fields of [ts.cfg.EKSConfig] that [FetchLogs] reads or writes. *)
Record EKSConfig : Type := {
  Name : string;
  Enable : bool;            (* AddOnManagedNodeGroups.Enable *)
  LogDir : string;          (* AddOnManagedNodeGroups.LogDir *)
  Nodes : gmap string MNG;  (* StatusManagedNodeGroups.Nodes *)
}.

(** [var logCmds] *)
Definition logCmds : gmap string string :=
  <["sudo journalctl --no-pager --output=short-precise -k" := "kernel.out.log"]>
  (<["sudo journalctl --no-pager --output=short-precise" := "journal.out.log"]>
  (<["sudo systemctl list-units -t service --no-pager --no-legend --all"
     := "list-units-systemctl.out.log"]> ∅)).

(** ** The goroutine of one instance *)

Module Collector.

(** What one goroutine does to the outside, in order. *)
Inductive event : Type :=
| EvStopc (closed : bool)        (* the select on [ts.cfg.Stopc] with default *)
| EvAllow (ok : bool)            (* [rateLimiter.Allow()] *)
| EvWait                         (* [rateLimiter.Wait(ctx)] *)
| EvSSHNew (ip dns : string)     (* [ssh.New] *)
| EvConnect                      (* [sh.Connect()] *)
| EvSSHClose                     (* the deferred [sh.Close()] *)
| EvRun (cmd : string)           (* [sh.Run(cmd, sshOpt)] *)
| EvCreate (fpath : string)      (* [os.Create(fpath)] *)
| EvWrite (fpath out : string)   (* [f.Write(out)] *)
| EvClose (fpath : string)       (* [f.Close()] *)
| EvIntn (n v : nat)             (* [rand.Seed(now); rand.Intn(n)] gave [v] *)
| EvRange (order : list (string * string))  (* a [range] over a map *)
| EvSend (r : instanceLogs).     (* [rch <- r] *)

Definition trace : Type := list event.

(** The environment of a goroutine: each answer may depend on everything
    that happened before.  A [range] over a map visits its entries in an
    order that Go leaves unspecified. *)
Record Env : Type := {
  stopc : trace -> bool;
  allow : trace -> bool;
  sshNew : trace -> option string;
  sshConnect : trace -> option string;
  sshRun : trace -> string -> string + string;
  osCreate : trace -> string -> option string;
  fWrite : trace -> string -> string -> option string;
  randRaw : trace -> nat;
  rangeMap : trace -> gmap string string -> list (string * string);
  rangeMap_perm : forall tr m, rangeMap tr m ≡ₚ map_to_list m;
  (** [filepath.Join] and [filepath.Base] *)
  Join : string -> string -> string;
  Base : string -> string;
}.

(** A goroutine leaves with the record it has sent, if any. *)
Abbreviation G := (M trace (option instanceLogs)).

Section Body.
Variable env : Env.

Definition emit (e : event) : G unit := fun tr => (Ok tt, tr ++ [e]).

Definition pollStopc : G bool :=
  fun tr => let b := stopc env tr in (Ok b, tr ++ [EvStopc b]).
Definition Allow : G bool :=
  fun tr => let b := allow env tr in (Ok b, tr ++ [EvAllow b]).
Definition Wait : G unit := emit EvWait.
Definition New (iv : Instance) : G (option error) :=
  fun tr => (Ok (ErrExternal <$> sshNew env tr),
             tr ++ [EvSSHNew (PublicIP iv) (PublicDNSName iv)]).
Definition Connect : G (option error) :=
  fun tr => (Ok (ErrExternal <$> sshConnect env tr), tr ++ [EvConnect]).
Definition Run (cmd : string) : G (string + error) :=
  fun tr => (Ok (match sshRun env tr cmd with
                 | inl out => inl out
                 | inr msg => inr (ErrExternal msg)
                 end), tr ++ [EvRun cmd]).
Definition Create (fpath : string) : G (option error) :=
  fun tr => (Ok (ErrExternal <$> osCreate env tr fpath), tr ++ [EvCreate fpath]).
Definition Write (fpath out : string) : G (option error) :=
  fun tr => (Ok (ErrExternal <$> fWrite env tr fpath out),
             tr ++ [EvWrite fpath out]).
Definition Close (fpath : string) : G unit := emit (EvClose fpath).
Definition Intn (n : nat) : G nat :=
  fun tr => let v := randRaw env tr `mod` n in (Ok v, tr ++ [EvIntn n v]).
Definition range (m : gmap string string) : G (list (string * string)) :=
  fun tr => let l := rangeMap env tr m in (Ok l, tr ++ [EvRange l]).
Definition send (r : instanceLogs) : G unit := emit (EvSend r).

(** [const ll] *)
Definition ll : string := "0123456789abcdefghijklmnopqrstuvwxyz".

(** [ll[i]] *)
Definition ll_at (i : nat) : ascii := default "0"%char (String.get i ll).

(** [randString(n)] *)
Fixpoint randString (n : nat) : G string :=
  match n with
  | O => ret ""
  | S k =>
      do v <- Intn (len ll);
      do rest <- randString k;
      ret (String (ll_at v) rest)
  end.

(** [shorten(lg, name)] *)
Definition shorten (name : string) : G string :=
  if decide (len name < 240) then ret name
  else
    let ext := Ext name in
    do sfx <- randString 5;
    ret (take 230 name +:+ sfx +:+ ext).

End Body.

(** The byte of ["\n"] *)
Definition nl : ascii := "010"%char.

(** Lines 197-212: what one line of the unit listing adds to
    [svcCmdToFileName], [None] where the loop says [continue]. *)
Definition svcEntry (line : string) : option (string * string) :=
  let fields := Fields line in
  if (length fields =? 0) || bool_decide (nth 0 fields "" = "")
     || (length fields <? 5)
  then None
  else if decide (nth 1 fields "" = "not-found") then None
  else if decide (nth 2 fields "" = "inactive") then None
  else
    let svc := nth 0 fields "" in
    Some ("sudo journalctl --no-pager --output=cat -u " +:+ svc,
          svc +:+ ".out.log").

Definition svcCmdToFileName (out : string) : gmap string string :=
  foldl (fun m line =>
           match svcEntry line with
           | Some (svcCmd, svcFileName) => <[svcCmd := svcFileName]> m
           | None => m
           end) ∅ (Split nl out).

(** Lines 337-346 *)
Definition varLogCmdToFileName (env : Env) (out : string) : gmap string string :=
  foldl (fun m line =>
           if decide (len line = 0) then m
           else <["sudo cat " +:+ line := Base env line]> m)
        ∅ (Split nl out).

Definition listCmd : string :=
  "sudo systemctl list-units -t service --no-pager --no-legend --all".
Definition eniCmd : string := "curl http://localhost:61679/v1/enis".
Definition findCmd : string := "sudo find /var/log ! -type d".

(** [defer d] around the rest [m] of a function: [d] runs when [m] is left,
    however it is left. *)
Definition defer {A} (d : G unit) (m : G A) : G A :=
  fun tr => let '(r, tr') := m tr in (r, (d tr').2).

Section Goroutine.
(** The closure [go func(instID, logsDir, pfx string, iv ec2config.Instance)]
    of [fetchLogs]: its four arguments, and [name] and [commandToFileName],
    which it reads from the enclosing function.  [name] is the variable of
    the [range] over the groups, which the closure captures instead of
    receiving it as an argument; the record that a goroutine sends holds one
    reading of it.  Here [name] is the value read: with a variable per iteration (Go 1.22) the name of the group
    whose iteration started the goroutine, with one variable for the whole
    loop (before) the name of the group that the loop has reached by then. *)
Variable env : Env.
Variables name instID logsDir pfx : string.
Variable iv : Instance.
Variable commandToFileName : gmap string string.

(** The records that lines 128-136 and their copies send. *)
Definition failed (e : error) : instanceLogs :=
  {| mngName := name; instanceID := instID; paths := []; err := Some e |}.

(** [rch <- r; return] *)
Definition sendReturn {A} (r : instanceLogs) : G A :=
  send r;; exit (Some r).

(** [if !rateLimiter.Allow() { rateLimiter.Wait(ctx) }] *)
Definition gate : G unit :=
  do ok <- Allow env; if ok then ret tt else Wait.

(** Lines 126-169, repeated at 219-262, 273-315 and 353-396: run the
    command, write its output to the file named after [pfx + fileName],
    append the path to [data.paths]. *)
Definition runSave (cmd fileName : string) (data : instanceLogs)
  : G instanceLogs :=
  do r <- Run env cmd;
  match r with
  | inr oerr => sendReturn (failed (ErrRun cmd instID oerr))
  | inl out =>
      do short <- shorten env (pfx +:+ fileName);
      let fpath := Join env logsDir short in
      do cerr <- Create env fpath;
      match cerr with
      | Some e => sendReturn (failed (ErrCreate fpath instID e))
      | None =>
          do werr <- Write env fpath out;
          match werr with
          | Some e =>
              send (failed (ErrWrite fpath instID e));;
              Close fpath;;
              exit (Some (failed (ErrWrite fpath instID e)))
          | None =>
              Close fpath;;
              ret {| mngName := mngName data; instanceID := instanceID data;
                     paths := paths data ++ [fpath]; err := err data |}
          end
      end
  end.

(** The body of the three loops over a command map. *)
Definition fetch (entry : string * string) (data : instanceLogs)
  : G instanceLogs :=
  gate;; runSave entry.1 entry.2 data.

(** Lines 117-399: the stages after the session is connected. *)
Definition stages : G unit :=
  let data := {| mngName := name; instanceID := instID; paths := [];
                 err := None |} in
  (* fetch default logs *)
  do cmds <- range env commandToFileName;
  do data <- foldM fetch cmds data;
  (* systemd service units *)
  gate;;
  do r <- Run env listCmd;
  match r with
  | inr oerr => sendReturn (failed (ErrRun listCmd instID oerr))
  | inl out =>
      do cmds <- range env (svcCmdToFileName out);
      do data <- foldM fetch cmds data;
      (* ENI information *)
      gate;;
      do data <- runSave eniCmd "v1-enis" data;
      (* /var/log *)
      gate;;
      do r <- Run env findCmd;
      match r with
      | inr oerr => sendReturn (failed (ErrRun findCmd instID oerr))
      | inl out =>
          do cmds <- range env (varLogCmdToFileName env out);
          do data <- foldM fetch cmds data;
          sendReturn data
      end
  end.

(** Lines 78-400: the whole goroutine. *)
Definition goroutine : G unit :=
  do closed <- pollStopc env;
  if closed then exit None
  else
    gate;;
    do e <- New env iv;
    match e with
    | Some e =>
        sendReturn {| mngName := name; instanceID := ""; paths := [];
                      err := Some e |}
    | None =>
        defer (emit EvSSHClose)
          (do e <- Connect env;
           match e with
           | Some e =>
               sendReturn {| mngName := name; instanceID := ""; paths := [];
                             err := Some e |}
           | None => stages
           end)
    end.

End Goroutine.

(** Lines 69-76: the file-name prefix of an instance. *)
Definition sanitize (publicDNSName : string) : string :=
  let dns := ToLower (stripNonAlnum publicDNSName) in
  let dns := RemoveAll dns "ec2" in
  let dns := RemoveAll dns "compute.amazonaws" in
  let dns := RemoveAll dns "amazonaws" in
  if decide (7 < len dns) then take 7 dns else dns.

Definition prefix (instID : string) (iv : Instance) : string :=
  instID +:+ "-" +:+ sanitize (PublicDNSName iv) +:+ "-".

End Collector.

(** ** The orchestrating function: [FetchLogs] and [fetchLogs] *)

Module Orchestrator.
Import Collector.

(** What the calling goroutine does to the outside, in order. *)
Inductive event : Type :=
| EvMkdirAll (dir : string) (perm : N)   (* [os.MkdirAll(dir, perm)] *)
| EvLock                                 (* [ts.logsMu.Lock()] *)
| EvUnlock                               (* the deferred [ts.logsMu.Unlock()] *)
| EvTempDir (dir pattern : string)       (* [ioutil.TempDir(dir, pattern)] *)
| EvNewLimiter (qps : nat) (burst : nat) (* [rate.NewLimiter] *)
| EvRangeNodes (order : list (string * MNG))
| EvRangeInstances (order : list (string * Instance))
| EvGo (name instID logsDir pfx : string) (iv : Instance)  (* [go func ...] *)
| EvRecv (data : instanceLogs)           (* [data = <-rch] *)
| EvStopped                              (* [<-ts.cfg.Stopc] *)
| EvSync (nodes : gmap string MNG).      (* [ts.cfg.EKSConfig.Sync()] *)

Definition trace : Type := list event.

(** What the [select] of the drain loop yields: a record, the stop signal,
    or nothing ever (no goroutine sends and nobody closes [Stopc]). *)
Inductive arrival : Type :=
| Data (data : instanceLogs)
| Stopped
| Never.

Record Env : Type := {
  mkdirAll : trace -> option string;
  tempDir : trace -> string + string;
  select : trace -> arrival;
  sync : trace -> gmap string MNG -> option string;
  rangeNodes : trace -> gmap string MNG -> list (string * MNG);
  rangeNodes_perm : forall tr m, rangeNodes tr m ≡ₚ map_to_list m;
  rangeInstances : trace -> gmap string Instance -> list (string * Instance);
  rangeInstances_perm : forall tr m, rangeInstances tr m ≡ₚ map_to_list m;
}.

(** The state the function works on: the configuration it shares with its
    caller, and what it has done so far. *)
Record state : Type := {
  cfg : EKSConfig;
  tr : trace;
}.

(** The [select] never yields: the function does not return. *)
Inductive stuck : Type := Deadlock.

(** [Ok e]: the function returns [e]. *)
Abbreviation Orch := (M state stuck).

Section Body.
Variable env : Env.

Definition emit (e : event) : Orch unit :=
  fun s => (Ok tt, {| cfg := cfg s; tr := tr s ++ [e] |}).
Definition getCfg : Orch EKSConfig := fun s => (Ok (cfg s), s).
Definition setNodes (nodes : gmap string MNG) : Orch unit :=
  fun s => (Ok tt, {| cfg := {| Name := Name (cfg s); Enable := Enable (cfg s);
                                LogDir := LogDir (cfg s); Nodes := nodes |};
                      tr := tr s |}).

Definition MkdirAll (dir : string) (perm : N) : Orch (option error) :=
  fun s => (Ok (ErrExternal <$> mkdirAll env (tr s)),
            {| cfg := cfg s; tr := tr s ++ [EvMkdirAll dir perm] |}).
Definition TempDir (dir pattern : string) : Orch (string + error) :=
  fun s => (Ok (match tempDir env (tr s) with
                | inl d => inl d
                | inr msg => inr (ErrExternal msg)
                end),
            {| cfg := cfg s; tr := tr s ++ [EvTempDir dir pattern] |}).
Definition Sync : Orch (option error) :=
  fun s => (Ok (ErrExternal <$> sync env (tr s) (Nodes (cfg s))),
            {| cfg := cfg s; tr := tr s ++ [EvSync (Nodes (cfg s))] |}).
Definition RangeNodes (m : gmap string MNG) : Orch (list (string * MNG)) :=
  fun s => let l := rangeNodes env (tr s) m in
           (Ok l, {| cfg := cfg s; tr := tr s ++ [EvRangeNodes l] |}).
Definition RangeInstances (m : gmap string Instance)
  : Orch (list (string * Instance)) :=
  fun s => let l := rangeInstances env (tr s) m in
           (Ok l, {| cfg := cfg s; tr := tr s ++ [EvRangeInstances l] |}).

(** Lines 407-412: [Some data], or [None] when the stop signal came. *)
Definition Select : Orch (option instanceLogs) :=
  fun s =>
    match select env (tr s) with
    | Data data => (Ok (Some data), {| cfg := cfg s; tr := tr s ++ [EvRecv data] |})
    | Stopped => (Ok None, {| cfg := cfg s; tr := tr s ++ [EvStopped] |})
    | Never => (Exit Deadlock, s)
    end.

(** [mv.Logs] once line 425-427 has made the map of a nil [Logs]. *)
Definition logsOf (mv : MNG) : gmap string (list string) :=
  default ∅ (Logs mv).

(** Lines 413-444, the body of the drain loop for a received record:
    [inl e] where it says [return e], [inr total] where it goes on. *)
Definition merge (data : instanceLogs) (total : nat) : Orch (error + nat) :=
  match err data with
  | Some _ => ret (inr total)   (* continue *)
  | None =>
      do c <- getCfg;
      match Nodes c !! mngName data with
      | None => ret (inl (ErrUnknownGroup (mngName data)))
      | Some mv =>
          match logsOf mv !! instanceID data with
          | Some _ =>
              ret (inl (ErrRedundant (mngName data) (instanceID data)))
          | None =>
              let mv := {| Instances := Instances mv;
                           Logs := Some (<[instanceID data := paths data]>
                                           (logsOf mv)) |} in
              setNodes (<[mngName data := mv]> (Nodes c));;
              Sync;;
              let files := length (paths data) in
              ret (inr (total + files))
          end
      end
  end.

(** Lines 404-451: the drain loop with [remaining = waits - i], and the
    final sync. *)
Fixpoint drain (remaining total : nat) : Orch (option error) :=
  match remaining with
  | 0 => Sync
  | S k =>
      do got <- Select;
      match got with
      | None => Sync
      | Some data =>
          do r <- merge data total;
          match r with
          | inl e => ret (Some e)
          | inr total => drain k total
          end
      end
  end.

(** Lines 62-401, the body of the loop over the groups: count the
    instances of the group and start a goroutine for each. *)
Definition startGroup (logsDir : string) (g : string * MNG) (waits : nat)
  : Orch nat :=
  let waits := waits + size (Instances g.2) in
  do insts <- RangeInstances (Instances g.2);
  foldM (fun (i : string * Instance) (_ : unit) =>
           emit (EvGo g.1 i.1 logsDir (prefix i.1 i.2) i.2))
        insts tt;;
  ret waits.

(** Lines 61-402: the two nested loops that start the goroutines. *)
Definition launch (logsDir : string) : Orch nat :=
  do c <- getCfg;
  do groups <- RangeNodes (Nodes c);
  foldM (startGroup logsDir) groups 0.

(** [fetchLogs(qps, burst, commandToFileName)] *)
Definition fetchLogs (qps : nat) (burst : nat) : Orch (option error) :=
  do c <- getCfg;
  do r <- TempDir (LogDir c) (Name c +:+ "-mng-logs");
  match r with
  | inr e => ret (Some e)
  | inl logsDir =>
      emit (EvNewLimiter qps burst);;
      do waits <- launch logsDir;
      drain waits 0
  end.

(** [defer d] around the rest [m] of the function: [d] runs when [m]
    returns. *)
Definition defer {A} (d : Orch unit) (m : Orch A) : Orch A :=
  fun s =>
    match m s with
    | (Ok a, s') => (Ok a, (d s').2)
    | (Exit e, s') => (Exit e, s')
    end.

(** The permission bits [0700] (octal). *)
Definition mode0700 : N := 0x1C0%N.

(** [FetchLogs()] *)
Definition FetchLogs : Orch (option error) :=
  do c <- getCfg;
  if negb (Enable c) then ret (Some (ErrDisabled (Enable c)))
  else
    do e <- MkdirAll (LogDir c) mode0700;
    match e with
    | Some e => ret (Some e)
    | None =>
        emit EvLock;;
        defer (emit EvUnlock) (fetchLogs 150 10)
    end.

End Body.
End Orchestrator.

(** * The vocabulary of the properties *)

(** ** [shorten] *)

Module ShortenSpec.
Import GoStr Collector.

(** The bytes of [ll]: digits and lower-case letters. *)
Definition lowerAlnum (c : ascii) : bool :=
  between 0x30 0x39 c || between 0x61 0x7A c.

Fixpoint allChars (P : ascii -> bool) (s : string) : bool :=
  match s with
  | "" => true
  | String c t => P c && allChars P t
  end.

Definition isIntn (e : event) : Prop :=
  match e with EvIntn _ _ => True | _ => False end.

(** What [shorten] makes of [name]. *)
Definition shortened (name short : string) : Prop :=
  (len name < 240 /\ short = name) \/
  (240 <= len name /\
   exists sfx, len sfx = 5 /\ allChars lowerAlnum sfx = true /\
               short = take 230 name +:+ sfx +:+ Ext name).

(** [n] times the byte [c] *)
Fixpoint fill (c : ascii) (n : nat) : string :=
  match n with
  | 0 => ""
  | S k => String c (fill c k)
  end.

End ShortenSpec.

(** ** The prefix of the file names *)

Module PrefixSpec.
Import GoStr Collector.

(** The bytes of [s] that are ASCII letters or digits. *)
Fixpoint keepAlnum (s : string) : string :=
  match s with
  | "" => ""
  | String c t => if alnum (byte c) then String c (keepAlnum t) else keepAlnum t
  end.

(** "Lowercased, all non-alphanumeric characters removed, the substrings
    removed, then clipped to at most 7 characters", in the order of these
    words; lowercased is read as: the ASCII letters are put in lower case. *)
Definition sanitize_spec (publicDNSName : string) : string :=
  take 7 (RemoveAll (RemoveAll (RemoveAll (keepAlnum (ToLower publicDNSName))
                                  "ec2") "compute.amazonaws") "amazonaws").

Definition alnumByte (c : ascii) : bool := alnum (byte c).

End PrefixSpec.

(** ** The goroutine of one instance *)

Module CollectorSpec.
Import GoStr Collector ShortenSpec.

(** *** The rate-limiter gate, as an automaton over the trace

    [Clear]: the last events are a probe that was allowed, or a probe that
    was denied and the wait that followed.  [Denied]: the last event is a
    denied probe.  A command is accepted in [Clear] only, and after a denied
    probe nothing but the wait is. *)
Inductive gstate : Type := Idle | Denied | Clear.

Definition gstep (st : gstate) (e : event) : option gstate :=
  match st, e with
  | Denied, EvWait => Some Clear
  | Denied, _ => None
  | _, EvAllow true => Some Clear
  | _, EvAllow false => Some Denied
  | Clear, EvRun _ => Some Idle
  | _, EvRun _ => None
  | _, _ => Some Idle
  end.

Fixpoint grun (st : gstate) (tr : trace) : option gstate :=
  match tr with
  | [] => Some st
  | e :: tr' =>
      match gstep st e with
      | Some st' => grun st' tr'
      | None => None
      end
  end.

(** The records sent on [rch], in order. *)
Definition sends (tr : trace) : list instanceLogs :=
  omap (fun e => match e with EvSend r => Some r | _ => None end) tr.

(** Events that touch neither the limiter, nor the session's commands, nor
    the files, nor the channel. *)
Definition quiet (e : event) : Prop :=
  match e with
  | EvAllow _ | EvWait | EvRun _ | EvSend _ | EvCreate _ | EvWrite _ _ => False
  | _ => True
  end.

Section Goroutine.
Variable env : Env.
Variables name instID logsDir pfx : string.

(** A path that the goroutine makes: the directory of the run joined with
    what [shorten] makes of the prefix followed by a file name. *)
Definition named (fpath : string) : Prop :=
  exists fileName short,
    shortened (pfx +:+ fileName) short /\ fpath = Join env logsDir short.

Definition okfile (e : event) : Prop :=
  match e with
  | EvCreate fpath | EvWrite fpath _ => named fpath
  | _ => True
  end.

(** What holds of the trace between two steps, [st] being the state of the
    gate. *)
Record inv (st : gstate) (tr : trace) : Prop := {
  inv_gate : grun Idle tr = Some st;
  inv_files : Forall okfile tr;
  inv_sends : sends tr = [];
}.

(** The answer that the environment gave to [e], issued after [pre], was
    not an error. *)
Definition answer_ok (pre : trace) (e : event) : Prop :=
  match e with
  | EvSSHNew _ _ => sshNew env pre = None
  | EvConnect => sshConnect env pre = None
  | EvRun cmd => exists out, sshRun env pre cmd = inl out
  | EvCreate fpath => osCreate env pre fpath = None
  | EvWrite fpath out => fWrite env pre fpath out = None
  | _ => True
  end.

(** No call so far has failed. *)
Definition clean (tr : trace) : Prop :=
  forall pre e post, tr = pre ++ e :: post -> answer_ok pre e.

(** No call has failed, unless it is the last one. *)
Definition almost (tr : trace) : Prop :=
  forall pre e post, tr = pre ++ e :: post -> ~ answer_ok pre e -> post = [].

(** What a goroutine still does once a call has failed: it sends the
    record, closes the file and the session. *)
Definition closing (e : event) : Prop :=
  match e with EvSend _ | EvClose _ | EvSSHClose => True | _ => False end.

(** What holds of the trace once [r] has been sent. *)
Record sent (r : instanceLogs) (tr : trace) : Prop := {
  sent_gate : grun Idle tr = Some Idle;
  sent_files : Forall okfile tr;
  sent_sends : sends tr = [r];
  sent_clean : err r = None -> clean tr;
  sent_abort : forall pre e post, tr = pre ++ e :: post ->
                                  ~ answer_ok pre e -> Forall closing post;
}.

(** What holds of [data] all along. *)
Record okdata (data : instanceLogs) : Prop := {
  ok_name : mngName data = name;
  ok_id : instanceID data = instID;
  ok_err : err data = None;
  ok_paths : Forall named (paths data);
}.

(** The result of a step that either goes on with [data] or has sent a
    failure record and left. *)
Definition step_post (r : res (option instanceLogs) instanceLogs) (tr : trace)
  : Prop :=
  match r with
  | Ok data => inv Idle tr /\ clean tr /\ okdata data
  | Exit out => exists e, out = Some (failed name instID e) /\
                          sent (failed name instID e) tr
  end.

(** The goroutine has sent [rec] and left: [rec] is the record of a
    success, or a failure record. *)
Definition final_post (r : res (option instanceLogs) unit) (tr : trace) : Prop :=
  match r with
  | Ok _ => False
  | Exit out =>
      exists rec, out = Some rec /\ sent rec tr /\
                  (okdata rec \/ exists e, rec = failed name instID e)
  end.

(** The record of a failure to open or to connect the session (lines 108
    and 113). *)
Definition unconnected (e : error) : instanceLogs :=
  {| mngName := name; instanceID := ""; paths := []; err := Some e |}.

(** The goroutine started on the trace [tr0]. *)
Definition goroutine_post (tr0 : trace) (r : res (option instanceLogs) unit)
    (tr : trace) : Prop :=
  match r with
  | Ok _ => False
  | Exit None => stopc env tr0 = true /\ tr = tr0 ++ [EvStopc true]
  | Exit (Some rec) =>
      stopc env tr0 = false /\ sent rec tr /\
      (okdata rec \/ (exists e, rec = failed name instID e) \/
       (exists msg, rec = unconnected (ErrExternal msg)))
  end.

End Goroutine.

End CollectorSpec.

(** ** The orchestrating function *)

Module OrchestratorSpec.
Import GoStr Collector Orchestrator.

(** The records drained from [rch], in order. *)
Definition recvs (t : trace) : list instanceLogs :=
  omap (fun e => match e with EvRecv r => Some r | _ => None end) t.

(** The goroutines started, in order: group name, instance ID, run
    directory, prefix, instance. *)
Definition spawned (t : trace)
  : list (string * string * string * string * Instance) :=
  omap (fun e => match e with
                 | EvGo name instID logsDir pfx iv =>
                     Some (name, instID, logsDir, pfx, iv)
                 | _ => None
                 end) t.

(** The two errors that lines 423 and 430 return. *)
Definition violation (e : option error) : Prop :=
  match e with
  | Some (ErrUnknownGroup _) | Some (ErrRedundant _ _) => True
  | _ => False
  end.

(** The sum over all groups of the number of instances in each group. *)
Definition expected (nodes : gmap string MNG) : nat :=
  sum_list_with (fun g : string * MNG => size (Instances g.2))
                (map_to_list nodes).

(** The instances of the fleet: group name, instance ID, instance. *)
Definition membership (nodes : gmap string MNG)
  : list (string * string * Instance) :=
  g ← map_to_list nodes;
  (fun i : string * Instance => (g.1, i.1, i.2)) <$> map_to_list (Instances g.2).

(** [data] is recorded in the fleet status. *)
Definition merged (data : instanceLogs) (nodes : gmap string MNG) : Prop :=
  exists mv, nodes !! mngName data = Some mv /\
             logsOf mv !! instanceID data = Some (paths data).

(** The record [data] cannot be merged: its group is unknown, or its
    instance is already recorded under that group. *)
Definition rejected (data : instanceLogs) (nodes : gmap string MNG) : Prop :=
  nodes !! mngName data = None \/
  exists mv, nodes !! mngName data = Some mv /\
             is_Some (logsOf mv !! instanceID data).

Definition snoc (s : state) (e : event) : state :=
  {| cfg := cfg s; tr := tr s ++ [e] |}.

(** The state after a record has been merged. *)
Definition merge_state (data : instanceLogs) (mv : MNG) (s : state) : state :=
  let nodes :=
    <[mngName data :=
        {| Instances := Instances mv;
           Logs := Some (<[instanceID data := paths data]> (logsOf mv)) |}]>
      (Nodes (cfg s)) in
  {| cfg := {| Name := Name (cfg s); Enable := Enable (cfg s);
               LogDir := LogDir (cfg s); Nodes := nodes |};
     tr := tr s ++ [EvSync nodes] |}.

(** The events of the drain loop. *)
Definition draining (e : event) : Prop :=
  match e with EvRecv _ | EvStopped | EvSync _ => True | _ => False end.

(** What a drain loop of [k] turns that returned [e] has done: [new] is
    what it added to the trace, [s] and [s'] the states before and after. *)
Record drained (env : Env) (k : nat) (s : state) (new : trace) (e : option error)
    (s' : state) : Prop := {
  dr_trace : tr s' = tr s ++ new;
  dr_events : Forall draining new;
  dr_count : length (recvs new) <= k;
  dr_all : EvStopped ∉ new -> ~ violation e -> length (recvs new) = k;
  dr_stop : EvStopped ∈ new ->
    exists pre, new = pre ++ [EvStopped; EvSync (Nodes (cfg s'))] /\
      (EvStopped ∉ pre) /\
      e = (ErrExternal <$> sync env (tr s ++ pre ++ [EvStopped]) (Nodes (cfg s'))) /\
      forall data, data ∈ recvs pre -> err data = None ->
                   merged data (Nodes (cfg s'));
  dr_keep : forall data, merged data (Nodes (cfg s)) ->
                         merged data (Nodes (cfg s'));
}.

Definition go (logsDir name : string) (i : string * Instance) : event :=
  EvGo name i.1 logsDir (prefix i.1 i.2) i.2.

Definition target (logsDir : string) (m : string * string * Instance)
  : string * string * string * string * Instance :=
  (m.1.1, m.1.2, logsDir, prefix m.1.2 m.2, m.2).

(** The events of the launch. *)
Definition launching (e : event) : Prop :=
  match e with
  | EvRangeNodes _ | EvRangeInstances _ | EvGo _ _ _ _ _ => True
  | _ => False
  end.

(** Events that [fetchLogs] may add: all but the directory creation and the
    lock of [FetchLogs]. *)
Definition collecting (e : event) : Prop :=
  match e with EvMkdirAll _ _ | EvLock | EvUnlock => False | _ => True end.

End OrchestratorSpec.

(** ** Environments and inputs of the examples *)

Module Examples.
Import GoStr Collector Orchestrator OrchestratorSpec.

Definition i1 : Instance :=
  {| PublicIP := "54.1.2.3";
     PublicDNSName := "ec2-54-1-2-3.us-west-2.compute.amazonaws.com" |}.

(** Two groups of two and of one instance; nothing collected yet. *)
Definition fleet (logs : option (gmap string (list string)))
  : gmap string MNG :=
  <["g1" := {| Instances := <["i-1" := i1]> (<["i-2" := i1]> ∅);
               Logs := logs |}]>
  (<["g2" := {| Instances := <["i-3" := i1]> ∅; Logs := None |}]> ∅).

Definition config (enable : bool) (logs : option (gmap string (list string)))
  : EKSConfig :=
  {| Name := "c"; Enable := enable; LogDir := "/tmp/logs";
     Nodes := fleet logs |}.

Definition start (enable : bool) (logs : option (gmap string (list string)))
  : state :=
  {| cfg := config enable logs; tr := [] |}.

Definition success (name instID : string) : instanceLogs :=
  {| mngName := name; instanceID := instID;
     paths := ["/tmp/logs/r/" +:+ instID]; err := None |}.

(** An environment of [FetchLogs] in which every call succeeds and the
    [select] of the drain loop is answered by [sel]. *)
Definition world (sel : Orchestrator.trace -> arrival) : Orchestrator.Env :=
  {| mkdirAll _ := None;
     tempDir _ := inl "/tmp/logs/r";
     select := sel;
     sync _ _ := None;
     rangeNodes _ m := map_to_list m;
     rangeNodes_perm _ _ := reflexivity _;
     rangeInstances _ m := map_to_list m;
     rangeInstances_perm _ _ := reflexivity _ |}.

(** The record of ["i-1"] arrives again and again. *)
Definition again : Orchestrator.Env := world (fun _ => Data (success "g1" "i-1")).

Definition broken : instanceLogs :=
  {| mngName := "g1"; instanceID := "i-2"; paths := [];
     err := Some (ErrRun "sudo find /var/log ! -type d" "i-2" (ErrExternal "exit 1")) |}.

(** The records of ["i-1"] and ["i-3"] arrive, then the stop signal. *)
Definition interrupted : Orchestrator.Env :=
  world (fun t => match length (recvs t) with
                  | 0 => Data (success "g1" "i-1")
                  | 1 => Data (success "g2" "i-3")
                  | _ => Stopped
                  end).

(** A stand-in for [filepath.Base]: what follows the last slash. *)
Fixpoint hasSlash (s : string) : bool :=
  match s with
  | "" => false
  | String c t => bool_decide (c = "/"%char) || hasSlash t
  end.

Fixpoint afterSlash (s : string) : string :=
  match s with
  | "" => ""
  | String c t =>
      if hasSlash t then afterSlash t
      else if decide (c = "/"%char) then t
      else s
  end.

(** The remote host answers [run]; probes of the limiter are allowed every
    other time; files can be written. *)
Definition remote (stop : bool) (conn : option string)
    (run : string -> string + string) : Collector.Env :=
  {| stopc _ := stop;
     allow t := Nat.even (length t);
     sshNew _ := None;
     sshConnect _ := conn;
     sshRun _ := run;
     osCreate _ _ := None;
     fWrite _ _ _ := None;
     randRaw t := length t;
     rangeMap _ m := map_to_list m;
     rangeMap_perm _ _ := reflexivity _;
     Join d n := d +:+ "/" +:+ n;
     Base := afterSlash |}.

(** A host with one active unit and one log file. *)
Definition healthy (cmd : string) : string + string :=
  if decide (cmd = listCmd) then
    inl ("auditd.service loaded active running Security Auditing Service"
         +:+ String nl
         "auth-rpcgss-module.service loaded inactive dead Kernel Module")
  else if decide (cmd = findCmd) then inl ("/var/log/messages" +:+ String nl "")
  else inl "output".

(** The same host, on which the probe of the network interfaces fails. *)
Definition noENI (cmd : string) : string + string :=
  if decide (cmd = eniCmd) then inr "exit status 7" else healthy cmd.

End Examples.

(** * The download of the logs: [DownloadClusterLogs] *)

Module Download.
Import Collector Orchestrator.

(** What [DownloadClusterLogs] does to the outside once [FetchLogs] has
    returned, in order. *)
Inductive event : Type :=
| EvRLock                                   (* [ts.logsMu.RLock()] *)
| EvRUnlock                                 (* the deferred [RUnlock()] *)
| EvRangeGroups (order : list (string * MNG))
| EvRangeLogs (order : list (string * list string))
| EvCopy (src dst : string).                (* [fileutil.Copy(src, dst)] *)

Definition trace : Type := list event.

(** The environment: that of [FetchLogs], the answers of [fileutil.Copy]
    (which may depend on what [FetchLogs] did and on the copies made so
    far), the orders of the two [range]s over maps, and [filepath.Join] and
    [filepath.Base]. *)
Record Env : Type := {
  fetchEnv : Orchestrator.Env;
  copyFile : Orchestrator.trace -> trace -> string -> string -> option string;
  rangeGroups : trace -> gmap string MNG -> list (string * MNG);
  rangeGroups_perm : forall t m, rangeGroups t m ≡ₚ map_to_list m;
  rangeLogs : trace -> gmap string (list string) -> list (string * list string);
  rangeLogs_perm : forall t m, rangeLogs t m ≡ₚ map_to_list m;
  pathJoin : string -> string -> string;
  pathBase : string -> string;
}.

(** The state of [FetchLogs], and what was done after it returned. *)
Record state : Type := {
  orch : Orchestrator.state;
  dtr : trace;
}.

(** How the body of the function is left early: [FetchLogs] never returns,
    or a [return e] inside the loops. *)
Inductive leave : Type :=
| Stuck
| Return (e : option error).

Abbreviation D := (M state leave).

Section Body.
Variable env : Env.
(** [ts.cfg.EKSConfig.ConfigPath] *)
Variable configPath : string.
Variable artifactDir : string.

Definition emit (e : event) : D unit :=
  fun s => (Ok tt, {| orch := orch s; dtr := dtr s ++ [e] |}).

(** [err := ts.FetchLogs()] *)
Definition runFetchLogs : D (option error) :=
  fun s =>
    match FetchLogs (fetchEnv env) (orch s) with
    | (Ok e, o) => (Ok e, {| orch := o; dtr := dtr s |})
    | (Exit Deadlock, o) => (Exit Stuck, {| orch := o; dtr := dtr s |})
    end.

Definition Copy (src dst : string) : D (option error) :=
  fun s => (Ok (ErrExternal <$> copyFile env (tr (orch s)) (dtr s) src dst),
            {| orch := orch s; dtr := dtr s ++ [EvCopy src dst] |}).

Definition RangeGroups (m : gmap string MNG) : D (list (string * MNG)) :=
  fun s => let l := rangeGroups env (dtr s) m in
           (Ok l, {| orch := orch s; dtr := dtr s ++ [EvRangeGroups l] |}).

Definition RangeLogs (m : gmap string (list string))
  : D (list (string * list string)) :=
  fun s => let l := rangeLogs env (dtr s) m in
           (Ok l, {| orch := orch s; dtr := dtr s ++ [EvRangeLogs l] |}).

(** [filepath.Join(artifactDir, filepath.Base(fpath))] *)
Definition newPath (fpath : string) : string :=
  pathJoin env artifactDir (pathBase env fpath).

(** Lines 472-477, the innermost loop. *)
Definition copyPaths (fpaths : list string) : D unit :=
  foldM (fun fpath (_ : unit) =>
           do e <- Copy fpath (newPath fpath);
           match e with
           | Some e => exit (Return (Some e))
           | None => ret tt
           end) fpaths tt.

(** Lines 471-478, the loop over [v.Logs]. *)
Definition copyLogs (logs : list (string * list string)) : D unit :=
  foldM (fun (l : string * list string) (_ : unit) => copyPaths l.2) logs tt.

(** Lines 470-479, the loop over the groups; the [range] over a nil [Logs]
    has no turn. *)
Definition copyGroups (groups : list (string * MNG)) : D unit :=
  foldM (fun (g : string * MNG) (_ : unit) =>
           do logs <- RangeLogs (logsOf g.2); copyLogs logs) groups tt.

(** Lines 470-484 *)
Definition copyAll : D (option error) :=
  fun s =>
    (do groups <- RangeGroups (Nodes (cfg (orch s)));
     copyGroups groups;;
     Copy configPath (newPath configPath)) s.

(** [defer d] around the rest [m] of the function: [d] runs when [m]
    returns, not when it is stuck. *)
Definition defer {A} (d : D unit) (m : D A) : D A :=
  fun s =>
    match m s with
    | (Exit Stuck, s') => (Exit Stuck, s')
    | (r, s') => (r, (d s').2)
    end.

(** A [return e] inside the loops is the result of the function. *)
Definition returns (m : D (option error)) : D (option error) :=
  fun s =>
    match m s with
    | (Exit (Return e), s') => (Ok e, s')
    | x => x
    end.

(** [DownloadClusterLogs(artifactDir)] *)
Definition DownloadClusterLogs : D (option error) :=
  returns
    (do e <- runFetchLogs;
     match e with
     | Some e => ret (Some e)
     | None =>
         emit EvRLock;;
         defer (emit EvRUnlock) copyAll
     end).

End Body.
End Download.

Module DownloadSpec.
Import Collector Orchestrator Download.

(** The sources of the copies, in order. *)
Definition sources (t : trace) : list string :=
  omap (fun e => match e with EvCopy src _ => Some src | _ => None end) t.

(** The paths recorded in the fleet status, group by group, each as often
    as it is listed. *)
Definition allPaths (nodes : gmap string MNG) : list string :=
  g ← map_to_list nodes;
  l ← map_to_list (logsOf g.2);
  l.2.

Section Copies.
Variable env : Env.
Variable artifactDir : string.

(** An event of the loops: a [range], or a copy to the artifact directory
    under the base name of its source. *)
Definition wellAimed (e : event) : Prop :=
  match e with
  | EvCopy src dst => dst = newPath env artifactDir src
  | EvRLock | EvRUnlock => False
  | _ => True
  end.

(** No copy of [t] has failed, [o] being what [FetchLogs] did. *)
Definition allCopied (o : Orchestrator.trace) (t : trace) : Prop :=
  forall pre src dst post,
    t = pre ++ EvCopy src dst :: post -> copyFile env o pre src dst = None.

(** The copy of [src] made after [pre] has failed with [e]. *)
Definition copyFailed (o : Orchestrator.trace) (pre : trace) (src : string)
    (e : error) : Prop :=
  exists msg, copyFile env o pre src (newPath env artifactDir src) = Some msg /\
              e = ErrExternal msg.

(** What a loop that is to copy [srcs] has done from [s] to [s']: all of
    them, or those up to the first one that failed. *)
Record copied (s : state) (srcs : list string) (r : res leave unit)
    (s' : state) : Prop := {
  cp_orch : orch s' = orch s;
  cp_done : exists new,
    dtr s' = dtr s ++ new /\ Forall wellAimed new /\
    match r with
    | Ok _ => allCopied (tr (orch s)) (dtr s') /\ sources new = srcs
    | Exit (Return (Some e)) =>
        exists new0 src rest,
          new = new0 ++ [EvCopy src (newPath env artifactDir src)] /\
          allCopied (tr (orch s)) (dtr s ++ new0) /\
          copyFailed (tr (orch s)) (dtr s ++ new0) src e /\
          srcs = sources new0 ++ src :: rest
    | _ => False
    end;
}.

End Copies.

(** An environment in which the copy of [bad] fails and every other copy
    succeeds, after the [FetchLogs] of [fenv]. *)
Definition copier (fenv : Orchestrator.Env) (bad : string) : Env :=
  {| fetchEnv := fenv;
     copyFile _ _ src _ := if decide (src = bad) then Some "no space left" else None;
     rangeGroups _ m := map_to_list m;
     rangeGroups_perm _ _ := reflexivity _;
     rangeLogs _ m := map_to_list m;
     rangeLogs_perm _ _ := reflexivity _;
     pathJoin d n := d +:+ "/" +:+ n;
     pathBase := Examples.afterSlash |}.

(** The records of the three instances arrive one after the other. *)
Definition complete : Orchestrator.Env :=
  Examples.world
    (fun t => match length (OrchestratorSpec.recvs t) with
              | 0 => Data (Examples.success "g1" "i-1")
              | 1 => Data (Examples.success "g2" "i-3")
              | _ => Data (Examples.success "g1" "i-2")
              end).

End DownloadSpec.

(** ** The session and the files of a goroutine *)

Module ProtocolSpec.
Import GoStr Collector ShortenSpec CollectorSpec.

(** The commands run, the files created and the files closed, in order. *)
Definition runs (t : trace) : list string :=
  omap (fun e => match e with EvRun cmd => Some cmd | _ => None end) t.
Definition creates (t : trace) : list string :=
  omap (fun e => match e with EvCreate f => Some f | _ => None end) t.
Definition closes (t : trace) : list string :=
  omap (fun e => match e with EvClose f => Some f | _ => None end) t.

(** An automaton over a trace; a step may consult what came before it. *)
Fixpoint run {St : Type} (step : trace -> St -> event -> option St)
    (pre : trace) (st : St) (t : trace) : option St :=
  match t with
  | [] => Some st
  | e :: t' =>
      match step pre st e with
      | Some st' => run step (pre ++ [e]) st' t'
      | None => None
      end
  end.

(** The session: not yet opened; [ssh.New] has failed; opened; [Connect]
    has failed; connected; closed. *)
Inductive session : Type :=
| Unopened | Refused | Opened | Unconnected | Connected | Closed.

#[global] Instance session_eq_dec : EqDecision session.
Proof. solve_decision. Defined.

(** Nothing is left open. *)
Definition settled (st : session) : Prop :=
  match st with Unopened | Refused | Closed => True | _ => False end.

(** There is a session. *)
Definition live (st : session) : Prop :=
  match st with Unopened | Refused => False | _ => True end.

(** The files: no file is open, and [out] is the output of a command that
    has just been run; the file [f] is open to receive [out]; the write to
    [f] has failed; [f] is to be closed. *)
Inductive filing : Type :=
| Ready (out : option string)
| Open (f out : string)
| Failing (f : string)
| Written (f : string).

Section Protocol.
Variable env : Env.

(** The session is opened once and connected at once; commands run on a
    connected session only; a session that was opened is closed, and
    nothing comes after that; where it could not be opened or connected,
    nothing but the record is sent. *)
Definition sstep (pre : trace) (st : session) (e : event) : option session :=
  match st, e with
  | Closed, _ => None
  | Unopened, EvSSHNew _ _ =>
      Some (match sshNew env pre with None => Opened | Some _ => Refused end)
  | _, EvSSHNew _ _ => None
  | Opened, EvConnect =>
      Some (match sshConnect env pre with
            | None => Connected
            | Some _ => Unconnected
            end)
  | _, EvConnect => None
  | Opened, _ => None
  | Connected, EvRun _ => Some Connected
  | _, EvRun _ => None
  | Unconnected, EvSSHClose | Connected, EvSSHClose => Some Closed
  | _, EvSSHClose => None
  | Refused, EvSend _ => Some Refused
  | Refused, _ => None
  | Unconnected, EvSend _ => Some Unconnected
  | Unconnected, _ => None
  | st, _ => Some st
  end.

(** A file is created for the output of the command just run (only the
    draws of [shorten] come in between), receives that output in one
    write, and is closed; where the write fails the record is sent first. *)
Definition fstep (pre : trace) (st : filing) (e : event) : option filing :=
  match st, e with
  | Ready _, EvRun cmd =>
      Some (Ready (match sshRun env pre cmd with
                   | inl out => Some out
                   | inr _ => None
                   end))
  | Ready (Some out), EvCreate f =>
      Some (match osCreate env pre f with
            | None => Open f out
            | Some _ => Ready None
            end)
  | Ready None, EvCreate _ => None
  | Ready _, EvWrite _ _ | Ready _, EvClose _ => None
  | Ready out, EvIntn _ _ => Some (Ready out)
  | Ready _, _ => Some (Ready None)
  | Open f out, EvWrite f' out' =>
      if decide (f' = f /\ out' = out)
      then Some (match fWrite env pre f out with
                 | None => Written f
                 | Some _ => Failing f
                 end)
      else None
  | Open _ _, _ => None
  | Failing f, EvSend _ => Some (Written f)
  | Failing _, _ => None
  | Written f, EvClose f' => if decide (f' = f) then Some (Ready None) else None
  | Written _, _ => None
  end.

(** Where the goroutine stands after [tr]. *)
Record stand (ss : session) (fs : filing) (R C K : list string) (tr : trace)
  : Prop := {
  st_session : run sstep [] Unopened tr = Some ss;
  st_files : run fstep [] (Ready None) tr = Some fs;
  st_runs : runs tr = R;
  st_creates : creates tr = C;
  st_closes : closes tr = K;
}.

Section Goroutine.
Variables logsDir pfx : string.
Variable commandToFileName : gmap string string.

(** [fpath] is the file of the entry [(cmd, fileName)] of a command map. *)
Definition stored (entry : string * string) (fpath : string) : Prop :=
  exists short, shortened (pfx +:+ entry.2) short /\
                fpath = Join env logsDir short.

(** Between two steps, since the trace was [tr0]: the commands [R] have
    been run, the entries [saved] have been saved, and [data] holds their
    files. *)
Record track (tr0 : trace) (R : list string) (saved : list (string * string))
    (data : instanceLogs) (tr : trace) : Prop := {
  tk_ext : tr0 `prefix_of` tr;
  tk_stand : exists o, stand Connected (Ready o) R (paths data) (paths data) tr;
  tk_stored : Forall2 stored saved (paths data);
}.

(** The goroutine has sent a failure record. *)
Definition aborted (out : option instanceLogs) (tr : trace) : Prop :=
  (exists rec, out = Some rec /\ is_Some (err rec)) /\
  exists o R C K, stand Connected (Ready o) R C K tr.

Definition tracked (tr0 : trace) (R : list string)
    (saved : list (string * string))
    (r : res (option instanceLogs) instanceLogs) (tr : trace) : Prop :=
  match r with
  | Ok data => track tr0 R saved data tr
  | Exit out => aborted out tr
  end.

(** What a goroutine that succeeds has done: the default commands, the
    listing of the units, the journal of each unit selected from that
    listing, the interfaces, the listing of the log files, and each file
    of that listing; the output of each of them but the two listings is in
    a file of its own, and the record names these files in that order. *)
Definition anatomy (rec : instanceLogs) (t : trace) : Prop :=
  exists l1 l2 l3 out1 out2 pre1 pre2,
    l1 ≡ₚ map_to_list commandToFileName /\
    l2 ≡ₚ map_to_list (svcCmdToFileName out1) /\
    l3 ≡ₚ map_to_list (varLogCmdToFileName env out2) /\
    (pre1 ++ [EvRun listCmd]) `prefix_of` t /\
    runs pre1 = l1.*1 /\ sshRun env pre1 listCmd = inl out1 /\
    (pre2 ++ [EvRun findCmd]) `prefix_of` t /\
    runs pre2 = l1.*1 ++ [listCmd] ++ l2.*1 ++ [eniCmd] /\
    sshRun env pre2 findCmd = inl out2 /\
    runs t = l1.*1 ++ [listCmd] ++ l2.*1 ++ [eniCmd; findCmd] ++ l3.*1 /\
    Forall2 stored (l1 ++ l2 ++ [(eniCmd, "v1-enis")] ++ l3) (paths rec) /\
    creates t = paths rec /\ closes t = paths rec.

(** The stages have sent [out] and left. *)
Definition staged (r : res (option instanceLogs) unit) (tr : trace) : Prop :=
  match r with
  | Ok _ => False
  | Exit out =>
      (exists rec, out = Some rec /\ (is_Some (err rec) \/ anatomy rec tr)) /\
      exists o R C K, stand Connected (Ready o) R C K tr
  end.

(** The goroutine has left. *)
Definition finished (r : res (option instanceLogs) unit) (tr : trace) : Prop :=
  match r with
  | Ok _ => False
  | Exit out =>
      (exists ss o R C K, stand ss (Ready o) R C K tr /\ settled ss) /\
      forall rec, out = Some rec -> err rec = None -> anatomy rec tr
  end.

End Goroutine.
End Protocol.

End ProtocolSpec.

(** ** The fleet status across a run *)

Module StatusSpec.
Import Collector Orchestrator OrchestratorSpec.

(** The statuses passed to [Sync], in order. *)
Definition syncs (t : trace) : list (gmap string MNG) :=
  omap (fun e => match e with EvSync nodes => Some nodes | _ => None end) t.

(** The status [nodes'] is the status [nodes] with paths added: the groups
    and their instances are the same, every entry of [Logs] is still there,
    and every new entry is that of a record of [recs] without error. *)
Record grown (recs : list instanceLogs) (nodes nodes' : gmap string MNG)
  : Prop := {
  gr_groups : forall g, nodes' !! g = None <-> nodes !! g = None;
  gr_instances : forall g mv mv',
    nodes !! g = Some mv -> nodes' !! g = Some mv' ->
    Instances mv' = Instances mv;
  gr_keep : forall g mv mv' i p,
    nodes !! g = Some mv -> nodes' !! g = Some mv' ->
    logsOf mv !! i = Some p -> logsOf mv' !! i = Some p;
  gr_new : forall g mv mv' i p,
    nodes !! g = Some mv -> nodes' !! g = Some mv' ->
    logsOf mv' !! i = Some p ->
    logsOf mv !! i = Some p \/
    exists data, data ∈ recs /\ err data = None /\ mngName data = g /\
                 instanceID data = i /\ paths data = p;
}.

(** What a run has kept and changed from [s] to [s'], [new] being what it
    has added to the trace: the status in memory is the one last passed to
    [Sync]. *)
Record kept (s : state) (new : trace) (s' : state) : Prop := {
  kp_name : Name (cfg s') = Name (cfg s);
  kp_enable : Enable (cfg s') = Enable (cfg s);
  kp_logdir : LogDir (cfg s') = LogDir (cfg s);
  kp_trace : tr s' = tr s ++ new;
  kp_grown : grown (recvs new) (Nodes (cfg s)) (Nodes (cfg s'));
  kp_synced : Nodes (cfg s') = default (Nodes (cfg s)) (last (syncs new));
}.

(** How the drain loop ends; [suffix] is what the caller does after it. *)
Definition ending (env : Env) (suffix : trace) (s' : state) (e : option error)
  : Prop :=
  match e with
  | None =>
      exists pre, tr s' = pre ++ EvSync (Nodes (cfg s')) :: suffix /\
                  sync env pre (Nodes (cfg s')) = None
  | Some (ErrExternal msg) =>
      exists pre, tr s' = pre ++ EvSync (Nodes (cfg s')) :: suffix /\
                  sync env pre (Nodes (cfg s')) = Some msg
  | Some (ErrUnknownGroup g) =>
      exists pre data,
        tr s' = pre ++ EvRecv data :: suffix /\ err data = None /\
        mngName data = g /\ Nodes (cfg s') !! g = None
  | Some (ErrRedundant g i) =>
      exists pre data mv,
        tr s' = pre ++ EvRecv data :: suffix /\ err data = None /\
        mngName data = g /\ instanceID data = i /\
        Nodes (cfg s') !! g = Some mv /\ is_Some (logsOf mv !! i)
  | Some _ => False
  end.

(** Every instance sends the record of a failure. *)
Definition failing : Orchestrator.Env :=
  Examples.world
    (fun t => Data {| mngName := "g1"; instanceID := "";
                      paths := []; err := Some (ErrExternal "timeout") |}).

End StatusSpec.

(** ** The error of a failure record *)

Module DiagnosisSpec.
Import GoStr Collector CollectorSpec.

Section Diagnosis.
Variable env : Env.
Variables name instID : string.

(** The error of the record [rec] names the call that has failed, which
    is the last call of the trace [tr] before the record was sent; [suffix]
    is what is done after that (the session is closed). *)
Definition blamed (suffix : trace) (rec : instanceLogs) (tr : trace) : Prop :=
  match err rec with
  | Some (ErrRun cmd id cause) =>
      id = instID /\
      exists pre msg,
        tr = pre ++ [EvRun cmd; EvSend rec] ++ suffix /\
        sshRun env pre cmd = inr msg /\ cause = ErrExternal msg
  | Some (ErrCreate fpath id cause) =>
      id = instID /\
      exists pre msg,
        tr = pre ++ [EvCreate fpath; EvSend rec] ++ suffix /\
        osCreate env pre fpath = Some msg /\ cause = ErrExternal msg
  | Some (ErrWrite fpath id cause) =>
      id = instID /\
      exists pre out msg,
        tr = pre ++ [EvWrite fpath out; EvSend rec; EvClose fpath] ++ suffix /\
        fWrite env pre fpath out = Some msg /\ cause = ErrExternal msg
  | _ => False
  end.

(** A step goes on with a record that has no error, or has sent a failure
    record whose error names the call that failed. *)
Definition diagnosed (r : res (option instanceLogs) instanceLogs) (tr : trace)
  : Prop :=
  match r with
  | Ok data => err data = None
  | Exit out =>
      exists e, out = Some (failed name instID e) /\
                blamed [] (failed name instID e) tr
  end.

(** The stages have left. *)
Definition stage_post (r : res (option instanceLogs) unit) (tr : trace) : Prop :=
  match r with
  | Exit (Some rec) =>
      err rec = None \/
      exists e, rec = failed name instID e /\ blamed [] rec tr
  | _ => True
  end.

(** The session could not be opened or connected. *)
Definition offline (rec : instanceLogs) (tr : trace) : Prop :=
  exists msg,
    rec = unconnected name (ErrExternal msg) /\
    ((exists pre ip dns,
        tr = pre ++ [EvSSHNew ip dns; EvSend rec] /\ sshNew env pre = Some msg) \/
     (exists pre,
        tr = pre ++ [EvConnect; EvSend rec; EvSSHClose] /\
        sshConnect env pre = Some msg)).

Definition explained (r : res (option instanceLogs) unit) (tr : trace) : Prop :=
  match r with
  | Exit (Some rec) =>
      err rec = None \/
      (exists e, rec = failed name instID e /\ blamed [EvSSHClose] rec tr) \/
      offline rec tr
  | _ => True
  end.

End Diagnosis.
End DiagnosisSpec.

(** * Properties *)

(** ** Weakest preconditions *)

Lemma wp_bind {S E A B} (m : M S E A) (k : A -> M S E B)
    (Q : res E B -> S -> Prop) (s : S) :
  wp m (fun r s' => match r with
                    | Ok a => wp (k a) Q s'
                    | Exit e => Q (Exit e) s'
                    end) s ->
  wp (bind m k) Q s.
Proof. unfold wp, bind. by destruct (m s) as [[a|e] s']. Qed.

Lemma wp_eq {S E A} (m : M S E A) (Q : res E A -> S -> Prop) (s s' : S)
    (r : res E A) :
  m s = (r, s') -> Q r s' -> wp m Q s.
Proof. unfold wp. by intros ->. Qed.

Lemma wp_mono {S E A} (m : M S E A) (Q Q' : res E A -> S -> Prop) (s : S) :
  wp m Q s -> (forall r s', Q r s' -> Q' r s') -> wp m Q' s.
Proof. unfold wp. auto. Qed.

(** A loop keeps what each turn keeps; [X] holds when a turn leaves. *)
Lemma wp_foldM {S E A B} (body : B -> A -> M S E A) (I : A -> S -> Prop)
    (X : E -> S -> Prop) (l : list B) (a : A) (s : S) :
  (forall x a s, x ∈ l -> I a s ->
     wp (body x a) (fun r s' => match r with
                                | Ok a' => I a' s'
                                | Exit e => X e s'
                                end) s) ->
  I a s ->
  wp (foldM body l a) (fun r s' => match r with
                                   | Ok a' => I a' s'
                                   | Exit e => X e s'
                                   end) s.
Proof.
  revert a s. induction l as [|x l IH]; intros a s Hbody HI; [done |].
  simpl. apply wp_bind. eapply wp_mono.
  - apply Hbody; [by left | done].
  - intros [a'|e] s' H; [|done]. apply IH; [|done].
    intros y b t Hy. apply Hbody. by right.
Qed.

(** ** Byte strings *)

Section StringFacts.
Import GoStr PrefixSpec.

Lemma sapp_cons (c : ascii) (a b : string) :
  String c a +:+ b = String c (a +:+ b).
Proof. reflexivity. Qed.

Lemma sapp_nil_l (a : string) : "" +:+ a = a.
Proof. reflexivity. Qed.

Lemma len_app (a b : string) : len (a +:+ b) = len a + len b.
Proof.
  induction a as [|c a IH]; [done |]. rewrite sapp_cons; simpl. by rewrite IH.
Qed.

Lemma sapp_nil_r (a : string) : a +:+ "" = a.
Proof. induction a as [|c a IH]; [done |]. by rewrite sapp_cons, IH. Qed.

Lemma sapp_assoc (a b c : string) : (a +:+ b) +:+ c = a +:+ b +:+ c.
Proof. induction a as [|x a IH]; [done |]. by rewrite !sapp_cons, IH. Qed.

Lemma len_take (n : nat) (s : string) : n <= len s -> len (take n s) = n.
Proof.
  revert s; induction n as [|n IH]; intros [|c s] H; simpl in *; try lia; try done.
  rewrite IH; lia.
Qed.

(** An extension starts at a dot, holds no other dot and no separator, and
    ends the path. *)
Lemma ext_scan_found (s e : string) :
  ext_scan s = Found e ->
  exists front e', e = String "."%char e' /\ ext_scan e' = Open /\ s = front +:+ e.
Proof.
  revert e. induction s as [|c s IH]; simpl; [done |]. intros e.
  destruct (ext_scan s) as [e0| |] eqn:Hs.
  - intros [= <-]. destruct (IH _ eq_refl) as (front & e' & -> & He' & ->).
    by exists (String c front), e'.
  - done.
  - destruct (decide (c = "."%char)) as [->|]; [|by destruct (decide _)].
    intros [= <-]. by exists "", s.
Qed.

Lemma ext_scan_app_found (front e : string) :
  ext_scan e = Found e -> ext_scan (front +:+ e) = Found e.
Proof.
  intros He. induction front as [|c front IH]; [done |].
  rewrite sapp_cons; simpl. by rewrite IH.
Qed.

Lemma Ext_suffix (s : string) : HasSuffix s (Ext s).
Proof.
  unfold Ext. destruct (ext_scan s) as [e| |] eqn:Hs.
  - destruct (ext_scan_found _ _ Hs) as (front & _ & _ & _ & ->). by exists front.
  - exists s. by rewrite sapp_nil_r.
  - exists s. by rewrite sapp_nil_r.
Qed.

(** Whatever is put before a non-empty extension, the result has that
    extension. *)
Lemma Ext_app (front s : string) :
  Ext s <> "" -> Ext (front +:+ Ext s) = Ext s.
Proof.
  unfold Ext at 1 3 4. destruct (ext_scan s) as [e| |] eqn:Hs; try done.
  intros _. destruct (ext_scan_found _ _ Hs) as (_ & e' & -> & He' & _).
  unfold Ext. rewrite ext_scan_app_found; [done |].
  simpl. by rewrite He'.
Qed.

(** *** Runes and fields *)

Lemma alnum_small (r : N) : alnum r = true -> (r < 0x80)%N.
Proof.
  unfold alnum. rewrite !orb_true_iff, !andb_true_iff, !N.leb_le. lia.
Qed.

Lemma alnum_high (r : N) : N.shiftr r 7 <> 0%N -> alnum r = false.
Proof.
  intros H. destruct (alnum r) eqn:Hr; [|done]. destruct H.
  apply alnum_small in Hr. rewrite N.shiftr_div_pow2. by apply N.div_small.
Qed.

Lemma lor_high_l (a b : N) :
  N.shiftr a 7 <> 0%N -> N.shiftr (N.lor a b) 7 <> 0%N.
Proof. rewrite N.shiftr_lor. intros H Hz. by apply N.lor_eq_0_l in Hz. Qed.

Lemma lor_high_r (a b : N) :
  N.shiftr b 7 <> 0%N -> N.shiftr (N.lor a b) 7 <> 0%N.
Proof. rewrite N.lor_comm. apply lor_high_l. Qed.

Lemma byte_high (c : ascii) : (byte c <? 0x80)%N = false -> alnum (byte c) = false.
Proof.
  intros H. destruct (alnum (byte c)) eqn:Hc; [|done].
  apply alnum_small, N.ltb_lt in Hc. congruence.
Qed.

(** The table of leading bytes, case by case. *)
Lemma lead_cases (c : ascii) (n : nat) (lo hi : N) :
  lead (byte c) = Some (n, lo, hi) ->
  (0x80 <= lo)%N /\
  (n = 2 /\ N.shiftr (N.shiftl (N.land (byte c) 0x1F) 6) 7 <> 0%N \/
   n = 3 /\ (N.shiftr (N.shiftl (N.land (byte c) 0x0F) 12) 7 <> 0%N \/
             lo = 0xA0%N /\ hi = 0xBF%N) \/
   n = 4 /\ (N.shiftr (N.shiftl (N.land (byte c) 0x07) 18) 7 <> 0%N \/
             lo = 0x90%N /\ hi = 0xBF%N)).
Proof.
  destruct c as [[] [] [] [] [] [] [] []]; vm_compute; intros [= <- <- <-];
    (split; [discriminate |]); tauto || (intuition discriminate).
Qed.

Lemma second_byte_a0 (c : ascii) :
  between 0xA0 0xBF c = true -> N.shiftr (N.shiftl (low6 c) 6) 7 <> 0%N.
Proof. destruct c as [[] [] [] [] [] [] [] []]; vm_compute; congruence. Qed.

Lemma second_byte_90 (c : ascii) :
  between 0x90 0xBF c = true -> N.shiftr (N.shiftl (low6 c) 12) 7 <> 0%N.
Proof. destruct c as [[] [] [] [] [] [] [] []]; vm_compute; congruence. Qed.

Lemma between_high (lo hi : N) (c : ascii) :
  (0x80 <= lo)%N -> between lo hi c = true -> alnum (byte c) = false.
Proof.
  unfold between. rewrite andb_true_iff, !N.leb_le. intros Hlo [H1 H2].
  apply byte_high, N.ltb_ge. lia.
Qed.

(** What [DecodeRune] returns on a string that starts with a byte from
    0x80 on: a rune that is no ASCII letter or digit, encoded by [sz] bytes
    none of which is one. *)
Lemma DecodeRune_high (b0 : ascii) (t : string) :
  (byte b0 <? 0x80)%N = false ->
  alnum (DecodeRune (String b0 t)).1 = false /\
  match (DecodeRune (String b0 t)).2, t with
  | 4, String b1 (String b2 (String b3 _)) =>
      alnum (byte b1) = false /\ alnum (byte b2) = false /\
      alnum (byte b3) = false
  | 3, String b1 (String b2 _) =>
      alnum (byte b1) = false /\ alnum (byte b2) = false
  | 2, String b1 _ => alnum (byte b1) = false
  | _, _ => True
  end.
Proof.
  intros Hb0. unfold DecodeRune. rewrite Hb0.
  destruct (lead (byte b0)) as [[[n lo] hi]|] eqn:Hlead; [|done].
  destruct (lead_cases _ _ _ _ Hlead) as [Hlo Hn].
  destruct t as [|b1 t1]; [done |].
  destruct (between lo hi b1) eqn:Hb1; [|done]. cbn [negb].
  pose proof (between_high _ _ _ Hlo Hb1) as A1.
  destruct Hn as [[-> H2]|[[-> H3]|[-> H4]]].
  - rewrite decide_True by done. cbn [fst snd].
    split; [by apply alnum_high, lor_high_l | done].
  - rewrite decide_False by done.
    destruct t1 as [|b2 t2]; [done |].
    destruct (cont b2) eqn:Hb2; [|done]. cbn [negb].
    rewrite decide_True by done. cbn [fst snd].
    split; [|split; [done | by apply (between_high 0x80 0xBF)]].
    apply alnum_high. destruct H3 as [H3|[-> ->]]; [by apply lor_high_l |].
    by apply lor_high_r, lor_high_l, second_byte_a0.
  - rewrite decide_False by done.
    destruct t1 as [|b2 t2]; [done |].
    destruct (cont b2) eqn:Hb2; [|done]. cbn [negb].
    rewrite decide_False by done.
    destruct t2 as [|b3 t3]; [done |].
    destruct (cont b3) eqn:Hb3; [|done]. cbn [negb fst snd].
    split; [|split_and!; [done | by apply (between_high 0x80 0xBF)..]].
    apply alnum_high. destruct H4 as [H4|[-> ->]]; [by apply lor_high_l |].
    by apply lor_high_r, lor_high_l, second_byte_90.
Qed.

Lemma DecodeRune_low (b0 : ascii) (t : string) :
  (byte b0 <? 0x80)%N = true -> DecodeRune (String b0 t) = (byte b0, 1).
Proof. intros H. unfold DecodeRune. by rewrite H. Qed.

(** The first rune of a non-empty string takes at least one byte, the
    decoding goes on with the rest, and the letters and digits among the
    bytes of the rune are all of them when the rune is a letter or digit,
    and none otherwise. *)
Lemma runes_cons (b0 : ascii) (t : string) :
  exists r chunk rest,
    runes (String b0 t) = (r, chunk) :: runes rest /\
    chunk <> "" /\ String b0 t = chunk +:+ rest /\
    keepAlnum chunk = (if alnum r then chunk else "").
Proof.
  cbn [runes]. destruct (byte b0 <? 0x80)%N eqn:Hb0.
  - rewrite DecodeRune_low by done.
    eexists _, _, _. split; [reflexivity |]. split; [done |]. split; [done |].
    simpl. by destruct (alnum (byte b0)).
  - destruct (DecodeRune_high b0 t Hb0) as [Hr Hsz].
    pose proof (byte_high _ Hb0) as A0.
    destruct (DecodeRune (String b0 t)) as [r sz]. cbn [fst snd] in *.
    destruct sz as [|[|[|[|[|sz]]]]], t as [|b1 [|b2 [|b3 t3]]];
      eexists _, _, _; (split; [reflexivity |]); (split; [done |]);
      (split; [done |]); rewrite Hr; simpl; rewrite ?A0; try done;
      repeat match goal with
             | H : _ /\ _ |- _ => destruct H
             | H : alnum _ = false |- _ => rewrite H; clear H
             end; done.
Qed.

(** Induction along the decoding. *)
Lemma runes_ind (P : string -> Prop) :
  P "" ->
  (forall b0 t r chunk rest,
     runes (String b0 t) = (r, chunk) :: runes rest ->
     chunk <> "" -> String b0 t = chunk +:+ rest ->
     keepAlnum chunk = (if alnum r then chunk else "") ->
     P rest -> P (String b0 t)) ->
  forall s, P s.
Proof.
  intros Hnil Hcons s.
  assert (H : forall n s, len s <= n -> P s).
  { clear s. induction n as [|n IH]; intros [|b0 t] Hlen; simpl in Hlen;
      try done; [lia |].
    destruct (runes_cons b0 t) as (r & chunk & rest & Hr & Hne & Heq & Hk).
    apply (Hcons b0 t r chunk rest Hr Hne Heq Hk). apply IH.
    apply (f_equal len) in Heq. rewrite len_app in Heq. simpl in Heq.
    destruct chunk; [done |]. simpl in Heq. lia. }
  by apply (H (len s)).
Qed.

Lemma keepAlnum_app (a b : string) :
  keepAlnum (a +:+ b) = keepAlnum a +:+ keepAlnum b.
Proof.
  induction a as [|c a IH]; [done |]. rewrite sapp_cons. simpl.
  destruct (alnum (byte c)); by rewrite IH.
Qed.

(** Deleting the runs of runes that are no letters or digits leaves the
    bytes that are letters or digits. *)
Lemma stripNonAlnum_keepAlnum (s : string) : stripNonAlnum s = keepAlnum s.
Proof.
  unfold stripNonAlnum.
  induction s as [|b0 t r chunk rest Hr Hne Heq Hk IH] using runes_ind; [done |].
  rewrite Hr, Heq, keepAlnum_app, Hk, <- IH.
  rewrite filter_cons. simpl. by destruct (alnum r).
Qed.

Lemma runes_nonempty (s : string) :
  Forall (fun rb : N * string => rb.2 <> "") (runes s).
Proof.
  induction s as [|b0 t r chunk rest Hr Hne Heq _ IH] using runes_ind; [done |].
  rewrite Hr. by constructor.
Qed.

Lemma sapp_nonempty (a b : string) : b <> "" -> a +:+ b <> "".
Proof. destruct a; [done |]. by rewrite sapp_cons. Qed.

Lemma fields_go_nonempty (f : N -> bool) (cur : option string)
    (rs : list (N * string)) :
  Forall (fun rb : N * string => rb.2 <> "") rs ->
  (forall w, cur = Some w -> w <> "") ->
  Forall (fun w => w <> "") (fields_go f cur rs).
Proof.
  intros Hrs. revert cur. induction Hrs as [|[r bs] rs Hbs _ IH]; intros cur Hcur.
  - simpl. destruct cur; [|done]. constructor; [by apply Hcur | done].
  - simpl. destruct (f r).
    + destruct cur; [constructor; [by apply Hcur |] |]; by apply IH.
    + apply IH. intros w [= <-]. by apply sapp_nonempty.
Qed.

(** No field is empty. *)
Lemma Fields_nonempty (s : string) : Forall (fun w => w <> "") (Fields s).
Proof. apply fields_go_nonempty; [apply runes_nonempty | done]. Qed.

End StringFacts.

(** ** [shorten] and [randString] *)

Module ShortenFacts.
Import GoStr Collector ShortenSpec.

Lemma ll_at_lowerAlnum (raw : nat) : lowerAlnum (ll_at (raw `mod` len ll)) = true.
Proof.
  assert (H : raw `mod` len ll < 36) by (apply Nat.mod_upper_bound; done).
  revert H. generalize (raw `mod` len ll). intros v Hv.
  do 36 (destruct v as [|v]; [reflexivity |]). lia.
Qed.

Lemma randString_S (env : Env) (n : nat) :
  randString env (S n) =
  (do v <- Intn env (len ll); do rest <- randString env n;
   ret (String (ll_at v) rest)).
Proof. reflexivity. Qed.

Lemma randString_spec (env : Env) (n : nat) (tr : trace) :
  exists sfx new,
    randString env n tr = (Ok sfx, tr ++ new) /\ len sfx = n /\
    allChars lowerAlnum sfx = true /\ Forall isIntn new.
Proof.
  revert tr. induction n as [|n IH]; intros tr.
  - exists "", []. by rewrite app_nil_r.
  - rewrite randString_S. unfold bind at 1. unfold Intn at 1.
    destruct (IH (tr ++ [EvIntn (len ll) (randRaw env tr `mod` len ll)]))
      as (sfx & new & Hr & Hlen & Hall & Hnew).
    exists (String (ll_at (randRaw env tr `mod` len ll)) sfx),
           (EvIntn (len ll) (randRaw env tr `mod` len ll) :: new).
    unfold bind. rewrite Hr. unfold ret. split_and!.
    + by rewrite <- app_assoc.
    + simpl. by rewrite Hlen.
    + cbn [allChars]. by rewrite ll_at_lowerAlnum, Hall.
    + by constructor.
Qed.

Lemma shorten_short (env : Env) (name : string) (tr : trace) :
  len name < 240 -> shorten env name tr = (Ok name, tr).
Proof. intros H. unfold shorten. by rewrite decide_True. Qed.

Lemma shorten_long (env : Env) (name : string) (tr : trace) :
  240 <= len name ->
  exists sfx new,
    shorten env name tr = (Ok (take 230 name +:+ sfx +:+ Ext name), tr ++ new) /\
    len sfx = 5 /\ allChars lowerAlnum sfx = true /\ Forall isIntn new.
Proof.
  intros H. unfold shorten. rewrite decide_False by lia.
  destruct (randString_spec env 5 tr) as (sfx & new & Hr & Hlen & Hall & Hnew).
  exists sfx, new. unfold bind. by rewrite Hr.
Qed.

Lemma shorten_spec (env : Env) (name : string) (tr : trace) :
  exists short new,
    shorten env name tr = (Ok short, tr ++ new) /\ shortened name short /\
    Forall isIntn new.
Proof.
  destruct (decide (len name < 240)) as [H|H].
  - exists name, []. rewrite app_nil_r, shorten_short by done.
    split_and!; [done | by left | done].
  - destruct (shorten_long env name tr) as (sfx & new & Hr & Hlen & Hall & Hnew);
      [lia |].
    exists (take 230 name +:+ sfx +:+ Ext name), new.
    split_and!; [done | right; split; [lia | by exists sfx] | done].
Qed.

End ShortenFacts.

(** ** The prefix of the file names *)

Module PrefixFacts.
Import GoStr Collector ShortenSpec PrefixSpec ShortenFacts.

Lemma alnum_lower (c : ascii) : alnum (byte (lower c)) = alnum (byte c).
Proof. by destruct c as [[] [] [] [] [] [] [] []]. Qed.

Lemma lower_lowerAlnum (c : ascii) :
  alnum (byte c) = true -> lowerAlnum (lower c) = true.
Proof. by destruct c as [[] [] [] [] [] [] [] []]. Qed.

Lemma keepAlnum_ToLower (s : string) :
  keepAlnum (ToLower s) = ToLower (keepAlnum s).
Proof.
  induction s as [|c s IH]; [done |]. simpl. rewrite alnum_lower.
  destruct (alnum (byte c)); simpl; by rewrite IH.
Qed.

Lemma allChars_keepAlnum (s : string) : allChars alnumByte (keepAlnum s) = true.
Proof.
  induction s as [|c s IH]; [done |]. simpl.
  destruct (alnum (byte c)) eqn:Hc; [|done]. simpl.
  unfold alnumByte at 1. by rewrite Hc.
Qed.

Lemma allChars_ToLower (s : string) :
  allChars alnumByte s = true -> allChars lowerAlnum (ToLower s) = true.
Proof.
  induction s as [|c s IH]; [done |]. simpl.
  intros [Hc Hs]%andb_true_iff. by rewrite lower_lowerAlnum, IH.
Qed.

Lemma allChars_remove (P : ascii -> bool) (old : string) (skip : nat) (s : string) :
  allChars P s = true -> allChars P (remove_go old skip s) = true.
Proof.
  revert skip. induction s as [|c s IH]; intros skip; [done |].
  cbn [allChars]. intros [Hc Hs]%andb_true_iff. cbn [remove_go].
  destruct skip; [|by apply IH].
  destruct (HasPrefix (String c s) old); [by apply IH |].
  cbn [allChars]. by rewrite Hc, IH.
Qed.

Lemma allChars_take (P : ascii -> bool) (n : nat) (s : string) :
  allChars P s = true -> allChars P (take n s) = true.
Proof.
  revert s. induction n as [|n IH]; intros [|c s]; simpl; try done.
  intros [Hc Hs]%andb_true_iff. by rewrite Hc, IH.
Qed.

Lemma len_take_le (n : nat) (s : string) : len (take n s) <= n.
Proof.
  revert s. induction n as [|n IH]; intros [|c s]; simpl; try lia.
  specialize (IH s). lia.
Qed.

Lemma take_all (n : nat) (s : string) : len s <= n -> take n s = s.
Proof.
  revert s. induction n as [|n IH]; intros [|c s]; simpl; try done; try lia.
  intros H. rewrite IH; [done | lia].
Qed.

Lemma HasPrefix_allChars (P : ascii -> bool) (s old : string) :
  HasPrefix s old = true -> allChars P s = true -> allChars P old = true.
Proof.
  revert s. induction old as [|a old IH]; intros [|c s]; simpl; try done.
  case_decide as Hac; [|done]. subst.
  intros Hp [Hc Hs]%andb_true_iff. rewrite Hc. by apply (IH s).
Qed.

(** A string to delete that holds a byte foreign to [s] is not found. *)
Lemma remove_foreign (P : ascii -> bool) (old s : string) :
  allChars P old = false -> allChars P s = true -> remove_go old 0 s = s.
Proof.
  intros Hold. induction s as [|c s IH]; [done |].
  intros Hs. destruct (HasPrefix (String c s) old) eqn:Hp.
  - apply (HasPrefix_allChars P) in Hp; congruence.
  - cbn [remove_go]. rewrite Hp. f_equal. apply IH.
    simpl in Hs. by apply andb_true_iff in Hs as [_ ?].
Qed.

(** The sanitized name is made of at most 7 digits and lower-case letters;
    it is what the words of the specification describe. *)
Lemma sanitize_facts (dns : string) :
  sanitize dns = sanitize_spec dns /\ len (sanitize dns) <= 7 /\
  allChars lowerAlnum (sanitize dns) = true.
Proof.
  assert (Heq : sanitize dns = sanitize_spec dns).
  { unfold sanitize, sanitize_spec.
    rewrite stripNonAlnum_keepAlnum, keepAlnum_ToLower.
    case_decide; [done |]. rewrite take_all; [done | lia]. }
  split; [done |]. rewrite Heq. unfold sanitize_spec. split.
  - apply len_take_le.
  - apply allChars_take. unfold RemoveAll. do 3 apply allChars_remove.
    rewrite keepAlnum_ToLower. apply allChars_ToLower, allChars_keepAlnum.
Qed.

(** The second deletion of lines 70-72 never finds its string: there is no
    dot left. *)
Lemma compute_amazonaws_not_found (dns : string) :
  let d := RemoveAll (ToLower (stripNonAlnum dns)) "ec2" in
  RemoveAll d "compute.amazonaws" = d.
Proof.
  cbn zeta. unfold RemoveAll at 1. apply (remove_foreign lowerAlnum); [done |].
  unfold RemoveAll. apply allChars_remove.
  rewrite stripNonAlnum_keepAlnum. apply allChars_ToLower, allChars_keepAlnum.
Qed.

End PrefixFacts.

(** ** The goroutine of one instance *)

Module CollectorFacts.
Import GoStr Collector ShortenSpec CollectorSpec ShortenFacts.

Lemma grun_app (st : gstate) (a b : trace) :
  grun st (a ++ b) =
  match grun st a with Some st' => grun st' b | None => None end.
Proof.
  revert st. induction a as [|e a IH]; intros st; simpl; [done |].
  destruct (gstep st e); [apply IH | done].
Qed.

Lemma grun_snoc (st st' : gstate) (tr : trace) (e : event) :
  grun st tr = Some st' -> grun st (tr ++ [e]) = gstep st' e.
Proof. intros H. rewrite grun_app, H. simpl. by destruct (gstep st' e). Qed.

(** In an accepted trace every command comes right after an allowed probe,
    or right after the wait that follows a denied probe. *)
Lemma grun_clear (tr : trace) :
  grun Idle tr = Some Clear ->
  (exists pre, tr = pre ++ [EvAllow true]) \/
  (exists pre, tr = pre ++ [EvAllow false; EvWait]).
Proof.
  destruct tr as [|e0 tr0] using rev_ind; [done |].
  rewrite grun_app. destruct (grun Idle tr0) as [st|] eqn:Hst; [|done].
  simpl. destruct (gstep st e0) as [st'|] eqn:He; [|done]. intros [= ->].
  destruct st, e0 as [| [] | | | | | | | | | | |]; simplify_eq/=.
  - left. by eexists.
  - right. clear IHtr0.
    destruct tr0 as [|e1 tr1 _] using rev_ind; [done |].
    rewrite grun_app in Hst.
    destruct (grun Idle tr1) as [st1|] eqn:Hst1; [|done]. simpl in Hst.
    destruct (gstep st1 e1) as [st1'|] eqn:He1; [|done].
    injection Hst as ->.
    destruct st1, e1 as [| [] | | | | | | | | | | |]; simplify_eq/=;
      exists tr1; by rewrite <- app_assoc.
  - left. by eexists.
Qed.

Lemma grun_gated (tr : trace) :
  is_Some (grun Idle tr) ->
  (forall pre cmd post, tr = pre ++ EvRun cmd :: post ->
     (exists pre', pre = pre' ++ [EvAllow true]) \/
     (exists pre', pre = pre' ++ [EvAllow false; EvWait])) /\
  (forall pre post, tr = pre ++ EvAllow false :: post ->
     post = [] \/ exists post', post = EvWait :: post').
Proof.
  intros Hacc. split.
  - intros pre cmd post ->. rewrite grun_app in Hacc.
    destruct (grun Idle pre) as [st|] eqn:Hpre; [|by destruct Hacc].
    simpl in Hacc. destruct st; simpl in Hacc; try by destruct Hacc.
    by apply grun_clear.
  - intros pre post ->. rewrite grun_app in Hacc.
    destruct (grun Idle pre) as [st|] eqn:Hpre; [|by destruct Hacc].
    destruct post as [|e post]; [by left | right].
    simpl in Hacc.
    destruct st, e as [| [] | | | | | | | | | | |]; simpl in Hacc;
      try (by destruct Hacc); by eexists.
Qed.

Lemma sends_app (a b : trace) : sends (a ++ b) = sends a ++ sends b.
Proof. apply omap_app. Qed.

Lemma isIntn_quiet (new : trace) : Forall isIntn new -> Forall quiet new.
Proof. intros H. eapply Forall_impl; [done |]. by intros []. Qed.

Section Goroutine.
Variable env : Env.
Variables name instID logsDir pfx : string.
Variable iv : Instance.
Variable commandToFileName : gmap string string.

Local Abbreviation named := (CollectorSpec.named env logsDir pfx).
Local Abbreviation okfile := (CollectorSpec.okfile env logsDir pfx).
Local Abbreviation inv := (CollectorSpec.inv env logsDir pfx).
Local Abbreviation answer_ok := (CollectorSpec.answer_ok env).
Local Abbreviation clean := (CollectorSpec.clean env).
Local Abbreviation almost := (CollectorSpec.almost env).
Local Abbreviation sent := (CollectorSpec.sent env logsDir pfx).
Local Abbreviation okdata := (CollectorSpec.okdata env name instID logsDir pfx).
Local Abbreviation step_post :=
  (CollectorSpec.step_post env name instID logsDir pfx).
Local Abbreviation final_post :=
  (CollectorSpec.final_post env name instID logsDir pfx).
Local Abbreviation unconnected := (CollectorSpec.unconnected name).
Local Abbreviation goroutine_post :=
  (CollectorSpec.goroutine_post env name instID logsDir pfx).

Lemma clean_nil : clean [].
Proof. intros pre e post H. by destruct pre. Qed.

Lemma clean_snoc (tr : trace) (e : event) :
  clean tr -> answer_ok tr e -> clean (tr ++ [e]).
Proof.
  intros Hc He pre e' post Heq.
  destruct post as [|x post _] using rev_ind.
  - apply (app_inj_tail tr pre e e') in Heq as [-> ->]. done.
  - rewrite app_comm_cons, app_assoc in Heq.
    apply app_inj_tail in Heq as [-> _]. by eapply Hc.
Qed.

Lemma clean_quiet (tr new : trace) :
  clean tr -> Forall isIntn new -> clean (tr ++ new).
Proof.
  intros H Hq. induction new as [|e new IH] using rev_ind.
  - by rewrite app_nil_r.
  - apply Forall_app in Hq as [Hq He]. rewrite app_assoc.
    rewrite Forall_singleton in He.
    apply clean_snoc; [by apply IH | by destruct e].
Qed.

Lemma clean_almost (tr : trace) : clean tr -> almost tr.
Proof. intros Hc pre e post Heq Hbad. destruct Hbad. by eapply Hc. Qed.

Lemma almost_snoc (tr : trace) (e : event) : clean tr -> almost (tr ++ [e]).
Proof.
  intros Hc pre e' post Heq Hbad.
  destruct post as [|x post _] using rev_ind; [done |].
  rewrite app_comm_cons, app_assoc in Heq.
  apply app_inj_tail in Heq as [-> _]. destruct Hbad. by eapply Hc.
Qed.

Lemma inv_snoc (st st' : gstate) (tr : trace) (e : event) :
  inv st tr -> gstep st e = Some st' -> okfile e ->
  (forall r, e <> EvSend r) -> inv st' (tr ++ [e]).
Proof.
  intros [Hg Hf Hs] Hst He Hns. split.
  - by rewrite (grun_snoc _ _ _ _ Hg).
  - apply Forall_app; split; [done | by constructor].
  - rewrite sends_app, Hs. destruct e; try done. exfalso. by eapply Hns.
Qed.

Lemma inv_quiet (tr new : trace) :
  inv Idle tr -> Forall quiet new -> inv Idle (tr ++ new).
Proof.
  intros H Hq. induction new as [|e new IH] using rev_ind.
  - by rewrite app_nil_r.
  - apply Forall_app in Hq as [Hq He]. rewrite app_assoc.
    rewrite Forall_singleton in He.
    apply (inv_snoc Idle); [by apply IH | | |]; by destruct e.
Qed.

Lemma inv_send (st : gstate) (tr : trace) (r : instanceLogs) :
  inv st tr -> st <> Denied -> (err r = None -> clean tr) -> almost tr ->
  sent r (tr ++ [EvSend r]).
Proof.
  intros [Hg Hf Hs] Hst Hc Ha. split.
  - rewrite (grun_snoc _ _ _ _ Hg). by destruct st.
  - apply Forall_app; split; [done | by constructor].
  - by rewrite sends_app, Hs.
  - intros Hr. by apply clean_snoc; [apply Hc |].
  - intros pre e post Heq Hbad.
    destruct post as [|x post _] using rev_ind.
    + apply app_inj_tail in Heq as [_ <-]. by destruct Hbad.
    + rewrite app_comm_cons, app_assoc in Heq.
      apply app_inj_tail in Heq as [-> <-].
      rewrite (Ha pre e post eq_refl Hbad). by repeat constructor.
Qed.

Lemma sent_snoc (tr : trace) (r : instanceLogs) (e : event) :
  sent r tr -> quiet e -> closing e -> sent r (tr ++ [e]).
Proof.
  intros [Hg Hf Hs Hc Ha] Hq He. split.
  - rewrite (grun_snoc _ _ _ _ Hg). by destruct e.
  - apply Forall_app; split; [done |]. constructor; [by destruct e | done].
  - rewrite sends_app, Hs. by destruct e.
  - intros Hr. apply clean_snoc; [auto | by destruct e].
  - intros pre e' post Heq Hbad.
    destruct post as [|x post _] using rev_ind.
    + apply app_inj_tail in Heq as [_ <-]. destruct Hbad. by destruct e.
    + rewrite app_comm_cons, app_assoc in Heq.
      apply app_inj_tail in Heq as [-> <-].
      apply Forall_app; split; [by eapply Ha | by constructor].
Qed.

Lemma gate_spec (st : gstate) (tr : trace)
    (Q : res (option instanceLogs) unit -> trace -> Prop) :
  inv st tr -> clean tr -> st <> Denied ->
  (forall tr', inv Clear tr' -> clean tr' -> Q (Ok tt) tr') ->
  wp (gate env) Q tr.
Proof.
  intros H Hc Hst HQ. unfold gate. apply wp_bind. unfold wp at 1, Allow; simpl.
  destruct (allow env tr); apply HQ.
  - apply (inv_snoc st); [done | by destruct st | done | done].
  - by apply clean_snoc.
  - apply (inv_snoc Denied); [|done..].
    apply (inv_snoc st); [done | by destruct st | done | done].
  - by do 2 (apply clean_snoc; [|done]).
Qed.

Lemma sendReturn_spec {A} (st : gstate) (r : instanceLogs) (tr : trace)
    (Q : res (option instanceLogs) A -> trace -> Prop) :
  inv st tr -> st <> Denied -> (err r = None -> clean tr) -> almost tr ->
  (forall tr', sent r tr' -> Q (Exit (Some r)) tr') ->
  wp (sendReturn r) Q tr.
Proof.
  intros H Hst Hc Ha HQ. unfold sendReturn. apply wp_bind.
  unfold wp, send, emit; simpl. by apply HQ, (inv_send st).
Qed.

Lemma runSave_spec (cmd fileName : string) (data : instanceLogs) (tr : trace) :
  inv Clear tr -> clean tr -> okdata data ->
  wp (runSave env name instID logsDir pfx cmd fileName data) step_post tr.
Proof.
  intros H Hc Hd. unfold runSave. apply wp_bind. unfold wp at 1, Run; simpl.
  assert (H1 : inv Idle (tr ++ [EvRun cmd])) by by apply (inv_snoc Clear).
  destruct (sshRun env tr cmd) as [out|msg] eqn:Hrun.
  2:{ apply (sendReturn_spec Idle);
      [done | done | done | by (apply almost_snoc || apply clean_almost) |]. intros tr' Hs. by eexists. }
  assert (C1 : clean (tr ++ [EvRun cmd])) by (apply clean_snoc; simpl; eauto).
  apply wp_bind.
  destruct (shorten_spec env (pfx +:+ fileName) (tr ++ [EvRun cmd]))
    as (short & new & Hshort & Hsh & Hnew).
  eapply wp_eq; [exact Hshort |].
  assert (Hn : named (Join env logsDir short)) by by exists fileName, short.
  assert (H2 : inv Idle ((tr ++ [EvRun cmd]) ++ new))
    by by apply inv_quiet, isIntn_quiet.
  assert (C2 : clean ((tr ++ [EvRun cmd]) ++ new)) by by apply clean_quiet.
  set (tr2 := (tr ++ [EvRun cmd]) ++ new) in *.
  apply wp_bind. unfold wp at 1, Create; simpl.
  assert (H3 : inv Idle (tr2 ++ [EvCreate (Join env logsDir short)]))
    by by apply (inv_snoc Idle).
  destruct (osCreate env tr2 (Join env logsDir short)) as [msg|] eqn:Hcreate;
    simpl.
  { apply (sendReturn_spec Idle);
      [done | done | done | by (apply almost_snoc || apply clean_almost) |]. intros tr' Hs. by eexists. }
  assert (C3 : clean (tr2 ++ [EvCreate (Join env logsDir short)]))
    by by apply clean_snoc.
  set (tr3 := tr2 ++ [EvCreate (Join env logsDir short)]) in *.
  apply wp_bind. unfold wp at 1, Write; simpl.
  assert (H4 : inv Idle (tr3 ++ [EvWrite (Join env logsDir short) out]))
    by by apply (inv_snoc Idle).
  destruct (fWrite env tr3 (Join env logsDir short) out) as [msg|] eqn:Hwrite;
    simpl.
  { unfold wp, bind, send, Close, emit, exit; simpl.
    eexists. split; [done |].
    apply sent_snoc; [|done..].
    apply (inv_send Idle); [done..|]. by apply almost_snoc. }
  unfold wp, bind, Close, emit, ret; simpl. split_and!.
  - by apply (inv_snoc Idle).
  - by do 2 (apply clean_snoc; [|done]).
  - destruct Hd. split; simpl; try done.
    apply Forall_app; split; [done | by constructor].
Qed.

Lemma fetch_spec (entry : string * string) (data : instanceLogs) (tr : trace) :
  inv Idle tr -> clean tr -> okdata data ->
  wp (fetch env name instID logsDir pfx entry data) step_post tr.
Proof.
  intros H Hc Hd. unfold fetch. apply wp_bind.
  apply (gate_spec Idle); [done..|]. intros tr' H' Hc'. by apply runSave_spec.
Qed.

Lemma loop_spec (l : list (string * string)) (data : instanceLogs) (tr : trace) :
  inv Idle tr -> clean tr -> okdata data ->
  wp (foldM (fetch env name instID logsDir pfx) l data) step_post tr.
Proof.
  intros H Hc Hd.
  apply (wp_foldM _ (fun data tr => inv Idle tr /\ clean tr /\ okdata data)
           (fun out tr => exists e, out = Some (failed name instID e) /\
                                    sent (failed name instID e) tr)); [|done].
  intros entry data' tr' _ (H' & Hc' & Hd'). by apply fetch_spec.
Qed.

Lemma step_final (out : option instanceLogs) (tr : trace) :
  step_post (Exit out) tr -> final_post (Exit out) tr.
Proof. intros (e & -> & Hs). exists (failed name instID e). eauto. Qed.

Lemma range_spec (m : gmap string string) (tr : trace)
    (Q : res (option instanceLogs) (list (string * string)) -> trace -> Prop) :
  inv Idle tr -> clean tr ->
  (forall l tr', inv Idle tr' -> clean tr' -> Q (Ok l) tr') ->
  wp (range env m) Q tr.
Proof.
  intros H Hc HQ. unfold wp, range; simpl.
  apply HQ; [by apply (inv_snoc Idle) | by apply clean_snoc].
Qed.

Lemma stages_spec (tr : trace) :
  inv Idle tr -> clean tr ->
  wp (stages env name instID logsDir pfx commandToFileName) final_post tr.
Proof.
  intros H Hc. unfold stages.
  apply wp_bind, range_spec; [done..|]. intros cmds tr1 H1 C1.
  apply wp_bind. eapply wp_mono; [by apply loop_spec |].
  intros [data|out] tr2 H2; [|by apply step_final].
  destruct H2 as (H2 & C2 & Hd).
  apply wp_bind.
  apply (gate_spec Idle); [done..|]. intros tr3 H3 C3.
  apply wp_bind. unfold wp at 1, Run; simpl.
  assert (H4 : inv Idle (tr3 ++ [EvRun listCmd])) by by apply (inv_snoc Clear).
  destruct (sshRun env tr3 listCmd) as [out|msg] eqn:Hlist.
  2:{ apply (sendReturn_spec Idle);
      [done | done | done | by (apply almost_snoc || apply clean_almost) |]. intros tr' Hs.
      eexists. split_and!; [done..|]. right. by eexists. }
  assert (C4 : clean (tr3 ++ [EvRun listCmd]))
    by (apply clean_snoc; simpl; eauto).
  apply wp_bind, range_spec; [done..|]. intros svcs tr5 H5 C5.
  apply wp_bind. eapply wp_mono; [by apply loop_spec |].
  intros [data'|out'] tr6 H6; [|by apply step_final].
  destruct H6 as (H6 & C6 & Hd').
  apply wp_bind.
  apply (gate_spec Idle); [done..|]. intros tr7 H7 C7.
  apply wp_bind. eapply wp_mono; [by apply runSave_spec |].
  intros [data''|out''] tr8 H8; [|by apply step_final].
  destruct H8 as (H8 & C8 & Hd'').
  apply wp_bind.
  apply (gate_spec Idle); [done..|]. intros tr9 H9 C9.
  apply wp_bind. unfold wp at 1, Run; simpl.
  assert (H10 : inv Idle (tr9 ++ [EvRun findCmd])) by by apply (inv_snoc Clear).
  destruct (sshRun env tr9 findCmd) as [out2|msg] eqn:Hfind.
  2:{ apply (sendReturn_spec Idle);
      [done | done | done | by (apply almost_snoc || apply clean_almost) |]. intros tr' Hs.
      eexists. split_and!; [done..|]. right. by eexists. }
  assert (C10 : clean (tr9 ++ [EvRun findCmd]))
    by (apply clean_snoc; simpl; eauto).
  apply wp_bind, range_spec; [done..|]. intros logs tr11 H11 C11.
  apply wp_bind. eapply wp_mono; [by apply loop_spec |].
  intros [data3|out3] tr12 H12; [|by apply step_final].
  destruct H12 as (H12 & C12 & Hd3).
  apply (sendReturn_spec Idle);
      [done | done | done | by (apply almost_snoc || apply clean_almost) |]. intros tr' Hs.
  eexists. split_and!; [done..|]. by left.
Qed.

Lemma goroutine_spec (tr0 : trace) :
  inv Idle tr0 -> clean tr0 ->
  wp (goroutine env name instID logsDir pfx iv commandToFileName)
     (goroutine_post tr0) tr0.
Proof.
  intros H0 C0. unfold goroutine. apply wp_bind. unfold wp at 1, pollStopc; simpl.
  destruct (stopc env tr0) eqn:Hstop; [done |].
  assert (H1 : inv Idle (tr0 ++ [EvStopc false])) by by apply (inv_snoc Idle).
  assert (C1 : clean (tr0 ++ [EvStopc false])) by by apply clean_snoc.
  apply wp_bind. apply (gate_spec Idle); [done..|]. intros tr2 H2 C2.
  apply wp_bind. unfold wp at 1, New; simpl.
  assert (H3 : inv Idle (tr2 ++ [EvSSHNew (PublicIP iv) (PublicDNSName iv)]))
    by by apply (inv_snoc Clear).
  destruct (sshNew env tr2) as [msg|] eqn:Hnew; simpl.
  { apply (sendReturn_spec Idle);
      [done | done | done | by (apply almost_snoc || apply clean_almost) |]. intros tr' Hs.
    split_and!; [done..|]. right; right. by eexists. }
  assert (C3 : clean (tr2 ++ [EvSSHNew (PublicIP iv) (PublicDNSName iv)]))
    by by apply clean_snoc.
  set (tr3 := tr2 ++ [EvSSHNew (PublicIP iv) (PublicDNSName iv)]) in *.
  unfold wp, defer.
  match goal with
  | |- context [bind ?m ?k tr3] =>
      assert (Hb : wp (bind m k) (fun r tr => match r with
        | Ok _ => False
        | Exit out => exists rec, out = Some rec /\ sent rec tr /\
            (okdata rec \/ (exists e, rec = failed name instID e) \/
             (exists msg, rec = unconnected (ErrExternal msg)))
        end) tr3);
      [|unfold wp in Hb; destruct (bind m k tr3) as [[u|out] tr4]]
  end.
  - apply wp_bind. unfold wp at 1, Connect; simpl.
    assert (H4 : inv Idle (tr3 ++ [EvConnect])) by by apply (inv_snoc Idle).
    destruct (sshConnect env tr3) as [msg|] eqn:Hconn; simpl.
    { apply (sendReturn_spec Idle);
      [done | done | done | by (apply almost_snoc || apply clean_almost) |]. intros tr' Hs.
      eexists. split_and!; [done..|]. right; right. by eexists. }
    assert (C4 : clean (tr3 ++ [EvConnect])) by by apply clean_snoc.
    eapply wp_mono; [by apply stages_spec |].
    intros [u|out] tr' Hp; [done |]. destruct Hp as (rec & -> & Hs & Hrec).
    exists rec. split_and!; [done..|]. destruct Hrec; eauto.
  - done.
  - simpl in *. destruct Hb as (rec & -> & Hs & Hrec).
    split_and!; [done | by apply sent_snoc | done].
Qed.

End Goroutine.

End CollectorFacts.

(** ** The orchestrating function *)

Module OrchestratorFacts.
Import GoStr Collector Orchestrator OrchestratorSpec.

Section Facts.
Variable env : Env.

Local Abbreviation drained := (OrchestratorSpec.drained env).

Lemma merge_error (data : instanceLogs) (total : nat) (s : state) :
  is_Some (err data) -> merge env data total s = (Ok (inr total), s).
Proof. intros [e He]. unfold merge. by rewrite He. Qed.

Lemma merge_rejected (data : instanceLogs) (total : nat) (s : state) :
  err data = None -> rejected data (Nodes (cfg s)) ->
  exists e, merge env data total s = (Ok (inl e), s) /\ violation (Some e).
Proof.
  intros He Hrej. unfold merge, bind, getCfg. rewrite He.
  destruct Hrej as [Hn|(mv & Hn & [p Hp])]; rewrite Hn.
  - by eexists.
  - rewrite Hp. by eexists.
Qed.

Lemma merge_accepted (data : instanceLogs) (total : nat) (s : state) (mv : MNG) :
  err data = None -> Nodes (cfg s) !! mngName data = Some mv ->
  logsOf mv !! instanceID data = None ->
  merge env data total s =
    (Ok (inr (total + length (paths data))), merge_state data mv s).
Proof.
  intros He Hn Hl. unfold merge, bind, getCfg. rewrite He, Hn, Hl.
  reflexivity.
Qed.

Lemma rejected_dec (data : instanceLogs) (nodes : gmap string MNG) :
  rejected data nodes \/
  exists mv, nodes !! mngName data = Some mv /\
             logsOf mv !! instanceID data = None.
Proof.
  unfold rejected. destruct (nodes !! mngName data) as [mv|]; [|by left; left].
  destruct (logsOf mv !! instanceID data) as [p|] eqn:Hl.
  - left. right. exists mv. eauto.
  - right. by exists mv.
Qed.

Lemma merged_merge_state (data : instanceLogs) (mv : MNG) (s : state) :
  merged data (Nodes (cfg (merge_state data mv s))).
Proof.
  unfold merged, merge_state; simpl. eexists. rewrite lookup_insert_eq.
  split; [done |]. unfold logsOf at 1; simpl. by rewrite lookup_insert_eq.
Qed.

(** A merge keeps what is recorded. *)
Lemma merged_keep (data data' : instanceLogs) (mv : MNG) (s : state) :
  Nodes (cfg s) !! mngName data = Some mv ->
  logsOf mv !! instanceID data = None ->
  merged data' (Nodes (cfg s)) ->
  merged data' (Nodes (cfg (merge_state data mv s))).
Proof.
  intros Hn Hl (mv' & Hn' & Hl'). unfold merged, merge_state; simpl.
  destruct (decide (mngName data = mngName data')) as [Heq|Hne].
  - rewrite Heq, lookup_insert_eq. eexists. split; [done |].
    unfold logsOf at 1; simpl. rewrite <- Heq in Hn'. simplify_eq.
    destruct (decide (instanceID data = instanceID data')) as [Hi|Hi].
    + rewrite Hi in Hl. congruence.
    + by rewrite lookup_insert_ne.
  - rewrite lookup_insert_ne by done. eauto.
Qed.

(** *** The drain loop *)

Lemma drain_S (k total : nat) (s : state) :
  drain env (S k) total s =
  match select env (tr s) with
  | Never => (Exit Deadlock, s)
  | Stopped => Sync env (snoc s EvStopped)
  | Data data =>
      match merge env data total (snoc s (EvRecv data)) with
      | (Ok (inl e), s1) => (Ok (Some e), s1)
      | (Ok (inr total'), s1) => drain env k total' s1
      | (Exit x, s1) => (Exit x, s1)
      end
  end.
Proof.
  simpl. unfold bind at 1. unfold Select.
  destruct (select env (tr s)) as [data| |]; try done.
  unfold bind, snoc.
  by destruct (merge env data total _) as [[[e|t]|x] s1].
Qed.

Lemma drained_recv (k : nat) (s s1 : state) (data : instanceLogs)
    (mid new : trace) (e : option error) (s' : state) :
  tr s1 = tr s ++ EvRecv data :: mid ->
  Forall (fun e => exists nodes, e = EvSync nodes) mid ->
  (forall d, merged d (Nodes (cfg s)) -> merged d (Nodes (cfg s1))) ->
  (err data = None -> merged data (Nodes (cfg s1))) ->
  drained k s1 new e s' ->
  drained (S k) s (EvRecv data :: mid ++ new) e s'.
Proof.
  intros Htr Hmid Hkeep Hdata [Ht Hev Hc Hall Hstop Hk].
  assert (Hrm : recvs mid = []).
  { clear -Hmid. induction Hmid as [|x mid (n & ->) _ IH]; [done | exact IH]. }
  assert (Hsm : EvStopped ∉ mid).
  { intros Hin. rewrite Forall_forall in Hmid.
    by destruct (Hmid _ Hin) as (n & ?). }
  assert (Hrecvs : recvs (EvRecv data :: mid ++ new) = data :: recvs new).
  { unfold recvs at 1. simpl. f_equal. fold (recvs (mid ++ new)).
    unfold recvs. rewrite omap_app. fold (recvs mid). by rewrite Hrm. }
  split.
  - rewrite Ht, Htr. by rewrite <- !app_assoc.
  - constructor; [done |]. apply Forall_app; split; [|done].
    eapply Forall_impl; [exact Hmid |]. by intros x (n & ->).
  - rewrite Hrecvs; simpl. lia.
  - intros Hns Hv. rewrite Hrecvs; simpl. f_equal. apply Hall; [|done].
    intros Hin. apply Hns. right. apply elem_of_app. by right.
  - intros Hin. apply elem_of_cons in Hin as [|Hin]; [done |].
    apply elem_of_app in Hin as [|Hin]; [done |].
    destruct (Hstop Hin) as (pre & -> & Hpre & -> & Hm).
    exists (EvRecv data :: mid ++ pre). split_and!.
    + simpl. by rewrite <- ?app_assoc.
    + intros Hin'. apply elem_of_cons in Hin' as [|Hin']; [done |].
      apply elem_of_app in Hin' as [|]; done.
    + rewrite Htr. do 2 f_equal. simpl. by rewrite <- ?app_assoc.
    + intros d Hd Hok.
      assert (Hd' : d = data \/ d ∈ recvs pre).
      { unfold recvs in Hd. simpl in Hd. apply elem_of_cons in Hd as [|Hd];
          [by left | right]. rewrite omap_app in Hd.
        apply elem_of_app in Hd as [Hd|Hd]; [|done].
        fold (recvs mid) in Hd. rewrite Hrm in Hd. by apply elem_of_nil in Hd. }
      destruct Hd' as [->|Hd']; [by apply Hk, Hdata | by apply Hm].
  - intros d Hd. by apply Hk, Hkeep.
Qed.

Ltac drain_base :=
  split; simpl; try done; try lia; try (by repeat constructor);
  try (by intros Hin%list_elem_of_singleton).

Lemma drain_spec (k total : nat) (s : state) (e : option error) (s' : state) :
  drain env k total s = (Ok e, s') -> exists new, drained k s new e s'.
Proof.
  revert total s. induction k as [|k IH]; intros total s Hd.
  - simpl in Hd. unfold Sync in Hd. injection Hd as <- <-.
    exists [EvSync (Nodes (cfg s))]. drain_base.
  - rewrite drain_S in Hd. destruct (select env (tr s)) as [data| |] eqn:Hsel.
    + destruct (err data) as [x|] eqn:Herr.
      { rewrite merge_error in Hd by (rewrite Herr; eauto).
        destruct (IH _ _ Hd) as (new & Hnew). exists (EvRecv data :: [] ++ new).
        eapply drained_recv; [|done| | |done]; simpl; try done.
        by rewrite Herr. }
      destruct (rejected_dec data (Nodes (cfg s))) as [Hrej|(mv & Hn & Hl)].
      { destruct (merge_rejected data total (snoc s (EvRecv data)) Herr Hrej)
          as (x & Hm & Hv). rewrite Hm in Hd. injection Hd as <- <-.
        exists [EvRecv data]. drain_base. }
      rewrite (merge_accepted data total (snoc s (EvRecv data)) mv Herr Hn Hl) in Hd.
      destruct (IH _ _ Hd) as (new & Hnew).
      set (s1 := merge_state data mv (snoc s (EvRecv data))) in *.
      exists (EvRecv data :: [EvSync (Nodes (cfg s1))] ++ new).
      eapply drained_recv; [| | | |done].
      * unfold s1, merge_state, snoc; simpl. by rewrite <- app_assoc.
      * repeat constructor. by eexists.
      * intros d Hd'. by apply (merged_keep data d mv (snoc s (EvRecv data))).
      * intros _. apply merged_merge_state.
    + unfold Sync, snoc in Hd; simpl in Hd. injection Hd as <- <-.
      exists [EvStopped; EvSync (Nodes (cfg s))]. drain_base.
      * by rewrite <- app_assoc.
      * intros Hns. destruct Hns. by left.
      * intros _. exists []. split_and!; try done.
        -- apply not_elem_of_nil.
        -- intros d Hd. by apply elem_of_nil in Hd.
    + done.
Qed.

(** Whether it returns or not, the drain loop only receives, sees the stop
    signal and syncs. *)
Lemma drain_events (k total : nat) (s : state) :
  exists new, tr (drain env k total s).2 = tr s ++ new /\ Forall draining new.
Proof.
  revert total s. induction k as [|k IH]; intros total s.
  - exists [EvSync (Nodes (cfg s))]. simpl. split; [done | by repeat constructor].
  - rewrite drain_S. destruct (select env (tr s)) as [data| |] eqn:Hsel.
    + destruct (err data) as [x|] eqn:Herr.
      { rewrite merge_error by (rewrite Herr; eauto).
        destruct (IH total (snoc s (EvRecv data))) as (new & -> & Hnew).
        exists (EvRecv data :: new). simpl. rewrite <- app_assoc.
        split; [done | by constructor]. }
      destruct (rejected_dec data (Nodes (cfg s))) as [Hrej|(mv & Hn & Hl)].
      { destruct (merge_rejected data total (snoc s (EvRecv data)) Herr Hrej)
          as (x & -> & Hv). exists [EvRecv data]. simpl.
        split; [done | by repeat constructor]. }
      rewrite (merge_accepted data total (snoc s (EvRecv data)) mv Herr Hn Hl).
      set (s1 := merge_state data mv (snoc s (EvRecv data))).
      destruct (IH (total + length (paths data)) s1) as (new & -> & Hnew).
      exists (EvRecv data :: EvSync (Nodes (cfg s1)) :: new). split.
      * unfold s1, merge_state, snoc; simpl. by rewrite <- !app_assoc.
      * by repeat constructor.
    + exists [EvStopped; EvSync (Nodes (cfg s))]. unfold Sync, snoc; simpl.
      rewrite <- app_assoc. split; [done | by repeat constructor].
    + exists []. simpl. by rewrite app_nil_r.
Qed.

(** *** The loops that start the goroutines *)

Lemma launch_group (logsDir name : string) (insts : list (string * Instance))
    (s : state) :
  foldM (fun (i : string * Instance) (_ : unit) =>
           emit (EvGo name i.1 logsDir (prefix i.1 i.2) i.2)) insts tt s =
  (Ok tt, {| cfg := cfg s; tr := tr s ++ (go logsDir name <$> insts) |}).
Proof.
  revert s. induction insts as [|i insts IH]; intros s; simpl.
  - rewrite app_nil_r. by destruct s.
  - unfold bind, emit at 1. rewrite IH. simpl. by rewrite <- app_assoc.
Qed.

Lemma spawned_go (logsDir name : string) (insts : list (string * Instance)) :
  spawned (go logsDir name <$> insts) =
  (fun i : string * Instance => target logsDir (name, i.1, i.2)) <$> insts.
Proof.
  induction insts as [|i insts IH]; [done |].
  change (target logsDir (name, i.1, i.2) :: spawned (go logsDir name <$> insts) =
          target logsDir (name, i.1, i.2) ::
            ((fun i : string * Instance => target logsDir (name, i.1, i.2)) <$> insts)).
  by rewrite IH.
Qed.

Lemma startGroup_spec (logsDir : string) (g : string * MNG) (waits : nat)
    (s : state) :
  startGroup env logsDir g waits s =
  (Ok (waits + size (Instances g.2)),
   {| cfg := cfg s;
      tr := tr s ++
            EvRangeInstances (rangeInstances env (tr s) (Instances g.2)) ::
            (go logsDir g.1 <$> rangeInstances env (tr s) (Instances g.2)) |}).
Proof.
  unfold startGroup, bind, RangeInstances. rewrite launch_group. simpl.
  by rewrite <- app_assoc.
Qed.

Lemma launch_groups (logsDir : string) (gs : list (string * MNG)) (waits : nat)
    (s : state) :
  exists new,
    foldM (startGroup env logsDir) gs waits s =
    (Ok (waits + sum_list_with (fun g : string * MNG => size (Instances g.2)) gs),
     {| cfg := cfg s; tr := tr s ++ new |}) /\
    Forall launching new /\
    spawned new ≡ₚ
      target logsDir <$>
        (g ← gs; (fun i : string * Instance => (g.1, i.1, i.2)) <$>
                   map_to_list (Instances g.2)).
Proof.
  revert waits s. induction gs as [|g gs IH]; intros waits s.
  - exists []. simpl. rewrite app_nil_r, Nat.add_0_r. by destruct s.
  - cbn [foldM]. unfold bind. rewrite startGroup_spec.
    set (insts := rangeInstances env (tr s) (Instances g.2)).
    set (s1 := {| cfg := _; tr := _ |}).
    destruct (IH (waits + size (Instances g.2)) s1) as (new & -> & Hl & Hsp).
    exists (EvRangeInstances insts :: (go logsDir g.1 <$> insts) ++ new).
    split_and!.
    + simpl. f_equal; [f_equal; lia |]. f_equal.
      unfold s1; simpl. by rewrite <- !app_assoc.
    + constructor; [done |]. apply Forall_app; split; [|done].
      apply Forall_fmap, Forall_forall. by intros i _.
    + change (spawned (EvRangeInstances insts :: (go logsDir g.1 <$> insts) ++ new))
        with (spawned ((go logsDir g.1 <$> insts) ++ new)).
      unfold spawned at 1. rewrite omap_app. fold (spawned new).
      fold (spawned (go logsDir g.1 <$> insts)).
      rewrite spawned_go, Hsp, bind_cons, fmap_app. f_equiv.
      rewrite <- list_fmap_compose.
      unfold insts. by rewrite (rangeInstances_perm env).
Qed.

Lemma launch_spec (logsDir : string) (s : state) :
  exists new,
    launch env logsDir s =
      (Ok (expected (Nodes (cfg s))), {| cfg := cfg s; tr := tr s ++ new |}) /\
    Forall launching new /\
    spawned new ≡ₚ target logsDir <$> membership (Nodes (cfg s)).
Proof.
  unfold launch, bind, getCfg, RangeNodes.
  set (gs := rangeNodes env (tr s) (Nodes (cfg s))).
  set (s1 := {| cfg := _; tr := _ |}).
  destruct (launch_groups logsDir gs 0 s1) as (new & -> & Hl & Hsp).
  exists (EvRangeNodes gs :: new). split_and!.
  - simpl. f_equal.
    + f_equal. unfold expected, gs. by rewrite (rangeNodes_perm env).
    + unfold s1; simpl. by rewrite <- app_assoc.
  - by constructor.
  - change (spawned (EvRangeNodes gs :: new)) with (spawned new).
    rewrite Hsp. unfold membership, gs. by rewrite (rangeNodes_perm env).
Qed.

(** *** [fetchLogs] and [FetchLogs] *)

Lemma fetchLogs_events (qps burst : nat) (s : state) :
  exists new, tr (fetchLogs env qps burst s).2 = tr s ++ new /\
              Forall collecting new.
Proof.
  unfold fetchLogs, bind, getCfg, TempDir.
  destruct (tempDir env (tr s)) as [logsDir|msg].
  2:{ exists [EvTempDir (LogDir (cfg s)) (Name (cfg s) +:+ "-mng-logs")].
      split; [done | by repeat constructor]. }
  unfold emit at 1. cbn [cfg tr].
  set (s1 := {| cfg := cfg s; tr := _ |}).
  destruct (launch_spec logsDir s1) as (lnew & -> & Hl & _).
  set (s2 := {| cfg := cfg s1; tr := tr s1 ++ lnew |}).
  destruct (drain_events (expected (Nodes (cfg s1))) 0 s2) as (dnew & -> & Hd).
  eexists. split.
  - unfold s2, s1; simpl. rewrite <- !app_assoc. reflexivity.
  - simpl. repeat constructor. apply Forall_app; split.
    + eapply Forall_impl; [exact Hl |]. by intros [].
    + eapply Forall_impl; [exact Hd |]. by intros [].
Qed.

End Facts.
End OrchestratorFacts.

(** * The properties of the specification *)

Import GoStr Collector Orchestrator.
Import ShortenSpec PrefixSpec CollectorSpec OrchestratorSpec Examples.
Import ShortenFacts PrefixFacts CollectorFacts OrchestratorFacts.

(** ** C1 *)

(** C1: a drained record without error makes the run fail with a hard
    error exactly when its group is not in the fleet status or its instance
    is already recorded under that group; the fleet status is then left as
    it is (nothing overwritten, nothing inserted, no sync), and the drain
    loop returns that error at once. *)
Theorem merge_rejects_iff (env : Orchestrator.Env) (data : instanceLogs)
    (total : nat) (s : state) :
  err data = None ->
  ((exists e, (merge env data total s).1 = Ok (inl e)) <->
   rejected data (Nodes (cfg s))) /\
  (rejected data (Nodes (cfg s)) ->
   (merge env data total s).2 = s /\
   forall k, select env (tr s) = Data data ->
     exists e, violation (Some e) /\
       drain env (S k) total s = (Ok (Some e), snoc s (EvRecv data))).
Proof.
  intros Herr. split; [split |].
  - intros [e He].
    destruct (rejected_dec data (Nodes (cfg s))) as [|(mv & Hn & Hl)]; [done |].
    by rewrite (merge_accepted env data total s mv Herr Hn Hl) in He.
  - intros Hrej. destruct (merge_rejected env data total s Herr Hrej)
      as (e & -> & _). by exists e.
  - intros Hrej. split.
    + by destruct (merge_rejected env data total s Herr Hrej) as (e & -> & _).
    + intros k Hsel. rewrite drain_S, Hsel.
      destruct (merge_rejected env data total (snoc s (EvRecv data)) Herr Hrej)
        as (e & -> & Hv). by exists e.
Qed.

Lemma merge_rejects_iff_witness :
  rejected (success "g1" "i-1") (fleet (Some {["i-1" := ["old"]]})) /\
  (merge again (success "g1" "i-1") 0 (start true (Some {["i-1" := ["old"]]}))).2
  = start true (Some {["i-1" := ["old"]]}).
Proof.
  assert (H : rejected (success "g1" "i-1") (fleet (Some {["i-1" := ["old"]]}))).
  { right. eexists. split; [reflexivity |]. by eexists. }
  split; [exact H |].
  apply (merge_rejects_iff again (success "g1" "i-1") 0
           (start true (Some {["i-1" := ["old"]]})) eq_refl), H.
Defined.

(** ** C5 *)

(** C5: a drained record that carries an error leaves the fleet status and
    the trace as they are (no update, no sync), and the drain loop goes on:
    what the run returns is what the rest of the loop returns. *)
Theorem error_record_skipped (env : Orchestrator.Env) (data : instanceLogs)
    (total k : nat) (s : state) :
  is_Some (err data) ->
  merge env data total s = (Ok (inr total), s) /\
  (select env (tr s) = Data data ->
   drain env (S k) total s = drain env k total (snoc s (EvRecv data))).
Proof.
  intros Herr. split; [by apply merge_error |].
  intros Hsel. by rewrite drain_S, Hsel, merge_error.
Qed.

Lemma error_record_skipped_witness :
  merge (world (fun _ => Data broken)) broken 0 (start true None)
  = (Ok (inr 0), start true None).
Proof.
  apply (error_record_skipped (world (fun _ => Data broken)) broken 0 0
           (start true None)).
  by eexists.
Defined.

(** ** C4 *)

(** C4, as the code has it: the launch counts the sum over all groups of
    the number of instances in each group, and a drain loop that returns
    without having seen the stop signal and without a hard error has
    consumed exactly that many records; if the stop signal comes while it
    waits, the run returns what the sync of the fleet status returns, no
    error of its own, and every record merged before is in the fleet status
    that is synced. *)
Theorem drain_consumes_expected (env : Orchestrator.Env) (logsDir : string)
    (s : state) :
  (launch env logsDir s).1 = Ok (expected (Nodes (cfg s))) /\
  cfg (launch env logsDir s).2 = cfg s /\
  forall total e s',
    drain env (expected (Nodes (cfg s))) total (launch env logsDir s).2
      = (Ok e, s') ->
    exists new,
      tr s' = tr (launch env logsDir s).2 ++ new /\
      length (recvs new) <= expected (Nodes (cfg s)) /\
      (EvStopped ∉ new -> ~ violation e ->
       length (recvs new) = expected (Nodes (cfg s))) /\
      (EvStopped ∈ new ->
       exists pre,
         new = pre ++ [EvStopped; EvSync (Nodes (cfg s'))] /\
         e = (ErrExternal <$>
                sync env (tr (launch env logsDir s).2 ++ pre ++ [EvStopped])
                  (Nodes (cfg s'))) /\
         forall data, data ∈ recvs pre -> err data = None ->
                      merged data (Nodes (cfg s'))).
Proof.
  destruct (launch_spec env logsDir s) as (lnew & -> & _).
  split; [done |]. split; [done |]. cbn [snd].
  intros total e s' Hd. destruct (drain_spec env _ _ _ _ _ Hd) as (new & Hnew).
  destruct Hnew as [Ht Hev Hc Hall Hstop Hk].
  exists new. split_and!; [done..|].
  intros Hin. destruct (Hstop Hin) as (pre & -> & _ & -> & Hm). by exists pre.
Qed.

Lemma drain_consumes_expected_witness :
  exists e s' new,
    drain interrupted 3 0 (launch interrupted "/tmp/logs/r" (start true None)).2
      = (Ok e, s') /\
    tr s' = tr (launch interrupted "/tmp/logs/r" (start true None)).2 ++ new /\
    length (recvs new) <= 3.
Proof.
  destruct (drain_consumes_expected interrupted "/tmp/logs/r" (start true None))
    as (_ & _ & H).
  edestruct (H 0) as (new & Ht & Hc & _); [vm_compute; reflexivity |].
  eexists _, _, new. split; [vm_compute; reflexivity |]. split; [exact Ht | exact Hc].
Defined.

(** C4 as the specification states it fails: no stop signal ever comes, the
    fleet has three instances, and the drain loop returns after one record,
    because ["i-1"] is already recorded (as an earlier run leaves it). *)
Lemma drain_stops_at_hard_error :
  (forall t, select again t <> Stopped) /\
  expected (Nodes (cfg (start true (Some {["i-1" := ["old"]]})))) = 3 /\
  exists s',
    fetchLogs again 150 10 (start true (Some {["i-1" := ["old"]]}))
      = (Ok (Some (ErrRedundant "g1" "i-1")), s') /\
    length (recvs (tr s')) = 1.
Proof.
  split; [done |]. split; [by vm_compute |].
  eexists. split; [vm_compute; reflexivity | by vm_compute].
Qed.

(** ** C10 *)

(** C10: with the add-on disabled [FetchLogs] returns an error and does
    nothing else (no directory, no lock, no goroutine, no change of the
    fleet status); with the add-on enabled it first creates the log
    directory with mode 0700, returns the error if that fails, and otherwise
    takes the lock, runs [fetchLogs] (which does not touch the lock) and
    releases the lock when [fetchLogs] returns. *)
Theorem FetchLogs_guard_and_lock (env : Orchestrator.Env) (s : state) :
  (Enable (cfg s) = false ->
   FetchLogs env s = (Ok (Some (ErrDisabled false)), s)) /\
  (Enable (cfg s) = true ->
   let s1 := snoc s (EvMkdirAll (LogDir (cfg s)) mode0700) in
   match mkdirAll env (tr s) with
   | Some msg => FetchLogs env s = (Ok (Some (ErrExternal msg)), s1)
   | None =>
       let run := fetchLogs env 150 10 (snoc s1 EvLock) in
       (exists body, tr run.2 = tr s1 ++ EvLock :: body /\
                     Forall collecting body) /\
       FetchLogs env s =
         match run.1 with
         | Ok e => (Ok e, snoc run.2 EvUnlock)
         | Exit x => (Exit x, run.2)
         end
   end).
Proof.
  split; intros Hen; unfold FetchLogs, bind, getCfg; rewrite Hen;
    cbn [negb]; [done |].
  cbn zeta. unfold MkdirAll.
  destruct (mkdirAll env (tr s)) as [msg|]; [done |].
  unfold emit at 1. cbn [fmap option_fmap option_map].
  fold (snoc s (EvMkdirAll (LogDir (cfg s)) mode0700)).
  fold (snoc (snoc s (EvMkdirAll (LogDir (cfg s)) mode0700)) EvLock).
  set (s2 := snoc (snoc s _) EvLock). split.
  - destruct (fetchLogs_events env 150 10 s2) as (body & -> & Hb).
    exists body. split; [|done]. unfold s2, snoc; simpl.
    by rewrite <- !app_assoc.
  - unfold defer. by destruct (fetchLogs env 150 10 s2) as [[e|x] s3].
Qed.

Lemma FetchLogs_guard_and_lock_witness :
  FetchLogs again (start false None)
    = (Ok (Some (ErrDisabled false)), start false None) /\
  exists body,
    tr (fetchLogs again 150 10
          (snoc (snoc (start true None) (EvMkdirAll "/tmp/logs" mode0700)) EvLock)).2
    = [EvMkdirAll "/tmp/logs" mode0700] ++ EvLock :: body /\
    Forall collecting body.
Proof.
  split.
  - apply (FetchLogs_guard_and_lock again (start false None)). reflexivity.
  - apply (proj2 (FetchLogs_guard_and_lock again (start true None)) eq_refl).
Defined.

(** ** C6 *)

(** C6, as the code has it: [fetchLogs] starts one goroutine for every
    instance of the fleet, in the iteration of its group and with its ID; a
    goroutine that finds the stop signal not yet given sends exactly one
    record, which carries the group name that the goroutine reads from
    [name], and carries the instance ID when it is a success or the failure
    of a command or of a file; a goroutine that finds the stop signal given
    sends nothing. *)
Theorem one_record_per_goroutine (oenv : Orchestrator.Env) (env : Collector.Env)
    (logsDir : string) (s : state) (commandToFileName : gmap string string) :
  (exists new,
     tr (launch oenv logsDir s).2 = tr s ++ new /\
     spawned new ≡ₚ target logsDir <$> membership (Nodes (cfg s))) /\
  (forall name instID pfx iv,
     exists out t,
       goroutine env name instID logsDir pfx iv commandToFileName [] = (Exit out, t) /\
       sends t = option_list out /\
       match out with
       | None => stopc env [] = true
       | Some rec =>
           stopc env [] = false /\ mngName rec = name /\
           ((forall msg, err rec <> Some (ErrExternal msg)) ->
            instanceID rec = instID)
       end).
Proof.
  split.
  - destruct (launch_spec oenv logsDir s) as (new & -> & _ & Hsp). by exists new.
  - intros name instID pfx iv.
    assert (H0 : inv env logsDir pfx Idle []) by done.
    pose proof (goroutine_spec env name instID logsDir pfx iv commandToFileName
                  [] H0 (clean_nil env)) as H.
    unfold wp in H.
    destruct (goroutine env name instID logsDir pfx iv commandToFileName [])
      as [[u|[rec|]] t]; simpl in H; [done | |].
    + destruct H as (Hstop & Hs & Hrec). exists (Some rec), t.
      split; [done |]. split; [by destruct Hs |]. split; [done |].
      destruct Hrec as [Hd|[(e & ->)|(msg & ->)]].
      * by destruct Hd.
      * done.
      * split; [done |]. intros Hne. by destruct (Hne msg).
    + destruct H as [Hstop ->]. by exists None, [EvStopc true].
Qed.

Lemma one_record_per_goroutine_witness :
  exists rec t,
    goroutine (remote false None noENI) "g1" "i-1" "/tmp/logs/r"
      (prefix "i-1" i1) i1 logCmds [] = (Exit (Some rec), t) /\
    sends t = [rec] /\ instanceID rec = "i-1".
Proof.
  destruct (proj2 (one_record_per_goroutine again (remote false None noENI)
                     "/tmp/logs/r" (start true None) logCmds)
              "g1" "i-1" (prefix "i-1" i1) i1)
    as (out & t & Hg & Hs & Hout).
  assert (Hc : exists rec, out = Some rec /\
                 forall msg, err rec <> Some (ErrExternal msg)).
  { vm_compute in Hg. injection Hg as <- <-. by eexists. }
  destruct Hc as (rec & -> & Hne). destruct Hout as (_ & _ & Hid).
  exists rec, t. split; [exact Hg |]. split; [exact Hs | exact (Hid Hne)].
Defined.

(** C6 as the specification states it fails: a goroutine that finds the
    stop signal given produces no record for its instance. *)
Lemma no_record_after_stop :
  sends (goroutine (remote true None healthy) "g1" "i-1" "/tmp/logs/r"
           (prefix "i-1" i1) i1 logCmds []).2 = [].
Proof. by vm_compute. Qed.

(** Where the session cannot be connected the record carries the group
    name, and an empty instance ID. *)
Lemma connect_failure_record :
  (goroutine (remote false (Some "timeout") healthy) "g1" "i-1" "/tmp/logs/r"
     (prefix "i-1" i1) i1 logCmds []).1
  = Exit (Some {| mngName := "g1"; instanceID := ""; paths := [];
                  err := Some (ErrExternal "timeout") |}).
Proof. by vm_compute. Qed.

(** ** C7 *)

(** C7: the record of a goroutine that carries an error carries no path;
    and whenever a call of the goroutine (opening or connecting the session,
    running a command, creating or writing a file) has failed, at whatever
    stage, the goroutine does nothing more than send its record and close
    the file and the session, and the record carries an error, hence no
    path, whatever files were written before. *)
Theorem error_record_has_no_paths (env : Collector.Env)
    (name instID logsDir pfx : string) (iv : Instance)
    (commandToFileName : gmap string string) :
  exists out t,
    goroutine env name instID logsDir pfx iv commandToFileName [] = (Exit out, t) /\
    forall rec, out = Some rec ->
      (is_Some (err rec) -> paths rec = []) /\
      (forall pre e post, t = pre ++ e :: post -> ~ answer_ok env pre e ->
         is_Some (err rec) /\ paths rec = [] /\ Forall closing post).
Proof.
  assert (H0 : inv env logsDir pfx Idle []) by done.
  pose proof (goroutine_spec env name instID logsDir pfx iv commandToFileName
                [] H0 (clean_nil env)) as H.
  unfold wp in H.
  destruct (goroutine env name instID logsDir pfx iv commandToFileName [])
    as [[u|out] t]; simpl in H; [done |].
  exists out, t. split; [done |]. intros rec ->.
  destruct H as (Hstop & Hs & Hrec).
  assert (Hp : is_Some (err rec) -> paths rec = []).
  { destruct Hrec as [Hd|[(e & ->)|(msg & ->)]]; [|done..].
    destruct Hd as [_ _ He _]. rewrite He. by intros [? ?]. }
  split; [done |]. intros pre e post -> Hbad.
  assert (He : is_Some (err rec)).
  { destruct (err rec) as [x|] eqn:Hx; [by eexists |].
    destruct Hbad. by eapply (sent_clean _ _ _ _ _ Hs). }
  split_and!; [done | auto |]. by eapply (sent_abort _ _ _ _ _ Hs).
Qed.

Lemma error_record_has_no_paths_witness :
  exists rec t fpath,
    goroutine (remote false None noENI) "g1" "i-1" "/tmp/logs/r"
      (prefix "i-1" i1) i1 logCmds [] = (Exit (Some rec), t) /\
    EvCreate fpath ∈ t /\ is_Some (err rec) /\ paths rec = [].
Proof.
  destruct (error_record_has_no_paths (remote false None noENI) "g1" "i-1"
              "/tmp/logs/r" (prefix "i-1" i1) i1 logCmds)
    as (out & t & Hg & H).
  assert (Hc : exists rec fpath, out = Some rec /\ EvCreate fpath ∈ t /\
                                 is_Some (err rec)).
  { vm_compute in Hg. injection Hg as <- <-. eexists _, _.
    split; [reflexivity |]. split; [|by eexists].
    do 8 apply list_elem_of_further. apply list_elem_of_here. }
  destruct Hc as (rec & fpath & -> & Hin & He).
  exists rec, t, fpath. split; [exact Hg |]. split; [exact Hin |].
  split; [exact He |]. exact (proj1 (H rec eq_refl) He).
Defined.

(** ** C9 *)

(** C9: in the trace of a goroutine every command run on the session comes
    right after a probe of the limiter that was allowed, or right after the
    wait that follows a probe that was denied; and every denied probe is
    followed at once by the wait. *)
Theorem commands_are_gated (env : Collector.Env)
    (name instID logsDir pfx : string) (iv : Instance)
    (commandToFileName : gmap string string) :
  let t := (goroutine env name instID logsDir pfx iv commandToFileName []).2 in
  (forall pre cmd post, t = pre ++ EvRun cmd :: post ->
     (exists pre', pre = pre' ++ [EvAllow true]) \/
     (exists pre', pre = pre' ++ [EvAllow false; EvWait])) /\
  (forall pre post, t = pre ++ EvAllow false :: post ->
     exists post', post = EvWait :: post').
Proof.
  assert (H0 : inv env logsDir pfx Idle []) by done.
  pose proof (goroutine_spec env name instID logsDir pfx iv commandToFileName
                [] H0 (clean_nil env)) as H.
  unfold wp in H. cbn zeta.
  destruct (goroutine env name instID logsDir pfx iv commandToFileName [])
    as [[u|[rec|]] t]; simpl in *; [done | |].
  - destruct H as (_ & [Hg _ _ _] & _).
    destruct (grun_gated t) as [Hrun Hdeny]; [by rewrite Hg |].
    split; [done |]. intros pre post ->.
    destruct (Hdeny pre post eq_refl) as [->|]; [|done].
    rewrite grun_app in Hg. destruct (grun Idle pre) as [[]|]; done.
  - destruct H as [_ ->]. split.
    + intros [|? [|? ?]] cmd post Heq; simplify_eq.
    + intros [|? [|? ?]] post Heq; simplify_eq.
Qed.

Lemma commands_are_gated_witness :
  exists pre post,
    (goroutine (remote false None healthy) "g1" "i-1" "/tmp/logs/r"
       (prefix "i-1" i1) i1 logCmds []).2 = pre ++ EvRun listCmd :: post /\
    ((exists pre', pre = pre' ++ [EvAllow true]) \/
     (exists pre', pre = pre' ++ [EvAllow false; EvWait])).
Proof.
  assert (Hc : exists pre post,
    (goroutine (remote false None healthy) "g1" "i-1" "/tmp/logs/r"
       (prefix "i-1" i1) i1 logCmds []).2 = pre ++ EvRun listCmd :: post).
  { exists (firstn 7 (goroutine (remote false None healthy) "g1" "i-1" "/tmp/logs/r"
       (prefix "i-1" i1) i1 logCmds []).2),
      (skipn 8 (goroutine (remote false None healthy) "g1" "i-1" "/tmp/logs/r"
       (prefix "i-1" i1) i1 logCmds []).2).
    by vm_compute. }
  destruct Hc as (pre & post & Heq). exists pre, post. split; [exact Heq |].
  exact (proj1 (commands_are_gated (remote false None healthy) "g1" "i-1"
                  "/tmp/logs/r" (prefix "i-1" i1) i1 logCmds) pre listCmd post Heq).
Defined.

(** ** C3 *)

(** C3, as the code has it: [shorten] returns a name of fewer than 240
    bytes as it is; of a name of 240 bytes or more it returns the first 230
    bytes, then 5 bytes drawn from the digits and lower-case letters (235
    bytes in all), then the extension of the name: the result ends with that
    extension, and has it as its own extension when it is not empty. *)
Theorem shorten_keeps_or_truncates (env : Collector.Env) (name : string)
    (t : Collector.trace) :
  (len name < 240 -> shorten env name t = (Ok name, t)) /\
  (240 <= len name ->
   exists sfx t',
     shorten env name t = (Ok (take 230 name +:+ sfx +:+ Ext name), t') /\
     len sfx = 5 /\ allChars lowerAlnum sfx = true /\
     len (take 230 name +:+ sfx) = 235 /\
     HasSuffix (take 230 name +:+ sfx +:+ Ext name) (Ext name) /\
     (Ext name <> "" -> Ext (take 230 name +:+ sfx +:+ Ext name) = Ext name)).
Proof.
  split; [apply shorten_short |]. intros Hlen.
  destruct (shorten_long env name t Hlen) as (sfx & new & -> & Hs & Ha & _).
  exists sfx, (t ++ new). split_and!; [done..| | |].
  - rewrite len_app, len_take, Hs; lia.
  - exists (take 230 name +:+ sfx). by rewrite sapp_assoc.
  - intros Hne. rewrite <- sapp_assoc. by apply Ext_app.
Qed.

Lemma shorten_keeps_or_truncates_witness :
  shorten (remote false None healthy) "i-1-54123us-kernel.out.log" []
    = (Ok "i-1-54123us-kernel.out.log", []) /\
  exists sfx t',
    shorten (remote false None healthy) (fill "a" 250 +:+ ".log") []
      = (Ok (fill "a" 230 +:+ sfx +:+ ".log"), t') /\ len sfx = 5.
Proof.
  split.
  - apply (shorten_keeps_or_truncates (remote false None healthy)
             "i-1-54123us-kernel.out.log" []).
    vm_compute. lia.
  - destruct (proj2 (shorten_keeps_or_truncates (remote false None healthy)
                       (fill "a" 250 +:+ ".log") []))
      as (sfx & t' & Hs & Hl & _); [vm_compute; lia |].
    exists sfx, t'. split; [exact Hs | exact Hl].
Defined.

(** C3 as the specification states it fails: a name of exactly 240 bytes
    does not exceed the threshold, and is not returned as it is. *)
Lemma shorten_changes_240 :
  len (fill "a" 240) <= 240 /\
  forall env t, (shorten env (fill "a" 240) t).1 <> Ok (fill "a" 240).
Proof.
  split; [vm_compute; lia |]. intros env t.
  destruct (shorten_long env (fill "a" 240) t) as (sfx & new & -> & Hs & _);
    [vm_compute; lia |].
  simpl. intros [= H]. apply (f_equal len) in H.
  rewrite !len_app, Hs in H. vm_compute in H. lia.
Qed.

(** ** C2 *)

Lemma svcEntry_cases (line : string) :
  svcEntry line =
  if decide (5 <= length (Fields line) /\
             nth 1 (Fields line) "" <> "not-found" /\
             nth 2 (Fields line) "" <> "inactive")
  then Some ("sudo journalctl --no-pager --output=cat -u "
               +:+ nth 0 (Fields line) "",
             nth 0 (Fields line) "" +:+ ".out.log")
  else None.
Proof.
  unfold svcEntry. pose proof (Fields_nonempty line) as Hne.
  generalize dependent (Fields line). intros fields Hne.
  assert (He : 0 < length fields ->
               bool_decide (nth 0 fields "" = "") = false).
  { intros Hl. apply bool_decide_eq_false. destruct Hne; [simpl in Hl; lia | done]. }
  destruct (decide (5 <= length fields /\ nth 1 fields "" <> "not-found" /\
                    nth 2 fields "" <> "inactive")) as [(H5 & H1 & H2)|H].
  - rewrite He by lia.
    assert ((length fields =? 0) = false) as -> by (apply Nat.eqb_neq; lia).
    assert ((length fields <? 5) = false) as -> by (apply Nat.ltb_ge; lia).
    cbn [orb]. by rewrite !decide_False by done.
  - destruct (length fields =? 0); [done |].
    destruct (bool_decide (nth 0 fields "" = "")); [done |].
    destruct (length fields <? 5) eqn:Hlt; [done |]. cbn [orb].
    apply Nat.ltb_ge in Hlt.
    destruct (decide (nth 1 fields "" = "not-found")); [done |].
    destruct (decide (nth 2 fields "" = "inactive")); [done |].
    by destruct H.
Qed.

(** Two lines that give the same command give the same file name. *)
Lemma svcEntry_file (l1 l2 cmd f1 f2 : string) :
  svcEntry l1 = Some (cmd, f1) -> svcEntry l2 = Some (cmd, f2) -> f1 = f2.
Proof.
  rewrite !svcEntry_cases. do 2 case_decide; try done.
  intros [= <- <-] [= Heq <-]. by apply (inj _) in Heq as <-.
Qed.

Lemma svcCmdToFileName_lookup (out cmd file : string) :
  svcCmdToFileName out !! cmd = Some file <->
  exists line, line ∈ Split nl out /\ svcEntry line = Some (cmd, file).
Proof.
  unfold svcCmdToFileName. generalize (Split nl out). intros lines.
  induction lines as [|x lines IH] using rev_ind.
  - simpl. rewrite lookup_empty. split; [done |].
    intros (l & Hl & _). by apply elem_of_nil in Hl.
  - rewrite foldl_app. simpl. destruct (svcEntry x) as [[c f]|] eqn:Hx.
    + destruct (decide (c = cmd)) as [->|Hne].
      * rewrite lookup_insert_eq. split.
        -- intros [= <-]. exists x. split; [|done].
           apply elem_of_app. right. by left.
        -- intros (l & _ & Hl). f_equal. by eapply svcEntry_file.
      * rewrite lookup_insert_ne by done. rewrite IH. split.
        -- intros (l & Hl & He). exists l. split; [|done].
           apply elem_of_app. by left.
        -- intros (l & Hl & He). exists l. split; [|done].
           apply elem_of_app in Hl as [|Hl]; [done |].
           apply list_elem_of_singleton in Hl as ->. congruence.
    + rewrite IH. split.
      * intros (l & Hl & He). exists l. split; [|done].
        apply elem_of_app. by left.
      * intros (l & Hl & He). exists l. split; [|done].
        apply elem_of_app in Hl as [|Hl]; [done |].
        apply list_elem_of_singleton in Hl as ->. congruence.
Qed.

(** C2: a line of the unit listing is selected exactly when it has at least
    5 fields, its second field is not ["not-found"] and its third field is
    not ["inactive"]; the entry of a selected line is the journal command of
    its first field with the file name made of that field and [".out.log"];
    and the commands of the stage are the entries of the selected lines of
    the output, no more and no less. *)
Theorem service_filter (line out : string) :
  (forall entry,
     svcEntry line = Some entry <->
     5 <= length (Fields line) /\
     nth 1 (Fields line) "" <> "not-found" /\
     nth 2 (Fields line) "" <> "inactive" /\
     entry = ("sudo journalctl --no-pager --output=cat -u "
                +:+ nth 0 (Fields line) "",
              nth 0 (Fields line) "" +:+ ".out.log")) /\
  (forall cmd file,
     svcCmdToFileName out !! cmd = Some file <->
     exists l, l ∈ Split nl out /\ svcEntry l = Some (cmd, file)).
Proof.
  split; [|apply svcCmdToFileName_lookup].
  intros entry. rewrite svcEntry_cases. case_decide as H.
  - split; [intros [= <-]; by destruct H as (? & ? & ?) | by intros (_ & _ & _ & ->)].
  - split; [done |]. intros (? & ? & ? & _). by destruct H.
Qed.

Lemma service_filter_witness :
  svcEntry "auditd.service loaded active running Security Auditing Service"
  = Some ("sudo journalctl --no-pager --output=cat -u auditd.service",
          "auditd.service.out.log") /\
  svcEntry "auth-rpcgss-module.service loaded inactive dead Kernel Module" = None /\
  svcEntry "missing.service not-found inactive dead missing.service" = None /\
  svcEntry "short.service loaded active running" = None.
Proof.
  split; [|by vm_compute].
  apply (proj1 (service_filter
                  "auditd.service loaded active running Security Auditing Service" "")).
  vm_compute. repeat split; (lia || discriminate).
Defined.

(** ** C8 *)

(** C8: the prefix of an instance is its ID, a dash, the sanitized public
    DNS name and a dash, where the sanitized name is the DNS name lowercased,
    without its non-alphanumeric bytes, without the substrings ["ec2"],
    ["compute.amazonaws"] and ["amazonaws"], clipped to 7 bytes (at most 7
    digits and lower-case letters); and every file that the goroutine
    creates or writes, and every path of the record that it sends, is the
    run directory joined with what [shorten] makes of the prefix followed by
    a file name. *)
Theorem prefix_on_every_file (env : Collector.Env) (name instID logsDir : string)
    (iv : Instance) (commandToFileName : gmap string string) :
  prefix instID iv
    = instID +:+ "-" +:+ sanitize_spec (PublicDNSName iv) +:+ "-" /\
  len (sanitize_spec (PublicDNSName iv)) <= 7 /\
  allChars lowerAlnum (sanitize_spec (PublicDNSName iv)) = true /\
  exists out t,
    goroutine env name instID logsDir (prefix instID iv) iv commandToFileName []
      = (Exit out, t) /\
    (forall fpath, EvCreate fpath ∈ t ->
                   named env logsDir (prefix instID iv) fpath) /\
    (forall fpath o, EvWrite fpath o ∈ t ->
                     named env logsDir (prefix instID iv) fpath) /\
    (forall rec, out = Some rec ->
                 Forall (named env logsDir (prefix instID iv)) (paths rec)).
Proof.
  destruct (sanitize_facts (PublicDNSName iv)) as (Heq & Hlen & Hall).
  rewrite <- Heq. split; [done |]. split; [done |]. split; [done |].
  set (pfx := prefix instID iv).
  assert (H0 : inv env logsDir pfx Idle []) by done.
  pose proof (goroutine_spec env name instID logsDir pfx iv commandToFileName
                [] H0 (clean_nil env)) as H.
  unfold wp in H.
  destruct (goroutine env name instID logsDir pfx iv commandToFileName [])
    as [[u|[rec|]] t]; simpl in H; [done | |].
  - destruct H as (_ & [_ Hf _ _] & Hrec). exists (Some rec), t.
    rewrite Forall_forall in Hf. split_and!; [done | | |].
    + intros fpath Hin. apply (Hf _ Hin).
    + intros fpath o Hin. apply (Hf _ Hin).
    + intros ? [= <-]. destruct Hrec as [Hd|[(e & ->)|(msg & ->)]]; [|done..].
      by destruct Hd.
  - destruct H as [_ ->]. exists None, [EvStopc true]. split_and!; [done | | |done].
    + intros fpath Hin. apply list_elem_of_singleton in Hin. done.
    + intros fpath o Hin. apply list_elem_of_singleton in Hin. done.
Qed.

Lemma prefix_on_every_file_witness :
  prefix "i-1" i1 = "i-1-54123us-" /\
  exists rec t,
    goroutine (remote false None healthy) "g1" "i-1" "/tmp/logs/r"
      (prefix "i-1" i1) i1 logCmds [] = (Exit (Some rec), t) /\
    length (paths rec) = 6 /\
    Forall (named (remote false None healthy) "/tmp/logs/r" (prefix "i-1" i1))
           (paths rec).
Proof.
  split; [by vm_compute |].
  destruct (prefix_on_every_file (remote false None healthy) "g1" "i-1"
              "/tmp/logs/r" i1 logCmds)
    as (_ & _ & _ & out & t & Hg & _ & _ & Hrec).
  assert (Hc : exists rec, out = Some rec /\ length (paths rec) = 6).
  { vm_compute in Hg. injection Hg as <- <-. by eexists. }
  destruct Hc as (rec & -> & Hlen). exists rec, t.
  split; [exact Hg |]. split; [exact Hlen | exact (Hrec rec eq_refl)].
Defined.

(** * [DownloadClusterLogs] *)

Module DownloadFacts.
Import Collector Orchestrator Download DownloadSpec.

Section Facts.
Variable env : Env.
Variable configPath artifactDir : string.

Local Abbreviation wellAimed := (DownloadSpec.wellAimed env artifactDir).
Local Abbreviation allCopied := (DownloadSpec.allCopied env).
Local Abbreviation copyFailed := (DownloadSpec.copyFailed env artifactDir).
Local Abbreviation copied := (DownloadSpec.copied env artifactDir).
Local Abbreviation newPath := (Download.newPath env artifactDir).

Lemma sources_app (a b : trace) : sources (a ++ b) = sources a ++ sources b.
Proof. apply omap_app. Qed.

Lemma allCopied_snoc (o : Orchestrator.trace) (t : trace) (e : event) :
  allCopied o t ->
  match e with
  | EvCopy src dst => copyFile env o t src dst = None
  | _ => True
  end ->
  allCopied o (t ++ [e]).
Proof.
  intros Ht He pre src dst post Heq.
  destruct post as [|x post _] using rev_ind.
  - apply app_inj_tail in Heq as [-> ->]. done.
  - rewrite app_comm_cons, app_assoc in Heq.
    apply app_inj_tail in Heq as [-> _]. by eapply Ht.
Qed.

(** Nothing to copy. *)
Lemma copied_nil (s : state) :
  allCopied (tr (orch s)) (dtr s) -> copied s [] (Ok tt) s.
Proof.
  intros H. split; [done |]. exists []. by rewrite app_nil_r.
Qed.

(** Two loops one after the other. *)
Lemma copied_app (s s1 s2 : state) (a b : list string) (r : res leave unit) :
  copied s a (Ok tt) s1 -> copied s1 b r s2 -> copied s (a ++ b) r s2.
Proof.
  intros [Ho1 (n1 & Ht1 & Hw1 & Hc1 & Hs1)] [Ho2 (n2 & Ht2 & Hw2 & Hr)].
  split; [congruence |]. exists (n1 ++ n2). split_and!.
  - by rewrite Ht2, Ht1, <- app_assoc.
  - by apply Forall_app.
  - rewrite Ho1 in Hr. destruct r as [u|[|[e|]]]; try done.
    + destruct Hr as [Hc2 Hs2]. by rewrite sources_app, Hs1, Hs2.
    + destruct Hr as (new0 & src & rest & -> & Hc & Hf & ->).
      exists (n1 ++ new0), src, rest. rewrite Ht1 in Hc, Hf. split_and!.
      * by rewrite <- app_assoc.
      * by rewrite app_assoc.
      * by rewrite app_assoc.
      * by rewrite sources_app, Hs1, <- app_assoc.
Qed.

(** A [range] before a loop. *)
Lemma copied_range (s s2 : state) (e : event) (srcs : list string)
    (r : res leave unit) :
  wellAimed e -> sources [e] = [] ->
  copied {| orch := orch s; dtr := dtr s ++ [e] |} srcs r s2 ->
  copied s srcs r s2.
Proof.
  intros He Hs [Ho (n & Ht & Hw & Hr)]. cbn [orch dtr] in *.
  split; [done |]. exists (e :: n). split_and!.
  - by rewrite Ht, <- app_assoc.
  - by constructor.
  - destruct r as [u|[|[x|]]]; try done.
    + destruct Hr as [Hc <-]. split; [done |].
      change (e :: n) with ([e] ++ n). by rewrite sources_app, Hs.
    + destruct Hr as (new0 & src & rest & -> & Hc & Hf & ->).
      exists (e :: new0), src, rest.
      rewrite <- app_assoc in Hc, Hf. split_and!; try done.
      change (e :: new0) with ([e] ++ new0). by rewrite sources_app, Hs.
Qed.

Lemma copyPaths_cons (fpath : string) (fpaths : list string) (s : state) :
  copyPaths env artifactDir (fpath :: fpaths) s =
  let s1 := {| orch := orch s; dtr := dtr s ++ [EvCopy fpath (newPath fpath)] |} in
  match copyFile env (tr (orch s)) (dtr s) fpath (newPath fpath) with
  | Some msg => (Exit (Return (Some (ErrExternal msg))), s1)
  | None => copyPaths env artifactDir fpaths s1
  end.
Proof.
  unfold copyPaths. cbn [foldM]. unfold bind at 1. unfold bind at 1.
  unfold Copy at 1.
  by destruct (copyFile env (tr (orch s)) (dtr s) fpath (newPath fpath)).
Qed.

Lemma copyLogs_cons (l : string * list string)
    (logs : list (string * list string)) (s : state) :
  copyLogs env artifactDir (l :: logs) s =
  match copyPaths env artifactDir l.2 s with
  | (Ok _, s1) => copyLogs env artifactDir logs s1
  | (Exit x, s1) => (Exit x, s1)
  end.
Proof.
  unfold copyLogs. cbn [foldM]. unfold bind at 1.
  by destruct (copyPaths env artifactDir l.2 s) as [[[]|x] s1].
Qed.

Lemma copyGroups_cons (g : string * MNG) (groups : list (string * MNG))
    (s : state) :
  copyGroups env artifactDir (g :: groups) s =
  let logs := rangeLogs env (dtr s) (logsOf g.2) in
  match copyLogs env artifactDir logs
          {| orch := orch s; dtr := dtr s ++ [EvRangeLogs logs] |} with
  | (Ok _, s1) => copyGroups env artifactDir groups s1
  | (Exit x, s1) => (Exit x, s1)
  end.
Proof.
  unfold copyGroups. cbn [foldM]. unfold bind at 1. unfold bind at 1.
  unfold RangeLogs at 1. cbn zeta.
  by destruct (copyLogs env artifactDir _ _) as [[[]|x] s1].
Qed.

Lemma copyPaths_spec (fpaths : list string) (s : state) :
  allCopied (tr (orch s)) (dtr s) ->
  copied s fpaths (copyPaths env artifactDir fpaths s).1
                  (copyPaths env artifactDir fpaths s).2.
Proof.
  revert s. induction fpaths as [|fpath fpaths IH]; intros s Hs.
  - by apply copied_nil.
  - rewrite copyPaths_cons. cbn zeta.
    destruct (copyFile env (tr (orch s)) (dtr s) fpath (newPath fpath))
      as [msg|] eqn:Hc; cbn [fst snd].
    + split; [done |]. eexists. split; [reflexivity |].
      split; [by repeat constructor |].
      exists [], fpath, fpaths. rewrite app_nil_r. split_and!; try done.
      by exists msg.
    + set (s1 := {| orch := orch s; dtr := dtr s ++ [EvCopy fpath (newPath fpath)] |}).
      assert (H1 : copied s [fpath] (Ok tt) s1).
      { split; [done |]. eexists. split; [reflexivity |].
        split; [by repeat constructor |]. split; [|done].
        by apply allCopied_snoc. }
      apply (copied_app s s1 _ [fpath] fpaths); [done |].
      apply IH. by destruct H1 as [_ (n & _ & _ & ? & _)].
Qed.

Lemma copied_fail_more (s s1 : state) (a b : list string) (x : leave) :
  copied s a (Exit x) s1 -> copied s (a ++ b) (Exit x) s1.
Proof.
  intros [Ho (n & Ht & Hw & Hr)]. split; [done |].
  exists n. split; [done |]. split; [done |].
  destruct x as [|[e|]]; try done.
  destruct Hr as (new0 & src & rest & -> & Hc & Hf & ->).
  exists new0, src, (rest ++ b). split_and!; try done.
  by rewrite <- app_assoc.
Qed.

Lemma copied_ok (s s1 : state) (a : list string) (u : unit) :
  copied s a (Ok u) s1 -> allCopied (tr (orch s1)) (dtr s1).
Proof. intros [Ho (n & _ & _ & Hc & _)]. by rewrite Ho. Qed.

Lemma copyLogs_spec (logs : list (string * list string)) (s : state) :
  allCopied (tr (orch s)) (dtr s) ->
  copied s (l ← logs; l.2) (copyLogs env artifactDir logs s).1
                           (copyLogs env artifactDir logs s).2.
Proof.
  revert s. induction logs as [|l logs IH]; intros s Hs.
  - by apply copied_nil.
  - rewrite copyLogs_cons, bind_cons.
    pose proof (copyPaths_spec l.2 s Hs) as H1.
    destruct (copyPaths env artifactDir l.2 s) as [[[]|x] s1]; cbn [fst snd] in *.
    + apply (copied_app s s1); [done |]. apply IH. by eapply copied_ok.
    + by apply copied_fail_more.
Qed.

Lemma copyGroups_spec (groups : list (string * MNG)) (s : state) :
  allCopied (tr (orch s)) (dtr s) ->
  exists srcs,
    srcs ≡ₚ (g ← groups; l ← map_to_list (logsOf g.2); l.2) /\
    copied s srcs (copyGroups env artifactDir groups s).1
                  (copyGroups env artifactDir groups s).2.
Proof.
  revert s. induction groups as [|g groups IH]; intros s Hs.
  - exists []. split; [done |]. by apply copied_nil.
  - rewrite copyGroups_cons. cbn zeta.
    set (logs := rangeLogs env (dtr s) (logsOf g.2)).
    set (s0 := {| orch := orch s; dtr := dtr s ++ [EvRangeLogs logs] |}).
    assert (Hs0 : allCopied (tr (orch s0)) (dtr s0)) by by apply allCopied_snoc.
    assert (Hp : (l ← logs; l.2) ≡ₚ (l ← map_to_list (logsOf g.2); l.2)).
    { unfold logs. by rewrite (rangeLogs_perm env). }
    pose proof (copyLogs_spec logs s0 Hs0) as H1.
    destruct (copyLogs env artifactDir logs s0) as [[[]|x] s1]; cbn [fst snd] in *.
    + destruct (IH s1 (copied_ok _ _ _ _ H1)) as (srcs & Hperm & H2).
      exists ((l ← logs; l.2) ++ srcs). split.
      * rewrite bind_cons. by rewrite Hp, Hperm.
      * apply (copied_range s _ (EvRangeLogs logs)); [done..|].
        by apply (copied_app s0 s1).
    + exists ((l ← logs; l.2) ++ (g' ← groups; l ← map_to_list (logsOf g'.2); l.2)).
      split; [rewrite bind_cons; by rewrite Hp |].
      apply (copied_range s _ (EvRangeLogs logs)); [done..|].
      by apply copied_fail_more.
Qed.

Lemma copyAll_eq (s : state) :
  copyAll env configPath artifactDir s =
  let groups := rangeGroups env (dtr s) (Nodes (cfg (orch s))) in
  match copyGroups env artifactDir groups
          {| orch := orch s; dtr := dtr s ++ [EvRangeGroups groups] |} with
  | (Ok _, s1) => Copy env configPath (newPath configPath) s1
  | (Exit x, s1) => (Exit x, s1)
  end.
Proof.
  unfold copyAll. unfold bind at 1. unfold RangeGroups at 1. cbn zeta.
  unfold bind at 1.
  by destruct (copyGroups env artifactDir _ _) as [[[]|x] s1].
Qed.

(** What the loops and the last copy have done: every recorded path and
    then the configuration file is copied, up to the first copy that
    fails. *)
Lemma copyAll_spec (s : state) :
  allCopied (tr (orch s)) (dtr s) ->
  orch (copyAll env configPath artifactDir s).2 = orch s /\
  exists new l,
    dtr (copyAll env configPath artifactDir s).2 = dtr s ++ new /\
    Forall wellAimed new /\
    l ≡ₚ allPaths (Nodes (cfg (orch s))) /\
    match (copyAll env configPath artifactDir s).1 with
    | Ok None =>
        allCopied (tr (orch s)) (dtr s ++ new) /\
        sources new = l ++ [configPath]
    | Ok (Some e) | Exit (Return (Some e)) =>
        exists new0 src rest,
          new = new0 ++ [EvCopy src (newPath src)] /\
          allCopied (tr (orch s)) (dtr s ++ new0) /\
          copyFailed (tr (orch s)) (dtr s ++ new0) src e /\
          l ++ [configPath] = sources new0 ++ src :: rest
    | _ => False
    end.
Proof.
  intros Hs. rewrite copyAll_eq. cbn zeta.
  set (groups := rangeGroups env (dtr s) (Nodes (cfg (orch s)))).
  set (s0 := {| orch := orch s; dtr := dtr s ++ [EvRangeGroups groups] |}).
  assert (Hs0 : allCopied (tr (orch s0)) (dtr s0)) by by apply allCopied_snoc.
  destruct (copyGroups_spec groups s0 Hs0) as (l & Hl & Hc).
  assert (Hperm : l ≡ₚ allPaths (Nodes (cfg (orch s)))).
  { rewrite Hl. unfold allPaths, groups. by rewrite (rangeGroups_perm env). }
  apply (copied_range s _ (EvRangeGroups groups)) in Hc; [|done..].
  destruct (copyGroups env artifactDir groups s0) as [[[]|x] s1];
    cbn [fst snd] in Hc.
  - destruct Hc as [Ho (n & Ht & Hw & Hc & Hsrc)].
    unfold Copy. cbn [fst snd orch dtr]. split; [done |].
    exists (n ++ [EvCopy configPath (newPath configPath)]), l.
    rewrite Ho, Ht, <- app_assoc. split; [done |].
    split; [apply Forall_app; split; [done | by repeat constructor] |].
    split; [done |]. rewrite Ht in Hc.
    destruct (copyFile env (tr (orch s)) (dtr s ++ n) configPath
                (newPath configPath)) as [msg|] eqn:Hcp;
      cbn [fmap option_fmap option_map].
    + exists n, configPath, []. split_and!; try done.
      * by exists msg.
      * by rewrite Hsrc.
    + split.
      * rewrite app_assoc. by apply allCopied_snoc.
      * by rewrite sources_app, Hsrc.
  - cbn [fst snd]. destruct Hc as [Ho (n & Ht & Hw & Hr)]. split; [done |].
    exists n, l. split_and!; try done.
    destruct x as [|[e|]]; try done.
    destruct Hr as (new0 & src & rest & -> & Hc & Hf & ->).
    exists new0, src, (rest ++ [configPath]). split_and!; try done.
    by rewrite <- app_assoc.
Qed.

Lemma allCopied_lock (o : Orchestrator.trace) : allCopied o [EvRLock].
Proof. intros [|? [|? ?]] ? ? ? ?; simplify_eq. Qed.

(** The function on a fresh trace, once [FetchLogs] has returned nil. *)
Lemma DownloadClusterLogs_eq (o o' : Orchestrator.state) :
  FetchLogs (fetchEnv env) o = (Ok None, o') ->
  let body := copyAll env configPath artifactDir
                {| orch := o'; dtr := [EvRLock] |} in
  exists e,
    match body.1 with Ok e' | Exit (Return e') => e' = e | _ => False end /\
    DownloadClusterLogs env configPath artifactDir {| orch := o; dtr := [] |}
    = (Ok e, {| orch := orch body.2; dtr := dtr body.2 ++ [EvRUnlock] |}).
Proof.
  intros Hf. cbn zeta.
  unfold DownloadClusterLogs, returns. unfold bind at 1. unfold runFetchLogs at 1.
  cbn [orch dtr]. rewrite Hf.
  unfold bind at 1. unfold emit at 1. cbn [orch dtr app]. unfold defer.
  pose proof (copyAll_spec {| orch := o'; dtr := [EvRLock] |}
                (allCopied_lock _)) as H.
  destruct (copyAll env configPath artifactDir _) as [[e|[|e]] s1];
    cbn [fst snd emit] in *.
  - by exists e.
  - by destruct H as (_ & new & l & _ & _ & _ & []).
  - by exists e.
Qed.

(** The function on a fresh trace, when [FetchLogs] has not returned nil. *)
Lemma DownloadClusterLogs_fail (o o' : Orchestrator.state)
    (r : res stuck (option error)) :
  FetchLogs (fetchEnv env) o = (r, o') -> r <> Ok None ->
  DownloadClusterLogs env configPath artifactDir {| orch := o; dtr := [] |}
  = (match r with Ok e => Ok e | Exit _ => Exit Stuck end,
     {| orch := o'; dtr := [] |}).
Proof.
  intros Hf Hr.
  unfold DownloadClusterLogs, returns. unfold bind at 1. unfold runFetchLogs at 1.
  cbn [orch dtr]. rewrite Hf. by destruct r as [[e|]|[]].
Qed.

End Facts.
End DownloadFacts.

(** * Further properties of the code *)

Import Download DownloadSpec DownloadFacts.

(** ** [DownloadClusterLogs] *)

(** X1: when [DownloadClusterLogs] returns nil, [FetchLogs] has returned
    nil, and between taking and releasing the read lock every path recorded
    in the fleet status that [FetchLogs] has left (each as often as it is
    recorded, in the order of the three [range]s) and then the configuration
    file has been copied, with success, to the artifact directory under the
    base name of the source. *)
Theorem download_copies_everything (env : Download.Env)
    (configPath artifactDir : string) (o : Orchestrator.state)
    (s' : Download.state) :
  DownloadClusterLogs env configPath artifactDir {| orch := o; dtr := [] |}
    = (Ok None, s') ->
  FetchLogs (fetchEnv env) o = (Ok None, orch s') /\
  exists mid l,
    dtr s' = EvRLock :: mid ++ [EvRUnlock] /\
    l ≡ₚ allPaths (Nodes (cfg (orch s'))) /\
    sources mid = l ++ [configPath] /\
    Forall (wellAimed env artifactDir) mid /\
    allCopied env (tr (orch s')) (EvRLock :: mid).
Proof.
  intros Hd.
  destruct (FetchLogs (fetchEnv env) o) as [r o'] eqn:Hf.
  destruct r as [[e0|]|[]].
  1,3: by rewrite (DownloadClusterLogs_fail env configPath artifactDir o o' _ Hf)
         in Hd.
  destruct (DownloadClusterLogs_eq env configPath artifactDir o o' Hf)
    as (e & He & Heq).
  rewrite Heq in Hd. injection Hd as -> <-. cbn [orch dtr].
  destruct (copyAll_spec env configPath artifactDir
              {| orch := o'; dtr := [EvRLock] |} (allCopied_lock env _))
    as (Ho & new & l & Ht & Hw & Hl & Hr).
  cbn [orch dtr] in *. rewrite Ho, Ht. split; [done |].
  exists new, l.
  destruct (copyAll env configPath artifactDir _).1 as [[e|]|[|[e|]]];
    try done; by destruct Hr.
Qed.

Lemma download_copies_everything_witness :
  exists s' mid l,
    DownloadClusterLogs (copier complete "none") "/etc/c.yaml" "/art"
      {| orch := start true None; dtr := [] |} = (Ok None, s') /\
    dtr s' = EvRLock :: mid ++ [EvRUnlock] /\
    sources mid = l ++ ["/etc/c.yaml"].
Proof.
  edestruct (download_copies_everything (copier complete "none") "/etc/c.yaml"
               "/art" (start true None))
    as (_ & mid & l & Hd & _ & Hs & _); [vm_compute; reflexivity |].
  eexists _, mid, l. split; [vm_compute; reflexivity |].
  split; [exact Hd | exact Hs].
Defined.

(** X2: when [FetchLogs] has returned nil and [DownloadClusterLogs] returns
    an error, the error is that of a copy, of a recorded path or of the
    configuration file, to the artifact directory; that copy is the first
    one to fail and the last one made, the copies made before it are a
    beginning of the recorded paths in the order of the [range]s, and the
    read lock is released after it. *)
Theorem download_stops_at_failed_copy (env : Download.Env)
    (configPath artifactDir : string) (o o' : Orchestrator.state) (e : error)
    (s' : Download.state) :
  FetchLogs (fetchEnv env) o = (Ok None, o') ->
  DownloadClusterLogs env configPath artifactDir {| orch := o; dtr := [] |}
    = (Ok (Some e), s') ->
  orch s' = o' /\
  exists mid src,
    dtr s' = EvRLock :: mid
               ++ [EvCopy src (newPath env artifactDir src); EvRUnlock] /\
    copyFailed env artifactDir (tr o') (EvRLock :: mid) src e /\
    allCopied env (tr o') (EvRLock :: mid) /\
    Forall (wellAimed env artifactDir) mid /\
    (src = configPath \/ src ∈ allPaths (Nodes (cfg o'))) /\
    exists l rest, l ≡ₚ allPaths (Nodes (cfg o')) /\
                   l ++ [configPath] = sources mid ++ src :: rest.
Proof.
  intros Hf Hd.
  destruct (DownloadClusterLogs_eq env configPath artifactDir o o' Hf)
    as (e' & He & Heq).
  rewrite Heq in Hd. injection Hd as -> <-. cbn [orch dtr].
  destruct (copyAll_spec env configPath artifactDir
              {| orch := o'; dtr := [EvRLock] |} (allCopied_lock env _))
    as (Ho & new & l & Ht & Hw & Hl & Hr).
  cbn [orch dtr] in *. rewrite Ho, Ht. split; [done |].
  assert (H : exists new0 src rest,
             new = new0 ++ [EvCopy src (newPath env artifactDir src)] /\
             allCopied env (tr o') ([EvRLock] ++ new0) /\
             copyFailed env artifactDir (tr o') ([EvRLock] ++ new0) src e /\
             l ++ [configPath] = sources new0 ++ src :: rest).
  { destruct (copyAll env configPath artifactDir _).1 as [[x|]|[|[x|]]];
      try done; by simplify_eq. }
  destruct H as (new0 & src & rest & -> & Hc & Hfail & Hsrc).
  exists new0, src. split_and!; try done.
  - cbn [app]. by rewrite <- app_assoc.
  - by apply Forall_app in Hw as [? _].
  - assert (Hin : src ∈ l ++ [configPath]).
    { rewrite Hsrc. apply elem_of_app. right. by left. }
    apply elem_of_app in Hin as [Hin|Hin].
    + right. by rewrite <- Hl.
    + left. by apply list_elem_of_singleton in Hin.
  - by exists l, rest.
Qed.

Lemma download_stops_at_failed_copy_witness :
  exists s' mid,
    DownloadClusterLogs (copier complete "/tmp/logs/r/i-2") "/etc/c.yaml" "/art"
      {| orch := start true None; dtr := [] |}
      = (Ok (Some (ErrExternal "no space left")), s') /\
    dtr s' = EvRLock :: mid ++ [EvCopy "/tmp/logs/r/i-2" "/art/i-2"; EvRUnlock].
Proof.
  edestruct (download_stops_at_failed_copy (copier complete "/tmp/logs/r/i-2")
               "/etc/c.yaml" "/art" (start true None))
    as (_ & mid & src & Hd & (msg & Hm & _) & _);
    [vm_compute; reflexivity | vm_compute; reflexivity |].
  assert (Hsrc : src = "/tmp/logs/r/i-2").
  { unfold copier, copyFile in Hm. by destruct (decide (src = _)). }
  subst src. eexists _, mid. split; [vm_compute; reflexivity | exact Hd].
Defined.

(** X3: [DownloadClusterLogs] takes the read lock only once [FetchLogs]
    has returned nil, and then releases it as its last action, whether or
    not a copy has failed; in between it does nothing but copy files to the
    artifact directory.  When [FetchLogs] returns an error it returns that
    error, and when [FetchLogs] does not return it does not return; in both
    cases it copies nothing. *)
Theorem download_lock_discipline (env : Download.Env)
    (configPath artifactDir : string) (o : Orchestrator.state) :
  let run := DownloadClusterLogs env configPath artifactDir
               {| orch := o; dtr := [] |} in
  let fetch := FetchLogs (fetchEnv env) o in
  match fetch.1 with
  | Ok None =>
      (exists e, run.1 = Ok e) /\
      exists mid, dtr run.2 = EvRLock :: mid ++ [EvRUnlock] /\
                  Forall (wellAimed env artifactDir) mid
  | Ok (Some e) => run = (Ok (Some e), {| orch := fetch.2; dtr := [] |})
  | Exit _ => run = (Exit Stuck, {| orch := fetch.2; dtr := [] |})
  end.
Proof.
  cbn zeta. destruct (FetchLogs (fetchEnv env) o) as [r o'] eqn:Hf.
  cbn [fst snd].
  destruct r as [[e0|]|[]].
  1,3: by rewrite (DownloadClusterLogs_fail env configPath artifactDir o o' _ Hf).
  destruct (DownloadClusterLogs_eq env configPath artifactDir o o' Hf)
    as (e & He & ->). cbn [fst snd dtr].
  split; [by exists e |].
  destruct (copyAll_spec env configPath artifactDir
              {| orch := o'; dtr := [EvRLock] |} (allCopied_lock env _))
    as (Ho & new & l & Ht & Hw & _).
  exists new. by rewrite Ht.
Qed.

(** ** The session and the files of a goroutine *)

Module ProtocolFacts.
Import GoStr Collector ShortenSpec CollectorSpec ProtocolSpec ShortenFacts.

(** A loop keeps an invariant that tells the turns taken so far. *)
Lemma wp_foldM_from {S E A B} (body : B -> A -> M S E A)
    (I : list B -> A -> S -> Prop) (X : E -> S -> Prop) (l : list B) :
  (forall x d a s, I d a s ->
     wp (body x a) (fun r s' => match r with
                                | Ok a' => I (d ++ [x]) a' s'
                                | Exit e => X e s'
                                end) s) ->
  forall d a s, I d a s ->
    wp (foldM body l a) (fun r s' => match r with
                                     | Ok a' => I (d ++ l) a' s'
                                     | Exit e => X e s'
                                     end) s.
Proof.
  intros Hbody. induction l as [|x l IH]; intros d a s HI.
  - unfold wp; simpl. by rewrite app_nil_r.
  - simpl. apply wp_bind. eapply wp_mono; [by apply Hbody |].
    intros [a'|e] s' H; [|done].
    replace (d ++ x :: l) with ((d ++ [x]) ++ l) by by rewrite <- app_assoc.
    by apply IH.
Qed.

Lemma run_app {St} (step : trace -> St -> event -> option St)
    (pre : trace) (st : St) (a b : trace) :
  run step pre st (a ++ b) =
  match run step pre st a with
  | Some st' => run step (pre ++ a) st' b
  | None => None
  end.
Proof.
  revert pre st. induction a as [|e a IH]; intros pre st; simpl.
  - by rewrite app_nil_r.
  - destruct (step pre st e) as [st'|]; [|done].
    rewrite IH. by rewrite <- app_assoc.
Qed.

Lemma run_snoc {St} (step : trace -> St -> event -> option St)
    (st0 st : St) (tr : trace) (e : event) :
  run step [] st0 tr = Some st -> run step [] st0 (tr ++ [e]) = step tr st e.
Proof. intros H. rewrite run_app, H. simpl. by destruct (step tr st e). Qed.

(** The state in which an event of an accepted trace is met. *)
Lemma run_split {St} (step : trace -> St -> event -> option St)
    (st0 st : St) (pre post : trace) (e : event) :
  run step [] st0 (pre ++ e :: post) = Some st ->
  exists st1 st2,
    run step [] st0 pre = Some st1 /\ step pre st1 e = Some st2 /\
    run step (pre ++ [e]) st2 post = Some st.
Proof.
  rewrite run_app. destruct (run step [] st0 pre) as [st1|]; [|done].
  simpl. destruct (step pre st1 e) as [st2|] eqn:He; [|done].
  intros H. by exists st1, st2.
Qed.

Lemma runs_app (a b : trace) : runs (a ++ b) = runs a ++ runs b.
Proof. apply omap_app. Qed.
Lemma creates_app (a b : trace) : creates (a ++ b) = creates a ++ creates b.
Proof. apply omap_app. Qed.
Lemma closes_app (a b : trace) : closes (a ++ b) = closes a ++ closes b.
Proof. apply omap_app. Qed.

Section Goroutine.
Variable env : Env.
Variables name instID logsDir pfx : string.
Variable iv : Instance.
Variable commandToFileName : gmap string string.

Local Abbreviation sstep := (ProtocolSpec.sstep env).
Local Abbreviation fstep := (ProtocolSpec.fstep env).
Local Abbreviation stand := (ProtocolSpec.stand env).
Local Abbreviation stored := (ProtocolSpec.stored env logsDir pfx).
Local Abbreviation track := (ProtocolSpec.track env logsDir pfx).
Local Abbreviation aborted := (ProtocolSpec.aborted env).
Local Abbreviation tracked := (ProtocolSpec.tracked env logsDir pfx).
Local Abbreviation anatomy :=
  (ProtocolSpec.anatomy env logsDir pfx commandToFileName).
Local Abbreviation staged :=
  (ProtocolSpec.staged env logsDir pfx commandToFileName).
Local Abbreviation finished :=
  (ProtocolSpec.finished env logsDir pfx commandToFileName).

Lemma stand_nil : stand Unopened (Ready None) [] [] [] [].
Proof. by split. Qed.

Lemma stand_step (ss ss' : session) (fs fs' : filing) (R C K R' C' K' : list string)
    (tr : trace) (e : event) :
  stand ss fs R C K tr ->
  sstep tr ss e = Some ss' -> fstep tr fs e = Some fs' ->
  R' = R ++ runs [e] -> C' = C ++ creates [e] -> K' = K ++ closes [e] ->
  stand ss' fs' R' C' K' (tr ++ [e]).
Proof.
  intros [Hs Hf Hr Hc Hk] Hss Hfs -> -> ->. split.
  - by rewrite (run_snoc _ _ _ _ _ Hs).
  - by rewrite (run_snoc _ _ _ _ _ Hf).
  - by rewrite runs_app, Hr.
  - by rewrite creates_app, Hc.
  - by rewrite closes_app, Hk.
Qed.

Lemma stand_intn (o : option string) (R C K : list string) (tr new : trace) :
  stand Connected (Ready o) R C K tr -> Forall isIntn new ->
  stand Connected (Ready o) R C K (tr ++ new).
Proof.
  intros H Hq. induction new as [|e new IH] using rev_ind.
  - by rewrite app_nil_r.
  - apply Forall_app in Hq as [Hq He]. rewrite app_assoc.
    rewrite Forall_singleton in He. destruct e; try done.
    eapply stand_step; [by apply IH | done | by destruct o | ..];
      by rewrite app_nil_r.
Qed.

Lemma gate_stand (ss : session) (o : option string) (R C K : list string)
    (tr : trace) (Q : res (option instanceLogs) unit -> trace -> Prop) :
  stand ss (Ready o) R C K tr -> ss = Unopened \/ ss = Connected ->
  (forall new, stand ss (Ready None) R C K (tr ++ new) -> Q (Ok tt) (tr ++ new)) ->
  wp (gate env) Q tr.
Proof.
  intros H Hss HQ. unfold gate. apply wp_bind. unfold wp at 1, Allow; simpl.
  assert (H1 : forall b, stand ss (Ready None) R C K (tr ++ [EvAllow b])).
  { intros b. eapply stand_step;
      [done | by destruct Hss as [-> | ->] | by destruct o | ..];
      by rewrite app_nil_r. }
  destruct (allow env tr).
  - apply HQ, H1.
  - unfold wp, Wait, emit; simpl. rewrite <- app_assoc. apply HQ.
    rewrite app_assoc. eapply stand_step;
      [apply H1 | by destruct Hss as [-> | ->] | done | ..];
      by rewrite app_nil_r.
Qed.

Lemma gate_track (tr0 : trace) (R : list string) (saved : list (string * string))
    (data : instanceLogs) (tr : trace)
    (Q : res (option instanceLogs) unit -> trace -> Prop) :
  track tr0 R saved data tr ->
  (forall tr', track tr0 R saved data tr' -> Q (Ok tt) tr') ->
  wp (gate env) Q tr.
Proof.
  intros [He [o Hs] Hst] HQ. apply (gate_stand _ _ _ _ _ _ _ Hs); [by right |].
  intros new Hn. apply HQ. split; [|by eexists | done].
  etrans; [done |]. by apply prefix_app_r.
Qed.

(** A failure record is sent from a connected session with no file open. *)
Lemma sendReturn_aborted {A} (o : option string) (R C K : list string)
    (e : error) (tr : trace) :
  stand Connected (Ready o) R C K tr ->
  wp (sendReturn (A := A) (failed name instID e))
     (fun r tr' => match r with Ok _ => False | Exit out => aborted out tr' end)
     tr.
Proof.
  intros H. unfold sendReturn. apply wp_bind. unfold wp, send, emit, exit; simpl.
  split; [by eexists |]. exists None, R, C, K.
  eapply stand_step; [done | done | by destruct o | ..]; by rewrite app_nil_r.
Qed.

Lemma runSave_track (tr0 : trace) (R : list string)
    (saved : list (string * string)) (cmd fileName : string)
    (data : instanceLogs) (tr : trace) :
  track tr0 R saved data tr ->
  wp (runSave env name instID logsDir pfx cmd fileName data)
     (tracked tr0 (R ++ [cmd]) (saved ++ [(cmd, fileName)])) tr.
Proof.
  intros [He [o Hs] Hst]. unfold runSave. apply wp_bind.
  unfold wp at 1, Run; simpl.
  destruct (sshRun env tr cmd) as [out|msg] eqn:Hrun.
  2:{ eapply wp_mono.
      - eapply (sendReturn_aborted None). eapply stand_step;
          [done | done | by (destruct o; simpl; rewrite Hrun) | done..].
      - by intros [|]. }
  assert (H1 : stand Connected (Ready (Some out)) (R ++ [cmd])
                 (paths data ++ []) (paths data ++ []) (tr ++ [EvRun cmd])).
  { eapply stand_step; [done | done | by (destruct o; simpl; rewrite Hrun) | done..]. }
  rewrite !app_nil_r in H1.
  apply wp_bind.
  destruct (shorten_spec env (pfx +:+ fileName) (tr ++ [EvRun cmd]))
    as (short & new & Hshort & Hsh & Hnew).
  eapply wp_eq; [exact Hshort |].
  apply (stand_intn _ _ _ _ _ new) in H1; [|done].
  set (tr2 := (tr ++ [EvRun cmd]) ++ new) in *.
  apply wp_bind. unfold wp at 1, Create; simpl.
  destruct (osCreate env tr2 (Join env logsDir short)) as [msg|] eqn:Hcreate; simpl.
  { eapply wp_mono.
    - eapply (sendReturn_aborted None). eapply stand_step;
        [done | done | by (simpl; rewrite Hcreate) | done..].
    - by intros [|]. }
  assert (H2 : stand Connected (Open (Join env logsDir short) out) (R ++ [cmd])
                 (paths data ++ [(Join env logsDir short)]) (paths data) (tr2 ++ [EvCreate (Join env logsDir short)])).
  { eapply stand_step; [done | done | by (simpl; rewrite Hcreate) | ..];
      by rewrite ?app_nil_r. }
  set (tr3 := tr2 ++ [EvCreate (Join env logsDir short)]) in *.
  apply wp_bind. unfold wp at 1, Write; simpl.
  destruct (fWrite env tr3 (Join env logsDir short) out) as [msg|] eqn:Hwrite; simpl.
  { assert (H3 : stand Connected (Failing (Join env logsDir short)) (R ++ [cmd])
                   (paths data ++ [Join env logsDir short]) (paths data)
                   (tr3 ++ [EvWrite (Join env logsDir short) out])).
    { eapply stand_step; [exact H2 | done | | ..].
      - simpl. rewrite decide_True by done. by rewrite Hwrite.
      - by rewrite app_nil_r.
      - by rewrite app_nil_r.
      - by rewrite app_nil_r. }
    unfold wp, bind, send, Close, emit, exit; simpl.
    split; [by eexists |].
    exists None, (R ++ [cmd]), (paths data ++ [Join env logsDir short]),
           (paths data ++ [Join env logsDir short]).
    eapply (stand_step _ _ (Written (Join env logsDir short))).
    - eapply stand_step; [exact H3 | done | done | ..]; by rewrite app_nil_r.
    - done.
    - simpl. by rewrite decide_True.
    - by rewrite app_nil_r.
    - by rewrite app_nil_r.
    - done. }
  assert (H3 : stand Connected (Written (Join env logsDir short)) (R ++ [cmd])
                 (paths data ++ [Join env logsDir short]) (paths data)
                 (tr3 ++ [EvWrite (Join env logsDir short) out])).
  { eapply stand_step; [exact H2 | done | | ..].
    - simpl. rewrite decide_True by done. by rewrite Hwrite.
    - by rewrite app_nil_r.
    - by rewrite app_nil_r.
    - by rewrite app_nil_r. }
  unfold wp, bind, Close, emit, ret; simpl. split.
  - etrans; [done |]. subst tr3 tr2.
    rewrite <- !app_assoc. by apply prefix_app_r.
  - exists None. cbn [paths].
    eapply stand_step; [exact H3 | done | | ..].
    + simpl. by rewrite decide_True.
    + by rewrite app_nil_r.
    + by rewrite app_nil_r.
    + done.
  - cbn [paths]. apply Forall2_app; [done |]. constructor; [|done].
    by exists short.
Qed.

Lemma fetch_track (tr0 : trace) (R : list string)
    (saved : list (string * string)) (entry : string * string)
    (data : instanceLogs) (tr : trace) :
  track tr0 R saved data tr ->
  wp (fetch env name instID logsDir pfx entry data)
     (tracked tr0 (R ++ [entry.1]) (saved ++ [entry])) tr.
Proof.
  intros H. unfold fetch. apply wp_bind. eapply gate_track; [done |].
  intros tr' H'. destruct entry as [cmd fileName]. by apply runSave_track.
Qed.

Lemma loop_track (tr0 : trace) (R : list string)
    (saved : list (string * string)) (l : list (string * string))
    (data : instanceLogs) (tr : trace) :
  track tr0 R saved data tr ->
  wp (foldM (fetch env name instID logsDir pfx) l data)
     (tracked tr0 (R ++ l.*1) (saved ++ l)) tr.
Proof.
  intros H.
  eapply wp_mono.
  - apply (wp_foldM_from (fetch env name instID logsDir pfx)
             (fun d data tr => track tr0 (R ++ d.*1) (saved ++ d) data tr)
             aborted l) with (d := []).
    + intros x d a s HI. eapply wp_mono; [by apply fetch_track |].
      intros [a'|out] s'; [|done]. simpl.
      by rewrite fmap_app, !app_assoc.
    + by rewrite !app_nil_r.
  - by intros [|].
Qed.

Lemma range_track (tr0 : trace) (R : list string)
    (saved : list (string * string)) (data : instanceLogs)
    (m : gmap string string) (tr : trace)
    (Q : res (option instanceLogs) (list (string * string)) -> trace -> Prop) :
  track tr0 R saved data tr ->
  (forall l tr', l ≡ₚ map_to_list m -> track tr0 R saved data tr' ->
                 Q (Ok l) tr') ->
  wp (range env m) Q tr.
Proof.
  intros [He [o Hs] Hst] HQ. unfold wp, range; simpl.
  apply HQ; [apply rangeMap_perm |]. split; [| |done].
  - etrans; [done |]. by apply prefix_app_r.
  - exists None. eapply stand_step; [done | done | by destruct o | ..];
      by rewrite app_nil_r.
Qed.

Lemma aborted_staged (out : option instanceLogs) (tr : trace) :
  aborted out tr -> staged (Exit out) tr.
Proof. intros [(rec & -> & He) Hs]. split; [|done]. exists rec. eauto. Qed.

(** A command whose output is not saved. *)
Lemma Run_track (tr0 : trace) (R : list string)
    (saved : list (string * string)) (data : instanceLogs) (cmd : string)
    (tr : trace)
    (Q : res (option instanceLogs) (string + error) -> trace -> Prop) :
  track tr0 R saved data tr ->
  (forall msg,
     sshRun env tr cmd = inr msg ->
     stand Connected (Ready None) (R ++ [cmd]) (paths data) (paths data)
       (tr ++ [EvRun cmd]) ->
     Q (Ok (inr (ErrExternal msg))) (tr ++ [EvRun cmd])) ->
  (forall out,
     sshRun env tr cmd = inl out ->
     track (tr ++ [EvRun cmd]) (R ++ [cmd]) saved data (tr ++ [EvRun cmd]) ->
     Q (Ok (inl out)) (tr ++ [EvRun cmd])) ->
  wp (Run env cmd) Q tr.
Proof.
  intros [He [o Hs] Hst] Hbad Hgood. unfold wp, Run; simpl.
  destruct (sshRun env tr cmd) as [out|msg] eqn:Hrun.
  - apply Hgood; [done |]. split; [done | | done]. exists (Some out).
    eapply stand_step; [done | done | by (destruct o; simpl; rewrite Hrun) | ..];
      by rewrite ?app_nil_r.
  - apply Hbad; [done |].
    eapply stand_step; [done | done | by (destruct o; simpl; rewrite Hrun) | ..];
      by rewrite ?app_nil_r.
Qed.

Lemma stages_track (o : option string) (tr : trace) :
  stand Connected (Ready o) [] [] [] tr ->
  wp (stages env name instID logsDir pfx commandToFileName) staged tr.
Proof.
  intros Hs. unfold stages.
  set (data0 := {| mngName := name; instanceID := instID; paths := [];
                   err := None |}).
  assert (T0 : track tr [] [] data0 tr) by (split; [done | by exists o | done]).
  apply wp_bind. eapply range_track; [exact T0 |]. intros l1 tr1 Hl1 T1.
  apply wp_bind. eapply wp_mono; [by apply loop_track |].
  intros [data1|out] tr2 T2; [|by apply aborted_staged]. simpl in T2.
  apply wp_bind. eapply gate_track; [exact T2 |]. intros tr3 T3.
  apply wp_bind. eapply Run_track; [exact T3 | |].
  { intros msg Hrun Hst. eapply wp_mono.
    - by eapply (sendReturn_aborted None).
    - intros [|out] tr' H; [done | by apply aborted_staged]. }
  intros out1 Hlist T4.
  apply wp_bind. eapply range_track; [exact T4 |]. intros l2 tr5 Hl2 T5.
  apply wp_bind. eapply wp_mono; [by apply loop_track |].
  intros [data2|out] tr6 T6; [|by apply aborted_staged]. simpl in T6.
  apply wp_bind. eapply gate_track; [exact T6 |]. intros tr7 T7.
  apply wp_bind. eapply wp_mono; [by apply runSave_track |].
  intros [data3|out] tr8 T8; [|by apply aborted_staged]. simpl in T8.
  apply wp_bind. eapply gate_track; [exact T8 |]. intros tr9 T9.
  apply wp_bind. eapply Run_track; [exact T9 | |].
  { intros msg Hrun Hst. eapply wp_mono.
    - by eapply (sendReturn_aborted None).
    - intros [|out] tr' H; [done | by apply aborted_staged]. }
  intros out2 Hfind T10.
  apply wp_bind. eapply range_track; [exact T10 |]. intros l3 tr11 Hl3 T11.
  apply wp_bind. eapply wp_mono; [by apply loop_track |].
  intros [data4|out] tr12 T12; [|by apply aborted_staged]. simpl in T12.
  unfold sendReturn. apply wp_bind. unfold wp, send, emit, exit; simpl.
  destruct T3 as [_ [o3 Hs3] _]. destruct T9 as [He9 [o9 Hs9] _].
  destruct T12 as [He12 [o12 Hs12] Hst12].
  assert (Hs13 : stand Connected (Ready None)
                   (l1.*1 ++ [listCmd] ++ l2.*1 ++ [eniCmd; findCmd] ++ l3.*1)
                   (paths data4) (paths data4) (tr12 ++ [EvSend data4])).
  { eapply stand_step; [exact Hs12 | done | by destruct o12 | ..].
    - simpl. by rewrite app_nil_r, <- !app_assoc.
    - by rewrite app_nil_r.
    - by rewrite app_nil_r. }
  split; [|by eauto 10].
  exists data4. split; [done |]. right.
  exists l1, l2, l3, out1, out2, tr3, tr9. split_and!; try done.
  - apply prefix_app_r. etrans; [exact He9 |]. etrans; [|exact He12].
    by apply prefix_app_r.
  - by destruct Hs3.
  - by apply prefix_app_r.
  - destruct Hs9 as [_ _ -> _ _]. simpl. by rewrite <- !app_assoc.
  - by destruct Hs13.
  - by rewrite <- !app_assoc in Hst12.
  - by destruct Hs13.
  - by destruct Hs13.
Qed.

Lemma anatomy_snoc (rec : instanceLogs) (t : trace) (e : event) :
  anatomy rec t -> runs [e] = [] -> creates [e] = [] -> closes [e] = [] ->
  anatomy rec (t ++ [e]).
Proof.
  intros (l1 & l2 & l3 & out1 & out2 & pre1 & pre2 & H1 & H2 & H3 & P1 & R1
          & O1 & P2 & R2 & O2 & Hr & Hst & Hc & Hk) Er Ec Ek.
  exists l1, l2, l3, out1, out2, pre1, pre2. split_and!; try done.
  - by apply prefix_app_r.
  - by apply prefix_app_r.
  - by rewrite runs_app, Er, app_nil_r.
  - by rewrite creates_app, Ec, app_nil_r.
  - by rewrite closes_app, Ek, app_nil_r.
Qed.

Lemma goroutine_track :
  wp (goroutine env name instID logsDir pfx iv commandToFileName) finished [].
Proof.
  unfold goroutine. apply wp_bind. unfold wp at 1, pollStopc; simpl.
  destruct (stopc env []) eqn:Hstop.
  { unfold wp, exit; simpl. split; [|done].
    exists Unopened, None, [], [], []. split; [|done].
    by apply (stand_step _ _ _ _ _ _ _ _ _ _ [] _ stand_nil). }
  assert (H1 : stand Unopened (Ready None) [] [] [] [EvStopc false])
    by by apply (stand_step _ _ _ _ _ _ _ _ _ _ [] _ stand_nil).
  apply wp_bind. eapply gate_stand; [exact H1 | by left |]. intros new H2.
  remember ([EvStopc false] ++ new) as tr2 eqn:Etr2. clear Etr2.
  apply wp_bind. unfold wp at 1, New; simpl.
  destruct (sshNew env tr2) as [msg|] eqn:Hnew; simpl.
  { assert (H3 : stand Refused (Ready None) [] [] []
                   (tr2 ++ [EvSSHNew (PublicIP iv) (PublicDNSName iv)])).
    { eapply stand_step; [exact H2 | | done | done..]. simpl. by rewrite Hnew. }
    unfold sendReturn. apply wp_bind. unfold wp, send, emit, exit; simpl.
    split; [|by intros rec [= <-]].
    exists Refused, None, [], [], []. split; [|done].
    by eapply stand_step; [exact H3 | ..]. }
  assert (H3 : stand Opened (Ready None) [] [] []
                 (tr2 ++ [EvSSHNew (PublicIP iv) (PublicDNSName iv)])).
  { eapply stand_step; [exact H2 | | done | done..]. simpl. by rewrite Hnew. }
  remember (tr2 ++ [EvSSHNew (PublicIP iv) (PublicDNSName iv)]) as tr3 eqn:Etr3.
  clear Etr3. unfold wp, defer.
  match goal with
  | |- context [bind ?m ?k tr3] =>
      assert (Hb : wp (bind m k) (fun r tr => match r with
        | Ok _ => False
        | Exit out =>
            (exists ss o R C K, stand ss (Ready o) R C K tr /\
                                (ss = Unconnected \/ ss = Connected)) /\
            forall rec, out = Some rec -> err rec = None -> anatomy rec tr
        end) tr3);
      [|unfold wp in Hb; destruct (bind m k tr3) as [[u|out] tr4]]
  end.
  - apply wp_bind. unfold wp at 1, Connect; simpl.
    destruct (sshConnect env tr3) as [msg|] eqn:Hconn; simpl.
    { assert (H4 : stand Unconnected (Ready None) [] [] [] (tr3 ++ [EvConnect])).
      { eapply stand_step; [exact H3 | | done | done..].
        simpl. by rewrite Hconn. }
      unfold sendReturn. apply wp_bind. unfold wp, send, emit, exit; simpl.
      split; [|by intros rec [= <-]].
      exists Unconnected, None, [], [], []. split; [|by left].
      by eapply stand_step; [exact H4 | ..]. }
    assert (H4 : stand Connected (Ready None) [] [] [] (tr3 ++ [EvConnect])).
    { eapply stand_step; [exact H3 | | done | done..]. simpl. by rewrite Hconn. }
    eapply wp_mono; [by eapply stages_track |].
    intros [u|out] tr' Hp; [done |].
    destruct Hp as [(rec & -> & Hrec) (o & R & C & K & Hs)].
    split; [exists Connected; eauto 10 |].
    intros rec' [= <-] Herr. destruct Hrec as [[e He]|Ha]; [congruence | done].
  - done.
  - simpl in *. destruct Hb as [(ss & o & R & C & K & Hs & Hss) Ha].
    unfold emit; simpl. split.
    + exists Closed, None, R, C, K. split; [|done].
      eapply stand_step; [exact Hs | by destruct Hss as [-> | ->] | by destruct o | ..];
        by rewrite app_nil_r.
    + intros rec Hrec Herr. by apply anatomy_snoc; [apply Ha | ..].
Qed.

End Goroutine.

Section Automata.
Variable env : Env.

Local Abbreviation sstep := (ProtocolSpec.sstep env).
Local Abbreviation fstep := (ProtocolSpec.fstep env).

(** The state reached by a trace that is not empty. *)
Lemma run_last {St} (step : trace -> St -> event -> option St)
    (st0 st : St) (tr : trace) (e : event) :
  run step [] st0 (tr ++ [e]) = Some st ->
  exists st1, run step [] st0 tr = Some st1 /\ step tr st1 e = Some st.
Proof.
  intros H. apply run_split in H as (st1 & st2 & H1 & H2 & H3).
  simpl in H3. injection H3 as ->. by exists st1.
Qed.

(** *** The files *)

Lemma fresh_output (tr : trace) (out : string) :
  run fstep [] (Ready None) tr = Some (Ready (Some out)) ->
  exists pre cmd mid,
    tr = pre ++ EvRun cmd :: mid /\ sshRun env pre cmd = inl out /\
    Forall isIntn mid.
Proof.
  induction tr as [|e tr IH] using rev_ind; [done |].
  intros H. apply run_last in H as (st & Hst & He).
  destruct st as [[o|]|f o|f|f], e; simplify_eq/=;
    try (by repeat case_match; simplify_eq);
    try (by repeat case_decide; simplify_eq).
  - destruct (sshRun env tr cmd) as [out'|] eqn:Hrun; simplify_eq.
    exists tr, cmd, []. by rewrite Hrun.
  - destruct (IH Hst) as (pre & cmd & mid & -> & Hrun & Hmid).
    exists pre, cmd, (mid ++ [EvIntn n v]). split_and!; [|done |].
    + by rewrite <- app_assoc.
    + apply Forall_app. by split; [|repeat constructor].
  - destruct (sshRun env tr cmd) as [out'|] eqn:Hrun; simplify_eq.
    exists tr, cmd, []. by rewrite Hrun.
Qed.

Lemma file_opened (tr : trace) (f out : string) :
  run fstep [] (Ready None) tr = Some (Open f out) ->
  exists pre cmd mid,
    tr = pre ++ EvRun cmd :: mid ++ [EvCreate f] /\
    sshRun env pre cmd = inl out /\ Forall isIntn mid.
Proof.
  destruct tr as [|e tr _] using rev_ind; [done |].
  intros H. apply run_last in H as (st & Hst & He).
  destruct st as [[o|]|f' o|f'|f'], e; simplify_eq/=;
    try (by repeat case_match; simplify_eq);
    try (by repeat case_decide; simplify_eq).
  destruct (osCreate env tr fpath); simplify_eq.
  destruct (fresh_output _ _ Hst) as (pre & cmd & mid & -> & Hrun & Hmid).
  exists pre, cmd, mid. by rewrite <- app_assoc.
Qed.

Lemma file_failing (tr : trace) (f : string) :
  run fstep [] (Ready None) tr = Some (Failing f) ->
  exists pre out, tr = pre ++ [EvWrite f out].
Proof.
  destruct tr as [|e tr _] using rev_ind; [done |].
  intros H. apply run_last in H as (st & Hst & He).
  destruct st as [[o|]|f' o|f'|f'], e; simplify_eq/=;
    try (by repeat case_match; simplify_eq);
    try (by repeat case_decide; simplify_eq).
  case_decide as Hd; [|done]. destruct Hd as [-> ->].
  destruct (fWrite env tr f' o); simplify_eq. by eexists _, _.
Qed.

Lemma file_written (tr : trace) (f : string) :
  run fstep [] (Ready None) tr = Some (Written f) ->
  exists pre out,
    tr = pre ++ [EvWrite f out] \/ exists r, tr = pre ++ [EvWrite f out; EvSend r].
Proof.
  destruct tr as [|e tr _] using rev_ind; [done |].
  intros H. apply run_last in H as (st & Hst & He).
  destruct st as [[o|]|f' o|f'|f'], e; simplify_eq/=;
    try (by repeat case_match; simplify_eq);
    try (by repeat case_decide; simplify_eq).
  - case_decide as Hd; [|done]. destruct Hd as [-> ->].
    destruct (fWrite env tr f' o); simplify_eq. eexists _, _. by left.
  - destruct (file_failing _ _ Hst) as (pre & out & ->).
    exists pre, out. right. exists r. by rewrite <- app_assoc.
Qed.

(** A file that has been written is closed. *)
Lemma file_closed (pre post : trace) (st : filing) (f : string)
    (o : option string) :
  run fstep pre st post = Some (Ready o) ->
  st = Written f \/ st = Failing f -> EvClose f ∈ post.
Proof.
  intros H [-> | ->].
  - destruct post as [|e post]; [done |]. simpl in H.
    destruct e; try done. case_decide; [|done]. subst. by left.
  - destruct post as [|e post]; [done |]. simpl in H.
    destruct e; try done.
    destruct post as [|e post]; [done |]. simpl in H.
    destruct e; try done. case_decide; [|done]. subst. right. by left.
Qed.

(** *** The session *)

Lemma live_kept (pre post : trace) (st st' : session) :
  run sstep pre st post = Some st' -> live st -> live st'.
Proof.
  revert pre st. induction post as [|e post IH]; intros pre st H Hl.
  - by simplify_eq/=.
  - simpl in H. destruct (sstep pre st e) as [st1|] eqn:He; [|done].
    apply (IH _ _ H).
    destruct st, e; simplify_eq/=; try done; by repeat case_match.
Qed.

Lemma refused_kept (pre post : trace) (st : session) :
  run sstep pre Refused post = Some st ->
  st = Refused /\ EvSSHClose ∉ post.
Proof.
  revert pre. induction post as [|e post IH]; intros pre H.
  - simplify_eq/=. split; [done |]. by intros ?%elem_of_nil.
  - simpl in H. destruct e; simplify_eq/=.
    destruct (IH _ H) as [-> Hn]. split; [done |].
    by intros [?|?]%elem_of_cons.
Qed.

Lemma session_opened (tr : trace) :
  run sstep [] Unopened tr = Some Opened ->
  exists pre ip dns, tr = pre ++ [EvSSHNew ip dns] /\ sshNew env pre = None.
Proof.
  destruct tr as [|e tr _] using rev_ind; [done |].
  intros H. apply run_last in H as (st & Hst & He).
  destruct st, e; simplify_eq/=; try (by repeat case_match; simplify_eq).
  destruct (sshNew env tr) eqn:Hnew; simplify_eq. by eexists _, _, _.
Qed.

Lemma session_live (tr : trace) (st : session) :
  run sstep [] Unopened tr = Some st -> live st ->
  exists pre ip dns post,
    tr = pre ++ EvSSHNew ip dns :: post /\ sshNew env pre = None.
Proof.
  revert st. induction tr as [|e tr IH] using rev_ind; intros st H Hl.
  { by simplify_eq/=. }
  apply run_last in H as (st1 & Hst & He).
  destruct (decide (st1 = Unopened)) as [->|Hne].
  - destruct e; simplify_eq/=; try done.
    destruct (sshNew env tr) eqn:Hnew; simplify_eq; [done |].
    by exists tr, ip, dns, [].
  - destruct (IH st1 Hst) as (pre & ip & dns & post & -> & Hnew).
    { destruct st1, e; simplify_eq/=; try done. }
    exists pre, ip, dns, (post ++ [e]). by rewrite <- app_assoc.
Qed.

Lemma session_connected (tr : trace) :
  run sstep [] Unopened tr = Some Connected ->
  exists pre post, tr = pre ++ EvConnect :: post /\ sshConnect env pre = None.
Proof.
  induction tr as [|e tr IH] using rev_ind; [done |].
  intros H. apply run_last in H as (st & Hst & He).
  destruct (decide (st = Connected)) as [->|Hne].
  - destruct (IH Hst) as (pre & post & -> & Hc).
    exists pre, (post ++ [e]). by rewrite <- app_assoc.
  - destruct st, e; simplify_eq/=; try (by repeat case_match; simplify_eq).
    destruct (sshConnect env tr) eqn:Hc; simplify_eq. by exists tr, [].
Qed.

(** A session that was opened is closed at the end. *)
Lemma session_closed (pre post : trace) (st st' : session) :
  run sstep pre st post = Some st' -> live st -> st <> Closed -> settled st' ->
  exists post', post = post' ++ [EvSSHClose].
Proof.
  intros H Hl Hne Hs.
  destruct post as [|e post _] using rev_ind.
  { simplify_eq/=. by destruct st'. }
  rewrite run_app in H.
  destruct (run sstep pre st post) as [st1|] eqn:H1; [|done].
  simpl in H. destruct (sstep (pre ++ post) st1 e) as [st2|] eqn:He; [|done].
  injection H as ->. apply live_kept in H1; [|done].
  exists post. f_equal.
  destruct st1, e; simplify_eq/=; try done; by repeat case_match; simplify_eq.
Qed.

End Automata.
End ProtocolFacts.

Import ProtocolSpec ProtocolFacts.

(** ** The goroutine: its files, its session, its commands *)

(** X4: in every run of a goroutine the files are handled one at a time:
    a file that could be created receives at once one write and is closed
    after it; what is written into a file is the output of the command that
    was run just before the file was created (only the random draws of
    [shorten] come in between); and a file is closed right after its write,
    or, where the write failed, right after the failure record was sent.
    No file is open when the goroutine leaves. *)
Theorem files_written_and_closed (env : Collector.Env)
    (name instID logsDir pfx : string) (iv : Instance)
    (commandToFileName : gmap string string) :
  let t := (goroutine env name instID logsDir pfx iv commandToFileName []).2 in
  (exists o, run (fstep env) [] (Ready None) t = Some (Ready o)) /\
  (forall pre f post,
     t = pre ++ EvCreate f :: post -> osCreate env pre f = None ->
     exists out post', post = EvWrite f out :: post' /\ EvClose f ∈ post') /\
  (forall pre f out post,
     t = pre ++ EvWrite f out :: post ->
     exists pre' cmd mid,
       pre = pre' ++ EvRun cmd :: mid ++ [EvCreate f] /\
       sshRun env pre' cmd = inl out /\ Forall isIntn mid) /\
  (forall pre f post,
     t = pre ++ EvClose f :: post ->
     exists pre' out,
       pre = pre' ++ [EvWrite f out] \/
       exists r, pre = pre' ++ [EvWrite f out; EvSend r]).
Proof.
  cbn zeta.
  pose proof (goroutine_track env name instID logsDir pfx iv commandToFileName)
    as H.
  unfold wp in H.
  destruct (goroutine env name instID logsDir pfx iv commandToFileName [])
    as [[u|sent] t]; [done |]. cbn [fst snd] in *.
  destruct H as [(ss & o & R & C & K & [_ Hf _ _ _] & _) _].
  split; [by exists o |]. split_and!.
  - intros pre f post -> Hc.
    apply run_split in Hf as (st1 & st2 & H1 & H2 & H3).
    destruct st1 as [[out|]|f' o'|f'|f']; simplify_eq/=.
    rewrite Hc in H3.
    destruct post as [|e post]; [done |]. simpl in H3.
    destruct e; try done. case_decide as Hd; [|done]. destruct Hd as [-> ->].
    exists out, post. split; [done |].
    destruct (fWrite env _ f out);
      eapply file_closed; try exact H3; eauto.
  - intros pre f out post ->.
    apply run_split in Hf as (st1 & st2 & H1 & H2 & H3).
    destruct st1 as [[o1|]|f' o'|f'|f']; simplify_eq/=.
    case_decide as Hd; [|done]. destruct Hd as [-> ->].
    by apply file_opened.
  - intros pre f post ->.
    apply run_split in Hf as (st1 & st2 & H1 & H2 & H3).
    destruct st1 as [[o1|]|f' o'|f'|f']; simplify_eq/=.
    case_decide; [|done]. subst. by eapply file_written.
Qed.

Lemma files_written_and_closed_witness :
  exists pre f post,
    (goroutine (remote false None healthy) "g1" "i-1" "/tmp/logs/r"
       (prefix "i-1" i1) i1 logCmds []).2 = pre ++ EvCreate f :: post /\
    exists out post', post = EvWrite f out :: post' /\ EvClose f ∈ post'.
Proof.
  assert (Hc : exists pre post,
    (goroutine (remote false None healthy) "g1" "i-1" "/tmp/logs/r"
       (prefix "i-1" i1) i1 logCmds []).2
    = pre ++ EvCreate "/tmp/logs/r/i-1-54123us-list-units-systemctl.out.log"
             :: post /\
    osCreate (remote false None healthy) pre
      "/tmp/logs/r/i-1-54123us-list-units-systemctl.out.log" = None).
  { exists (firstn 8 (goroutine (remote false None healthy) "g1" "i-1" "/tmp/logs/r"
       (prefix "i-1" i1) i1 logCmds []).2),
      (skipn 9 (goroutine (remote false None healthy) "g1" "i-1" "/tmp/logs/r"
       (prefix "i-1" i1) i1 logCmds []).2).
    by vm_compute. }
  destruct Hc as (pre & post & Heq & Hok).
  exists pre, "/tmp/logs/r/i-1-54123us-list-units-systemctl.out.log", post.
  split; [exact Heq |].
  exact (proj1 (proj2 (files_written_and_closed (remote false None healthy) "g1"
                         "i-1" "/tmp/logs/r" (prefix "i-1" i1) i1 logCmds))
           pre "/tmp/logs/r/i-1-54123us-list-units-systemctl.out.log" post
           Heq Hok).
Defined.

(** X5: in every run of a goroutine the session is opened at most once and
    connected right after it was opened; a command is run only after the
    session was connected with success; a session that was opened is closed
    by the last action of the goroutine, also when it could not be
    connected or when a command or a file failed; and nothing is closed
    where no session was opened. *)
Theorem session_closed_at_the_end (env : Collector.Env)
    (name instID logsDir pfx : string) (iv : Instance)
    (commandToFileName : gmap string string) :
  let t := (goroutine env name instID logsDir pfx iv commandToFileName []).2 in
  (exists ss, run (sstep env) [] Unopened t = Some ss /\ settled ss) /\
  (forall pre cmd post,
     t = pre ++ EvRun cmd :: post ->
     exists p1 p2, pre = p1 ++ EvConnect :: p2 /\ sshConnect env p1 = None) /\
  (forall pre post,
     t = pre ++ EvConnect :: post ->
     exists p1 ip dns, pre = p1 ++ [EvSSHNew ip dns] /\ sshNew env p1 = None) /\
  (forall pre ip dns post,
     t = pre ++ EvSSHNew ip dns :: post ->
     (EvSSHNew ip dns ∉ pre) /\
     match sshNew env pre with
     | None => exists post', post = post' ++ [EvSSHClose]
     | Some _ => EvSSHClose ∉ post
     end) /\
  (forall pre post,
     t = pre ++ EvSSHClose :: post ->
     post = [] /\
     exists p1 ip dns p2,
       pre = p1 ++ EvSSHNew ip dns :: p2 /\ sshNew env p1 = None).
Proof.
  cbn zeta.
  pose proof (goroutine_track env name instID logsDir pfx iv commandToFileName)
    as H.
  unfold wp in H.
  destruct (goroutine env name instID logsDir pfx iv commandToFileName [])
    as [[u|sent] t]; [done |]. cbn [fst snd] in *.
  destruct H as [(ss & o & R & C & K & [Hs _ _ _ _] & Hset) _].
  split; [by exists ss |]. split_and!.
  - intros pre cmd post ->.
    apply run_split in Hs as (st1 & st2 & H1 & H2 & H3).
    destruct st1; simplify_eq/=. by apply session_connected.
  - intros pre post ->.
    apply run_split in Hs as (st1 & st2 & H1 & H2 & H3).
    destruct st1; simplify_eq/=. by apply session_opened.
  - intros pre ip dns post ->.
    apply run_split in Hs as (st1 & st2 & H1 & H2 & H3).
    destruct st1; simplify_eq/=. split.
    + intros Hin. apply list_elem_of_split in Hin as (a & b & ->).
      apply run_split in H1 as (st1 & st2 & H1 & H2 & H4).
      destruct st1; simplify_eq/=.
      destruct (sshNew env a).
      * by apply refused_kept in H4 as [? _].
      * by apply live_kept in H4.
    + destruct (sshNew env pre) eqn:Hnew.
      * by apply refused_kept in H3 as [_ ?].
      * by eapply session_closed.
  - intros pre post ->.
    apply run_split in Hs as (st1 & st2 & H1 & H2 & H3).
    assert (Hl : live st1 /\ st2 = Closed) by by destruct st1; simplify_eq/=.
    destruct Hl as [Hl ->]. split.
    + by destruct post.
    + by eapply session_live.
Qed.

Lemma session_closed_at_the_end_witness :
  exists pre post post',
    (goroutine (remote false None healthy) "g1" "i-1" "/tmp/logs/r"
       (prefix "i-1" i1) i1 logCmds []).2
    = pre ++ EvSSHNew (PublicIP i1) (PublicDNSName i1) :: post /\
    post = post' ++ [EvSSHClose].
Proof.
  assert (Hc : exists pre post,
    (goroutine (remote false None healthy) "g1" "i-1" "/tmp/logs/r"
       (prefix "i-1" i1) i1 logCmds []).2
    = pre ++ EvSSHNew (PublicIP i1) (PublicDNSName i1) :: post /\
    sshNew (remote false None healthy) pre = None).
  { exists (firstn 3 (goroutine (remote false None healthy) "g1" "i-1" "/tmp/logs/r"
       (prefix "i-1" i1) i1 logCmds []).2),
      (skipn 4 (goroutine (remote false None healthy) "g1" "i-1" "/tmp/logs/r"
       (prefix "i-1" i1) i1 logCmds []).2).
    by vm_compute. }
  destruct Hc as (pre & post & Heq & Hok).
  destruct (proj1 (proj2 (proj2 (proj2
              (session_closed_at_the_end (remote false None healthy) "g1" "i-1"
                 "/tmp/logs/r" (prefix "i-1" i1) i1 logCmds))))
              pre _ _ post Heq) as [_ Hclose].
  rewrite Hok in Hclose. destruct Hclose as [post' Hp].
  exists pre, post, post'. split; [exact Heq | exact Hp].
Defined.



(** ** The fleet status across a run *)

Module StatusFacts.
Import Collector Orchestrator OrchestratorSpec StatusSpec OrchestratorFacts.

Lemma recvs_app (a b : trace) : recvs (a ++ b) = recvs a ++ recvs b.
Proof. apply omap_app. Qed.

Lemma syncs_app (a b : trace) : syncs (a ++ b) = syncs a ++ syncs b.
Proof. apply omap_app. Qed.

Lemma grown_refl (recs : list instanceLogs) (nodes : gmap string MNG) :
  grown recs nodes nodes.
Proof. split; [done | | |]; intros; simplify_eq; eauto. Qed.

Lemma grown_trans (r1 r2 : list instanceLogs) (a b c : gmap string MNG) :
  grown r1 a b -> grown r2 b c -> grown (r1 ++ r2) a c.
Proof.
  intros [G1 I1 K1 N1] [G2 I2 K2 N2].
  assert (Hb : forall g mv, a !! g = Some mv -> exists mvb, b !! g = Some mvb).
  { intros g mv Ha. destruct (b !! g) as [mvb|] eqn:Hb; [by eexists |].
    apply G1 in Hb. congruence. }
  split.
  - intros g. by rewrite G2, G1.
  - intros g mv mv' Ha Hc. destruct (Hb g mv Ha) as [mvb Hmvb].
    by rewrite (I2 g mvb mv'), (I1 g mv mvb).
  - intros g mv mv' i p Ha Hc Hl. destruct (Hb g mv Ha) as [mvb Hmvb]. eauto.
  - intros g mv mv' i p Ha Hc Hl. destruct (Hb g mv Ha) as [mvb Hmvb].
    destruct (N2 g mvb mv' i p Hmvb Hc Hl) as [Hold|(d & Hd & ?)].
    + destruct (N1 g mv mvb i p Ha Hmvb Hold) as [?|(d & Hd & ?)]; [by left |].
      right. exists d. split; [|done]. apply elem_of_app. by left.
    + right. exists d. split; [|done]. apply elem_of_app. by right.
Qed.

Lemma grown_insert (data : instanceLogs) (mv : MNG) (nodes : gmap string MNG) :
  err data = None -> nodes !! mngName data = Some mv ->
  logsOf mv !! instanceID data = None ->
  grown [data] nodes
    (<[mngName data :=
         {| Instances := Instances mv;
            Logs := Some (<[instanceID data := paths data]> (logsOf mv)) |}]>
       nodes).
Proof.
  intros He Hg Hi. split.
  - intros g. destruct (decide (g = mngName data)) as [->|Hne].
    + rewrite lookup_insert_eq, Hg. split; intros; simplify_eq.
    + by rewrite lookup_insert_ne.
  - intros g mv0 mv' H0 H'. destruct (decide (g = mngName data)) as [->|Hne].
    + rewrite lookup_insert_eq in H'. by simplify_eq.
    + rewrite lookup_insert_ne in H' by done. by simplify_eq.
  - intros g mv0 mv' i p H0 H' Hl.
    destruct (decide (g = mngName data)) as [->|Hne].
    + rewrite lookup_insert_eq in H'. simplify_eq. unfold logsOf at 1; simpl.
      destruct (decide (i = instanceID data)) as [->|Hni]; [congruence |].
      by rewrite lookup_insert_ne.
    + rewrite lookup_insert_ne in H' by done. by simplify_eq.
  - intros g mv0 mv' i p H0 H' Hl.
    destruct (decide (g = mngName data)) as [->|Hne].
    + rewrite lookup_insert_eq in H'. simplify_eq.
      unfold logsOf at 1 in Hl; simpl in Hl.
      destruct (decide (i = instanceID data)) as [->|Hni].
      * rewrite lookup_insert_eq in Hl. simplify_eq. right. exists data.
        split; [by left | done].
      * rewrite lookup_insert_ne in Hl by done. by left.
    + rewrite lookup_insert_ne in H' by done. simplify_eq. by left.
Qed.

Lemma kept_trans (s s1 s2 : state) (n1 n2 : trace) :
  kept s n1 s1 -> kept s1 n2 s2 -> kept s (n1 ++ n2) s2.
Proof.
  intros [A1 B1 C1 T1 G1 S1] [A2 B2 C2 T2 G2 S2]. split; try congruence.
  - by rewrite T2, T1, <- app_assoc.
  - rewrite recvs_app. by eapply grown_trans.
  - rewrite syncs_app, last_app, S2. destruct (last (syncs n2)); [done |].
    by rewrite S1.
Qed.

(** Events that neither receive nor sync. *)
Lemma kept_quiet (s : state) (new : trace) :
  recvs new = [] -> syncs new = [] ->
  kept s new {| cfg := cfg s; tr := tr s ++ new |}.
Proof.
  intros Hr Hs. split; try done.
  - apply grown_refl.
  - by rewrite Hs.
Qed.

Lemma kept_refl (s : state) : kept s [] s.
Proof. split; try done; [by rewrite app_nil_r | apply grown_refl]. Qed.

Lemma kept_recv (s : state) (data : instanceLogs) :
  kept s [EvRecv data] (snoc s (EvRecv data)).
Proof. split; try done. apply grown_refl. Qed.

Lemma kept_sync (env : Env) (s : state) :
  kept s [EvSync (Nodes (cfg s))] (Sync env s).2.
Proof. split; try done. apply grown_refl. Qed.

Section Facts.
Variable env : Env.

Lemma merge_cases (data : instanceLogs) (total : nat) (s : state) :
  err data = None ->
  merge env data total s =
  match Nodes (cfg s) !! mngName data with
  | None => (Ok (inl (ErrUnknownGroup (mngName data))), s)
  | Some mv =>
      match logsOf mv !! instanceID data with
      | Some _ =>
          (Ok (inl (ErrRedundant (mngName data) (instanceID data))), s)
      | None =>
          (Ok (inr (total + length (paths data))), merge_state data mv s)
      end
  end.
Proof.
  intros He.
  destruct (Nodes (cfg s) !! mngName data) as [mv|] eqn:Hg.
  - destruct (logsOf mv !! instanceID data) eqn:Hi.
    + unfold merge. rewrite He. unfold bind at 1. unfold getCfg at 1.
      by rewrite Hg, Hi.
    + by apply merge_accepted.
  - unfold merge. rewrite He. unfold bind at 1. unfold getCfg at 1.
    by rewrite Hg.
Qed.

Lemma kept_accept (s : state) (data : instanceLogs) (mv : MNG) :
  err data = None -> Nodes (cfg s) !! mngName data = Some mv ->
  logsOf mv !! instanceID data = None ->
  exists nodes,
    kept s [EvRecv data; EvSync nodes]
         (merge_state data mv (snoc s (EvRecv data))).
Proof.
  intros He Hg Hi. eexists. split; try done.
  - simpl. by rewrite <- app_assoc.
  - simpl. by apply grown_insert.
Qed.

Lemma drain_kept (k total : nat) (s : state) :
  exists new, kept s new (drain env k total s).2.
Proof.
  revert total s. induction k as [|k IH]; intros total s.
  { eexists. apply kept_sync. }
  rewrite drain_S. destruct (select env (tr s)) as [data| |].
  - destruct (err data) as [x|] eqn:He.
    + rewrite merge_error by (by rewrite He).
      destruct (IH total (snoc s (EvRecv data))) as [new Hk].
      eexists. eapply kept_trans; [apply kept_recv | exact Hk].
    + rewrite merge_cases by done. cbn [snoc cfg].
      destruct (Nodes (cfg s) !! mngName data) as [mv|] eqn:Hg.
      2:{ eexists. apply kept_recv. }
      destruct (logsOf mv !! instanceID data) eqn:Hi.
      { eexists. apply kept_recv. }
      destruct (kept_accept s data mv He Hg Hi) as [nodes Hk1].
      destruct (IH (total + length (paths data))
                  (merge_state data mv (snoc s (EvRecv data)))) as [new Hk].
      eexists. eapply kept_trans; [exact Hk1 | exact Hk].
  - eexists. eapply (kept_trans _ (snoc s EvStopped));
      [by apply (kept_quiet s [EvStopped]) | apply kept_sync].
  - exists []. apply kept_refl.
Qed.

Lemma drain_ending (k total : nat) (s : state) (e : option error) (s' : state) :
  drain env k total s = (Ok e, s') -> ending env [] s' e.
Proof.
  revert total s. induction k as [|k IH]; intros total s.
  { unfold drain, Sync. intros [= <- <-]. cbn [cfg tr].
    destruct (sync env (tr s) (Nodes (cfg s))) eqn:Hs; simpl; by exists (tr s). }
  rewrite drain_S. destruct (select env (tr s)) as [data| |]; [| |done].
  - destruct (err data) as [x|] eqn:He.
    + rewrite merge_error by (by rewrite He). apply IH.
    + rewrite merge_cases by done. cbn [snoc cfg].
      destruct (Nodes (cfg s) !! mngName data) as [mv|] eqn:Hg.
      2:{ intros [= <- <-]. simpl. by exists (tr s), data. }
      destruct (logsOf mv !! instanceID data) eqn:Hi; [|apply IH].
      intros [= <- <-]. simpl. exists (tr s), data, mv. by rewrite Hi.
  - unfold Sync. intros [= <- <-]. cbn [cfg tr snoc].
    destruct (sync env (tr s ++ [EvStopped]) (Nodes (cfg s))) eqn:Hs; simpl;
      by exists (tr s ++ [EvStopped]).
Qed.

Lemma fetchLogs_eq (qps burst : nat) (s : state) :
  fetchLogs env qps burst s =
  let s1 := snoc s (EvTempDir (LogDir (cfg s)) (Name (cfg s) +:+ "-mng-logs")) in
  match tempDir env (tr s) with
  | inr msg => (Ok (Some (ErrExternal msg)), s1)
  | inl logsDir =>
      drain env (expected (Nodes (cfg s))) 0
        (launch env logsDir (snoc s1 (EvNewLimiter qps burst))).2
  end.
Proof.
  unfold fetchLogs. unfold bind at 1. unfold getCfg at 1. unfold bind at 1.
  unfold TempDir at 1. cbn zeta.
  destruct (tempDir env (tr s)) as [logsDir|msg]; [|done].
  unfold bind at 1. unfold emit at 1. unfold bind at 1.
  destruct (launch_spec env logsDir
              (snoc (snoc s (EvTempDir (LogDir (cfg s))
                               (Name (cfg s) +:+ "-mng-logs")))
                    (EvNewLimiter qps burst))) as (new & Hl & _).
  unfold snoc in *. cbn [cfg tr] in *. by rewrite Hl.
Qed.

Lemma FetchLogs_eq (s : state) :
  FetchLogs env s =
  if Enable (cfg s) then
    let s1 := snoc s (EvMkdirAll (LogDir (cfg s)) mode0700) in
    match mkdirAll env (tr s) with
    | Some msg => (Ok (Some (ErrExternal msg)), s1)
    | None =>
        match fetchLogs env 150 10 (snoc s1 EvLock) with
        | (Ok e, s2) => (Ok e, snoc s2 EvUnlock)
        | (Exit x, s2) => (Exit x, s2)
        end
    end
  else (Ok (Some (ErrDisabled false)), s).
Proof.
  unfold FetchLogs. unfold bind at 1. unfold getCfg at 1.
  destruct (Enable (cfg s)) eqn:Hen; [|done]. cbn [negb].
  unfold bind at 1. unfold MkdirAll at 1.
  destruct (mkdirAll env (tr s)); [done |]. cbn [fmap option_fmap option_map].
  unfold bind at 1. unfold emit at 1. unfold defer, snoc. cbn [cfg tr].
  by destruct (fetchLogs env 150 10 _) as [[e|x] s2].
Qed.

Lemma launch_kept (logsDir : string) (s : state) :
  exists new, kept s new (launch env logsDir s).2.
Proof.
  destruct (launch_spec env logsDir s) as (new & -> & Hl & _).
  exists new. apply kept_quiet.
  - induction Hl as [|e l He _ IH]; [done |].
    change (e :: l) with ([e] ++ l). rewrite recvs_app, IH. by destruct e.
  - induction Hl as [|e l He _ IH]; [done |].
    change (e :: l) with ([e] ++ l). rewrite syncs_app, IH. by destruct e.
Qed.

Lemma fetchLogs_kept (qps burst : nat) (s : state) :
  exists new, kept s new (fetchLogs env qps burst s).2.
Proof.
  rewrite fetchLogs_eq. cbn zeta.
  set (s1 := snoc s (EvTempDir (LogDir (cfg s)) (Name (cfg s) +:+ "-mng-logs"))).
  assert (K1 : kept s [EvTempDir (LogDir (cfg s)) (Name (cfg s) +:+ "-mng-logs")]
                 s1) by by apply (kept_quiet s [_]).
  destruct (tempDir env (tr s)) as [logsDir|msg]; [|by eexists].
  assert (K2 : kept s1 [EvNewLimiter qps burst] (snoc s1 (EvNewLimiter qps burst)))
    by by apply (kept_quiet s1 [_]).
  destruct (launch_kept logsDir (snoc s1 (EvNewLimiter qps burst))) as [n3 K3].
  destruct (drain_kept (expected (Nodes (cfg s))) 0
              (launch env logsDir (snoc s1 (EvNewLimiter qps burst))).2)
    as [n4 K4].
  eexists. eapply kept_trans; [exact K1 |]. eapply kept_trans; [exact K2 |].
  eapply kept_trans; [exact K3 | exact K4].
Qed.

Lemma FetchLogs_kept (s : state) :
  exists new, kept s new (FetchLogs env s).2.
Proof.
  rewrite FetchLogs_eq. destruct (Enable (cfg s)).
  2:{ exists []. apply kept_refl. }
  cbn zeta.
  set (s1 := snoc s (EvMkdirAll (LogDir (cfg s)) mode0700)).
  assert (K1 : kept s [EvMkdirAll (LogDir (cfg s)) mode0700] s1)
    by by apply (kept_quiet s [_]).
  destruct (mkdirAll env (tr s)); [by eexists |].
  assert (K2 : kept s1 [EvLock] (snoc s1 EvLock)) by by apply (kept_quiet s1 [_]).
  destruct (fetchLogs_kept 150 10 (snoc s1 EvLock)) as [n3 K3].
  destruct (fetchLogs env 150 10 (snoc s1 EvLock)) as [[e|x] s2]; cbn [snd] in *.
  - assert (K4 : kept s2 [EvUnlock] (snoc s2 EvUnlock))
      by by apply (kept_quiet s2 [_]).
    eexists. eapply kept_trans; [exact K1 |]. eapply kept_trans; [exact K2 |].
    eapply kept_trans; [exact K3 | exact K4].
  - eexists. eapply kept_trans; [exact K1 |].
    eapply kept_trans; [exact K2 | exact K3].
Qed.

End Facts.
End StatusFacts.

Import StatusSpec StatusFacts.

(** X7: whatever [FetchLogs] returns, and also when it does not return,
    it leaves the name of the cluster, the switch of the add-on and the log
    directory as they were, and of the fleet status it changes nothing but
    the recorded paths: the groups and their instances are the same, every
    entry recorded before is still there, and every new entry holds the
    paths of a record without error that was received for that group and
    instance; and the status in memory is the one last passed to [Sync], or
    the initial one where [Sync] was never called. *)
Theorem FetchLogs_only_adds_paths (env : Orchestrator.Env)
    (s : Orchestrator.state) :
  let s' := (FetchLogs env s).2 in
  Name (cfg s') = Name (cfg s) /\
  Enable (cfg s') = Enable (cfg s) /\
  LogDir (cfg s') = LogDir (cfg s) /\
  exists new,
    tr s' = tr s ++ new /\
    grown (recvs new) (Nodes (cfg s)) (Nodes (cfg s')) /\
    Nodes (cfg s') = default (Nodes (cfg s)) (last (syncs new)).
Proof.
  cbn zeta. destruct (FetchLogs_kept env s) as [new [A B C T G S]].
  split_and!; try done. by exists new.
Qed.

(** X8: what [FetchLogs] returns.  It returns nil only when its last
    action before releasing the lock was a [Sync] of the final status that
    succeeded.  An error that it returns is: that the add-on is disabled;
    the error of creating the log directory; the error of making the
    temporary directory; the error of the final [Sync]; or, for the record
    received last, a record without error, that its group is unknown or
    that its instance is already recorded.  It never returns the error of a
    record (a goroutine that failed), nor the error of a [Sync] that follows
    a merge. *)
Theorem FetchLogs_returns (env : Orchestrator.Env)
    (s : Orchestrator.state) (e : option error) (s' : Orchestrator.state) :
  FetchLogs env s = (Ok e, s') ->
  match e with
  | None =>
      exists pre, tr s' = pre ++ [EvSync (Nodes (cfg s')); EvUnlock] /\
                  sync env pre (Nodes (cfg s')) = None
  | Some (ErrDisabled b) => b = false /\ Enable (cfg s) = false /\ s' = s
  | Some (ErrExternal msg) =>
      (mkdirAll env (tr s) = Some msg /\
       s' = snoc s (EvMkdirAll (LogDir (cfg s)) mode0700)) \/
      (exists pre dir pattern,
         tr s' = pre ++ [EvTempDir dir pattern; EvUnlock] /\
         tempDir env pre = inr msg) \/
      (exists pre, tr s' = pre ++ [EvSync (Nodes (cfg s')); EvUnlock] /\
                   sync env pre (Nodes (cfg s')) = Some msg)
  | Some (ErrUnknownGroup g) =>
      exists pre data,
        tr s' = pre ++ [EvRecv data; EvUnlock] /\ err data = None /\
        mngName data = g /\ Nodes (cfg s') !! g = None
  | Some (ErrRedundant g i) =>
      exists pre data mv,
        tr s' = pre ++ [EvRecv data; EvUnlock] /\ err data = None /\
        mngName data = g /\ instanceID data = i /\
        Nodes (cfg s') !! g = Some mv /\ is_Some (logsOf mv !! i)
  | Some (ErrRun _ _ _) | Some (ErrCreate _ _ _) | Some (ErrWrite _ _ _) =>
      False
  end.
Proof.
  rewrite FetchLogs_eq. destruct (Enable (cfg s)) eqn:Hen.
  2:{ by intros [= <- <-]. }
  cbn zeta. destruct (mkdirAll env (tr s)) as [msg|] eqn:Hmk.
  { intros [= <- <-]. by left. }
  rewrite fetchLogs_eq. cbn zeta. cbn [snoc cfg tr].
  destruct (tempDir env _) as [logsDir|msg] eqn:Htmp.
  2:{ intros [= <- <-]. right; left. cbn [snoc cfg tr].
      eexists _, _, _. split; [|exact Htmp]. by rewrite <- app_assoc. }
  destruct (drain env _ 0 _) as [[e'|x] s2] eqn:Hd; [|done].
  intros [= <- <-]. apply drain_ending in Hd.
  destruct e' as [[msg| | | |g|g i|]|]; cbn [ending snoc cfg tr] in *;
    try done.
  - right; right. destruct Hd as (pre & Ht & Hs). exists pre.
    split; [|done]. by rewrite Ht, <- app_assoc.
  - destruct Hd as (pre & data & Ht & Hd). exists pre, data.
    split; [|done]. by rewrite Ht, <- app_assoc.
  - destruct Hd as (pre & data & mv & Ht & Hd). exists pre, data, mv.
    split; [|done]. by rewrite Ht, <- app_assoc.
  - destruct Hd as (pre & Ht & Hs). exists pre.
    split; [|done]. by rewrite Ht, <- app_assoc.
Qed.

Lemma FetchLogs_returns_witness :
  exists s' pre,
    FetchLogs failing (start true None) = (Ok None, s') /\
    tr s' = pre ++ [EvSync (Nodes (cfg s')); EvUnlock] /\
    Nodes (cfg s') = Nodes (cfg (start true None)).
Proof.
  edestruct (FetchLogs_returns failing (start true None) None)
    as (pre & Ht & _); [vm_compute; reflexivity |].
  eexists _, pre. split; [vm_compute; reflexivity |].
  split; [exact Ht | by vm_compute].
Defined.

(** X9: a record without error that is merged is recorded under its group
    and instance with its paths, the new status is passed to [Sync] at once,
    and the count of files grows by the number of its paths; from then on,
    in every status that has only grown since, a record without error for
    the same group and instance is refused as redundant, and leaves the
    status as it is. *)
Theorem accepted_record_blocks_second (env : Orchestrator.Env)
    (data : instanceLogs) (total total' : nat) (s s' : Orchestrator.state) :
  err data = None ->
  merge env data total s = (Ok (inr total'), s') ->
  total' = total + length (paths data) /\
  merged data (Nodes (cfg s')) /\
  tr s' = tr s ++ [EvSync (Nodes (cfg s'))] /\
  forall env' recs data' total'' s'',
    grown recs (Nodes (cfg s')) (Nodes (cfg s'')) ->
    err data' = None -> mngName data' = mngName data ->
    instanceID data' = instanceID data ->
    merge env' data' total'' s''
    = (Ok (inl (ErrRedundant (mngName data) (instanceID data))), s'').
Proof.
  intros He Hm. rewrite merge_cases in Hm by done.
  destruct (Nodes (cfg s) !! mngName data) as [mv|] eqn:Hg; [|done].
  destruct (logsOf mv !! instanceID data) eqn:Hi; [done |].
  injection Hm as <- <-. split; [done |].
  pose proof (merged_merge_state data mv s) as Hmerged.
  split; [done |]. split; [done |].
  intros env' recs data' total'' s'' [G I K N] He' Hn Hid.
  destruct Hmerged as (mv1 & H1 & Hl1).
  destruct (Nodes (cfg s'') !! mngName data) as [mv2|] eqn:H2.
  2:{ apply G in H2. congruence. }
  rewrite merge_cases by done. rewrite Hn, Hid, H2.
  by rewrite (K _ _ _ _ _ H1 H2 Hl1).
Qed.

Lemma accepted_record_blocks_second_witness :
  exists s',
    merge again (success "g1" "i-1") 0 (start true None) = (Ok (inr 1), s') /\
    merge again (success "g1" "i-1") 1 s'
    = (Ok (inl (ErrRedundant "g1" "i-1")), s').
Proof.
  edestruct (accepted_record_blocks_second again (success "g1" "i-1") 0 1
               (start true None)) as (_ & _ & _ & H);
    [reflexivity | vm_compute; reflexivity |].
  eexists. split; [vm_compute; reflexivity |].
  exact (H again [] (success "g1" "i-1") 1 _ (grown_refl _ _) eq_refl eq_refl
           eq_refl).
Defined.

(** ** File names *)

Module NamesFacts.
Import GoStr Collector ShortenSpec PrefixSpec ShortenFacts PrefixFacts.

Lemma sapp_cancel_l (p a b : string) : p +:+ a = p +:+ b -> a = b.
Proof.
  induction p as [|c p IH]; [done |].
  rewrite !sapp_cons. intros [= H]. by apply IH.
Qed.

Lemma sapp_cancel_r (a b c : string) : a +:+ c = b +:+ c -> a = b.
Proof.
  revert b. induction a as [|x a IH]; intros [|y b] H.
  - done.
  - apply (f_equal len) in H. rewrite sapp_nil_l, sapp_cons in H.
    simpl in H. rewrite len_app in H. lia.
  - apply (f_equal len) in H. rewrite sapp_nil_l, sapp_cons in H.
    simpl in H. rewrite len_app in H. lia.
  - rewrite !sapp_cons in H. injection H as -> H. f_equal. by apply IH.
Qed.

Lemma allChars_inside (P : ascii -> bool) (a b : string) (c : ascii) :
  allChars P (a +:+ String c b) = true -> P c = true.
Proof.
  induction a as [|x a IH].
  - rewrite sapp_nil_l. cbn [allChars]. by intros [? _]%andb_prop.
  - rewrite sapp_cons. cbn [allChars]. intros [_ ?]%andb_prop. by apply IH.
Qed.

(** A dash splits a name in one way when what follows it has no dash. *)
Lemma dash_splits (a b x y : string) :
  allChars lowerAlnum x = true -> allChars lowerAlnum y = true ->
  a +:+ String "-" x = b +:+ String "-" y -> a = b /\ x = y.
Proof.
  intros Hx Hy. revert b. induction a as [|c a IH]; intros [|d b] H.
  - rewrite !sapp_nil_l in H. by injection H.
  - rewrite sapp_nil_l, sapp_cons in H. injection H as <- ->.
    by apply allChars_inside in Hx.
  - rewrite sapp_nil_l, sapp_cons in H. injection H as -> <-.
    by apply allChars_inside in Hy.
  - rewrite !sapp_cons in H. injection H as -> H.
    destruct (IH b H) as [-> ->]. done.
Qed.

Lemma len_nonempty (s : string) : len s = 0 <-> s = "".
Proof. by destruct s. Qed.

Lemma varLogCmdToFileName_lookup (env : Env) (out cmd file : string) :
  varLogCmdToFileName env out !! cmd = Some file <->
  exists line, line ∈ Split nl out /\ line <> "" /\
               cmd = "sudo cat " +:+ line /\ file = Base env line.
Proof.
  unfold varLogCmdToFileName. generalize (Split nl out). intros lines.
  induction lines as [|x lines IH] using rev_ind.
  - simpl. rewrite lookup_empty. split; [done |].
    intros (l & Hl & _). by apply elem_of_nil in Hl.
  - rewrite foldl_app. simpl. destruct (decide (len x = 0)) as [Hx|Hx].
    + rewrite IH. split.
      * intros (l & Hl & He). exists l. split; [|done].
        apply elem_of_app. by left.
      * intros (l & Hl & Hne & He). exists l. split; [|done].
        apply elem_of_app in Hl as [|Hl]; [done |].
        apply list_elem_of_singleton in Hl as ->. by apply len_nonempty in Hx.
    + destruct (decide (cmd = "sudo cat " +:+ x)) as [->|Hne].
      * rewrite lookup_insert_eq. split.
        -- intros [= <-]. exists x. split_and!; try done.
           ++ apply elem_of_app. right. by left.
           ++ by rewrite <- len_nonempty.
        -- intros (l & _ & _ & Hc & ->). apply sapp_cancel_l in Hc. by subst.
      * rewrite lookup_insert_ne by done. rewrite IH. split.
        -- intros (l & Hl & He). exists l. split; [|done].
           apply elem_of_app. by left.
        -- intros (l & Hl & Hn & Hc & Hf). exists l. split; [|done].
           apply elem_of_app in Hl as [|Hl]; [done |].
           apply list_elem_of_singleton in Hl as ->. congruence.
Qed.

(** The draws of [randString], one byte of [ll] for each. *)
Lemma randString_draws (env : Env) (n : nat) (t : trace) :
  exists vs,
    randString env n t
    = (Ok (string_of_list_ascii (ll_at <$> vs)),
       t ++ (EvIntn (len ll) <$> vs)) /\
    length vs = n /\ Forall (fun v => v < len ll) vs.
Proof.
  revert t. induction n as [|n IH]; intros t.
  - exists []. by rewrite app_nil_r.
  - rewrite randString_S. unfold bind at 1. unfold Intn at 1. cbn zeta.
    destruct (IH (t ++ [EvIntn (len ll) (randRaw env t `mod` len ll)]))
      as (vs & Hr & Hlen & Hvs).
    exists (randRaw env t `mod` len ll :: vs).
    unfold bind. rewrite Hr. unfold ret. split_and!.
    + by rewrite <- app_assoc.
    + simpl. by rewrite Hlen.
    + constructor; [|done]. by apply Nat.mod_upper_bound.
Qed.

End NamesFacts.

Import NamesFacts.

(** X10: the commands of the last stage are made from the output of the
    listing of the log files: a command is in the map exactly when it is
    ["sudo cat "] followed by a line of that output that is not empty, and
    its file name is the base name of that line; the empty lines (such as
    what follows the last newline) give no command. *)
Theorem varlog_commands (env : Collector.Env) (out cmd file : string) :
  varLogCmdToFileName env out !! cmd = Some file <->
  exists line, line ∈ Split nl out /\ line <> "" /\
               cmd = "sudo cat " +:+ line /\ file = Base env line.
Proof. apply varLogCmdToFileName_lookup. Qed.

Lemma varlog_commands_witness :
  varLogCmdToFileName (remote false None healthy)
    ("/var/log/messages" +:+ String nl "") !! "sudo cat /var/log/messages"
  = Some "messages".
Proof.
  apply (proj2 (varlog_commands (remote false None healthy)
                  ("/var/log/messages" +:+ String nl "")
                  "sudo cat /var/log/messages" "messages")).
  exists "/var/log/messages". split; [by left |]. by split.
Defined.

(** X11: where the instance ID and the file name have fewer than 231 bytes
    together, the name made of the prefix and the file name is kept as it
    is by [shorten], and no random byte is drawn: the file of a command is
    then determined by the run directory, the instance and the command. *)
Theorem usual_names_are_kept (env : Collector.Env) (instID fileName : string)
    (iv : Instance) (t : Collector.trace) :
  len instID + len fileName < 231 ->
  shorten env (prefix instID iv +:+ fileName) t
  = (Ok (prefix instID iv +:+ fileName), t).
Proof.
  intros H. apply shorten_short. unfold prefix.
  rewrite !len_app. destruct (sanitize_facts (PublicDNSName iv)) as (_ & Hs & _).
  simpl. lia.
Qed.

Lemma usual_names_are_kept_witness :
  shorten (remote false None healthy) (prefix "i-1" i1 +:+ "kernel.out.log") []
  = (Ok "i-1-54123us-kernel.out.log", []).
Proof.
  exact (usual_names_are_kept (remote false None healthy) "i-1" "kernel.out.log"
           i1 [] ltac:(simpl; lia)).
Defined.

(** X12: what [shorten] makes of a name of 240 bytes or more has 235 bytes
    and those of the extension of the name, which may be more than the name
    had; it has fewer than 240 bytes exactly when the extension has fewer
    than 5, and it is then left as it is when shortened again. *)
Theorem shorten_result_length (env : Collector.Env) (name : string)
    (t : Collector.trace) :
  240 <= len name ->
  exists short t',
    shorten env name t = (Ok short, t') /\
    len short = 235 + len (Ext name) /\
    (len short < 240 <-> len (Ext name) < 5) /\
    (len (Ext name) < 5 ->
     forall env' t'', shorten env' short t'' = (Ok short, t'')).
Proof.
  intros H.
  destruct (shorten_long env name t H) as (sfx & new & Hs & Hlen & _ & _).
  eexists _, _. split; [exact Hs |].
  assert (Hl : len (take 230 name +:+ sfx +:+ Ext name) = 235 + len (Ext name)).
  { rewrite !len_app, len_take by lia. lia. }
  split; [done |]. split; [lia |].
  intros He env' t''. apply shorten_short. lia.
Qed.

Lemma shorten_result_length_witness :
  exists short t',
    shorten (remote false None healthy) (fill "a" 236 +:+ ".log") []
      = (Ok short, t') /\
    len short = 239.
Proof.
  destruct (shorten_result_length (remote false None healthy)
              (fill "a" 236 +:+ ".log") [] ltac:(vm_compute; lia))
    as (short & t' & Hs & Hl & _).
  exists short, t'. split; [exact Hs |]. rewrite Hl. by vm_compute.
Defined.

(** X13: the prefixes of two instances with different IDs differ, and so do
    the names made of them for the same file name: as long as names are not
    shortened, the file of a command for one instance is never the file of
    that command for another instance. *)
Theorem prefix_tells_instances_apart (instID1 instID2 fileName : string)
    (iv1 iv2 : Instance) :
  instID1 <> instID2 ->
  prefix instID1 iv1 <> prefix instID2 iv2 /\
  prefix instID1 iv1 +:+ fileName <> prefix instID2 iv2 +:+ fileName.
Proof.
  intros Hne.
  assert (H : prefix instID1 iv1 <> prefix instID2 iv2).
  { unfold prefix. intros Heq.
    assert (Hc : instID1 +:+ "-" +:+ sanitize (PublicDNSName iv1)
                 = instID2 +:+ "-" +:+ sanitize (PublicDNSName iv2)).
    { apply (sapp_cancel_r _ _ "-"). by rewrite !sapp_assoc. }
    destruct (sanitize_facts (PublicDNSName iv1)) as (_ & _ & H1).
    destruct (sanitize_facts (PublicDNSName iv2)) as (_ & _ & H2).
    by destruct (dash_splits _ _ _ _ H1 H2 Hc). }
  split; [done |]. intros Heq. by apply sapp_cancel_r in Heq.
Qed.

Lemma prefix_tells_instances_apart_witness :
  prefix "i-1" i1 +:+ "kernel.out.log" <> prefix "i-2" i1 +:+ "kernel.out.log".
Proof.
  exact (proj2 (prefix_tells_instances_apart "i-1" "i-2" "kernel.out.log" i1 i1
                  ltac:(done))).
Defined.

(** X14: [randString n] draws [n] numbers below 36, one after the other
    and nothing else, and returns the [n] bytes of [ll] at these numbers,
    in the order of the draws. *)
Theorem randString_bytes (env : Collector.Env) (n : nat) (t : Collector.trace) :
  exists vs,
    randString env n t
    = (Ok (string_of_list_ascii (ll_at <$> vs)),
       t ++ (EvIntn (len ll) <$> vs)) /\
    length vs = n /\ Forall (fun v => v < 36) vs.
Proof. apply randString_draws. Qed.

(** ** The error of a failure record *)

Module DiagnosisFacts.
Import GoStr Collector ShortenSpec CollectorSpec DiagnosisSpec ShortenFacts.

Section Goroutine.
Variable env : Env.
Variables name instID logsDir pfx : string.
Variable iv : Instance.
Variable commandToFileName : gmap string string.

Local Abbreviation blamed := (DiagnosisSpec.blamed env instID).
Local Abbreviation diagnosed := (DiagnosisSpec.diagnosed env name instID).
Local Abbreviation offline := (DiagnosisSpec.offline env name).
Local Abbreviation explained := (DiagnosisSpec.explained env name instID).
Local Abbreviation stage_post := (DiagnosisSpec.stage_post env name instID).

Lemma gate_any (tr : trace)
    (Q : res (option instanceLogs) unit -> trace -> Prop) :
  (forall tr', Q (Ok tt) tr') -> wp (gate env) Q tr.
Proof.
  intros HQ. unfold gate. apply wp_bind. unfold wp at 1, Allow; simpl.
  destruct (allow env tr); apply HQ.
Qed.

Lemma runSave_diagnosed (cmd fileName : string) (data : instanceLogs)
    (tr : trace) :
  err data = None ->
  wp (runSave env name instID logsDir pfx cmd fileName data) diagnosed tr.
Proof.
  intros Hd. unfold runSave. apply wp_bind. unfold wp at 1, Run; simpl.
  destruct (sshRun env tr cmd) as [out|msg] eqn:Hrun.
  2:{ unfold sendReturn. apply wp_bind. unfold wp, send, emit, exit; simpl.
      eexists. split; [done |]. split; [done |].
      exists tr, msg. by rewrite <- app_assoc. }
  apply wp_bind.
  destruct (shorten_spec env (pfx +:+ fileName) (tr ++ [EvRun cmd]))
    as (short & new & Hshort & _ & _).
  eapply wp_eq; [exact Hshort |].
  remember ((tr ++ [EvRun cmd]) ++ new) as tr2 eqn:E2. clear E2.
  apply wp_bind. unfold wp at 1, Create; simpl.
  destruct (osCreate env tr2 (Join env logsDir short)) as [msg|] eqn:Hcreate;
    simpl.
  { unfold sendReturn. apply wp_bind. unfold wp, send, emit, exit; simpl.
    eexists. split; [done |]. split; [done |].
    exists tr2, msg. by rewrite <- app_assoc. }
  remember (tr2 ++ [EvCreate (Join env logsDir short)]) as tr3 eqn:E3. clear E3.
  apply wp_bind. unfold wp at 1, Write; simpl.
  destruct (fWrite env tr3 (Join env logsDir short) out) as [msg|] eqn:Hwrite;
    simpl.
  { unfold wp, bind, send, Close, emit, exit; simpl.
    eexists. split; [done |]. split; [done |].
    exists tr3, out, msg. by rewrite <- !app_assoc. }
  by unfold wp, bind, Close, emit, ret; simpl.
Qed.

Lemma loop_diagnosed (l : list (string * string)) (data : instanceLogs)
    (tr : trace) :
  err data = None ->
  wp (foldM (fetch env name instID logsDir pfx) l data) diagnosed tr.
Proof.
  intros Hd.
  apply (wp_foldM _ (fun data _ => err data = None)
           (fun out tr => exists e, out = Some (failed name instID e) /\
                                    blamed [] (failed name instID e) tr));
    [|done].
  intros entry data' tr' _ Hd'. unfold fetch. apply wp_bind.
  apply gate_any. intros tr''. by apply runSave_diagnosed.
Qed.

(** A listing that fails. *)
Lemma Run_diagnosed (cmd : string) (tr : trace)
    (Q : res (option instanceLogs) unit -> trace -> Prop) (k : string -> G unit) :
  (forall out tr', wp (k out) Q tr') ->
  (forall e tr', blamed [] (failed name instID e) tr' ->
                 Q (Exit (Some (failed name instID e))) tr') ->
  wp (do r <- Run env cmd;
      match r with
      | inr oerr => sendReturn (failed name instID (ErrRun cmd instID oerr))
      | inl out => k out
      end) Q tr.
Proof.
  intros Hk HQ. apply wp_bind. unfold wp at 1, Run; simpl.
  destruct (sshRun env tr cmd) as [out|msg] eqn:Hrun; [apply Hk |].
  unfold sendReturn. apply wp_bind. unfold wp, send, emit, exit; simpl.
  apply HQ. split; [done |]. exists tr, msg. by rewrite <- app_assoc.
Qed.

Lemma diagnosed_stage (out : option instanceLogs) (tr : trace) :
  diagnosed (Exit out) tr -> stage_post (Exit out) tr.
Proof. intros (e & -> & H). right. by exists e. Qed.

Lemma stages_diagnosed (tr : trace) :
  wp (stages env name instID logsDir pfx commandToFileName) stage_post tr.
Proof.
  unfold stages.
  apply wp_bind. unfold wp at 1, range; simpl.
  apply wp_bind. eapply wp_mono; [by apply loop_diagnosed |].
  intros [data1|out] tr2 H2; [|by apply diagnosed_stage]. simpl in H2.
  apply wp_bind, gate_any. intros tr3.
  apply Run_diagnosed; [|intros e tr' H; right; by exists e].
  intros out1 tr4.
  apply wp_bind. unfold wp at 1, range; simpl.
  apply wp_bind. eapply wp_mono; [by apply loop_diagnosed |].
  intros [data2|out] tr6 H6; [|by apply diagnosed_stage]. simpl in H6.
  apply wp_bind, gate_any. intros tr7.
  apply wp_bind. eapply wp_mono; [by apply runSave_diagnosed |].
  intros [data3|out] tr8 H8; [|by apply diagnosed_stage]. simpl in H8.
  apply wp_bind, gate_any. intros tr9.
  apply Run_diagnosed; [|intros e tr' H; right; by exists e].
  intros out2 tr10.
  apply wp_bind. unfold wp at 1, range; simpl.
  apply wp_bind. eapply wp_mono; [by apply loop_diagnosed |].
  intros [data4|out] tr12 H12; [|by apply diagnosed_stage]. simpl in H12.
  unfold sendReturn. apply wp_bind. unfold wp, send, emit, exit; simpl.
  by left.
Qed.

Lemma goroutine_explained :
  wp (goroutine env name instID logsDir pfx iv commandToFileName) explained [].
Proof.
  unfold goroutine. apply wp_bind. unfold wp at 1, pollStopc; simpl.
  destruct (stopc env []); [done |].
  apply wp_bind, gate_any. intros tr2.
  apply wp_bind. unfold wp at 1, New; simpl.
  destruct (sshNew env tr2) as [msg|] eqn:Hnew; simpl.
  { unfold sendReturn. apply wp_bind. unfold wp, send, emit, exit; simpl.
    right; right. exists msg. split; [done |]. left.
    exists tr2, (PublicIP iv), (PublicDNSName iv). by rewrite <- app_assoc. }
  remember (tr2 ++ [EvSSHNew (PublicIP iv) (PublicDNSName iv)]) as tr3 eqn:E3.
  clear E3. unfold wp, defer.
  match goal with
  | |- context [bind ?m ?k tr3] =>
      assert (Hb : wp (bind m k) (fun r tr => match r with
        | Exit (Some rec) =>
            err rec = None \/
            (exists e, rec = failed name instID e /\ blamed [] rec tr) \/
            (exists msg, rec = unconnected name (ErrExternal msg) /\
               exists pre, tr = pre ++ [EvConnect; EvSend rec] /\
                           sshConnect env pre = Some msg)
        | _ => True
        end) tr3);
      [|unfold wp in Hb; destruct (bind m k tr3) as [[u|[rec|]] tr4]]
  end.
  - apply wp_bind. unfold wp at 1, Connect; simpl.
    destruct (sshConnect env tr3) as [msg|] eqn:Hconn; simpl.
    { unfold sendReturn. apply wp_bind. unfold wp, send, emit, exit; simpl.
      right; right. exists msg. split; [done |].
      exists tr3. by rewrite <- app_assoc. }
    eapply wp_mono; [by apply stages_diagnosed |].
    intros [u|[rec|]] tr' Hp; try done.
    destruct Hp as [?|?]; [by left | right; by left].
  - done.
  - simpl in *. unfold emit; simpl.
    destruct Hb as [?|[(e & -> & Hb)|(msg & -> & pre & -> & Hc)]].
    + by left.
    + right; left. exists e. split; [done |].
      unfold DiagnosisSpec.blamed in *. cbn [err failed] in *.
      destruct e as [| cmd id cause | fpath id cause | fpath id cause | | |];
        try done.
      * destruct Hb as [-> (pre & m & -> & ?)]. split; [done |].
        exists pre, m. by rewrite app_nil_r, <- !app_assoc.
      * destruct Hb as [-> (pre & m & -> & ?)]. split; [done |].
        exists pre, m. by rewrite app_nil_r, <- !app_assoc.
      * destruct Hb as [-> (pre & o & m & -> & ?)]. split; [done |].
        exists pre, o, m. by rewrite app_nil_r, <- !app_assoc.
    + right; right. exists msg. split; [done |]. right.
      exists pre. by rewrite <- !app_assoc.
  - done.
Qed.

End Goroutine.
End DiagnosisFacts.

Import DiagnosisSpec DiagnosisFacts.

(** X15: the error of a failure record tells which call has failed.  When
    a goroutine sends a record with an error, the record has the name of
    the group and no path, and its error is: the error of [ssh.New] or of
    [Connect], which was the last call, and the record has no instance ID;
    or the failure of a command, of the creation of a file or of a write,
    with the instance ID, the command or the path, and the error that this
    call, the last one of the goroutine, returned.  After it the goroutine
    has only sent the record and closed the file that was open and the
    session. *)
Theorem failure_record_names_the_call (env : Collector.Env)
    (name instID logsDir pfx : string) (iv : Instance)
    (commandToFileName : gmap string string) (rec : instanceLogs)
    (t : Collector.trace) (e : error) :
  goroutine env name instID logsDir pfx iv commandToFileName []
    = (Exit (Some rec), t) ->
  err rec = Some e ->
  mngName rec = name /\ paths rec = [] /\
  match e with
  | ErrExternal msg =>
      instanceID rec = "" /\
      ((exists pre ip dns,
          t = pre ++ [EvSSHNew ip dns; EvSend rec] /\
          sshNew env pre = Some msg) \/
       (exists pre,
          t = pre ++ [EvConnect; EvSend rec; EvSSHClose] /\
          sshConnect env pre = Some msg))
  | ErrRun cmd id cause =>
      instanceID rec = instID /\ id = instID /\
      exists pre msg,
        t = pre ++ [EvRun cmd; EvSend rec; EvSSHClose] /\
        sshRun env pre cmd = inr msg /\ cause = ErrExternal msg
  | ErrCreate fpath id cause =>
      instanceID rec = instID /\ id = instID /\
      exists pre msg,
        t = pre ++ [EvCreate fpath; EvSend rec; EvSSHClose] /\
        osCreate env pre fpath = Some msg /\ cause = ErrExternal msg
  | ErrWrite fpath id cause =>
      instanceID rec = instID /\ id = instID /\
      exists pre out msg,
        t = pre ++ [EvWrite fpath out; EvSend rec; EvClose fpath; EvSSHClose] /\
        fWrite env pre fpath out = Some msg /\ cause = ErrExternal msg
  | _ => False
  end.
Proof.
  intros Hg He.
  pose proof (goroutine_explained env name instID logsDir pfx iv
                commandToFileName) as H.
  unfold wp in H. rewrite Hg in H. cbn [fst snd explained] in H.
  destruct H as [H|[(e' & -> & Hb)|(msg & -> & Ho)]]; [congruence | |].
  - cbn [err failed] in He. injection He as ->.
    split; [done |]. split; [done |].
    unfold blamed in Hb. cbn [err failed] in Hb.
    destruct e as [| cmd id cause | fpath id cause | fpath id cause | | |];
      try done; by destruct Hb as [-> Hb].
  - cbn [err unconnected] in He. injection He as <-. by split_and!.
Qed.

Lemma failure_record_names_the_call_witness :
  exists rec t pre,
    goroutine (remote false None noENI) "g1" "i-1" "/tmp/logs/r"
      (prefix "i-1" i1) i1 logCmds [] = (Exit (Some rec), t) /\
    t = pre ++ [EvRun eniCmd; EvSend rec; EvSSHClose] /\
    sshRun (remote false None noENI) pre eniCmd = inr "exit status 7".
Proof.
  edestruct (fun rec t =>
               failure_record_names_the_call (remote false None noENI) "g1"
                 "i-1" "/tmp/logs/r" (prefix "i-1" i1) i1 logCmds rec t
                 (ErrRun eniCmd "i-1" (ErrExternal "exit status 7")))
    as (_ & _ & _ & _ & pre & msg & Ht & Hr & Hc);
    [vm_compute; reflexivity | reflexivity |].
  injection Hc as <-.
  eexists _, _, pre. split; [vm_compute; reflexivity |].
  split; [exact Ht | exact Hr].
Defined.

(** ** The goroutines and the records awaited *)

Module LaunchFacts.
Import Collector Orchestrator OrchestratorSpec OrchestratorFacts.

Lemma membership_length (nodes : gmap string MNG) :
  length (membership nodes) = expected nodes.
Proof.
  unfold membership, expected. induction (map_to_list nodes) as [|g l IH].
  - done.
  - rewrite bind_cons, length_app, length_fmap, IH. simpl.
    by rewrite length_map_to_list.
Qed.

Lemma launching_recvs (new : trace) : Forall launching new -> recvs new = [].
Proof.
  induction 1 as [|e l He _ IH]; [done |].
  change (e :: l) with ([e] ++ l). unfold recvs in *. rewrite omap_app, IH.
  by destruct e.
Qed.

End LaunchFacts.

Import LaunchFacts.

(** X16: the number of records that the drain loop awaits is the number of
    goroutines that were started, one for each instance of the fleet;
    nothing is received before all of them are started, and the start
    changes nothing in the configuration.  With a fleet without instances
    no goroutine is started and the drain loop has no turn. *)
Theorem waits_count_the_goroutines (env : Orchestrator.Env) (logsDir : string)
    (s : Orchestrator.state) :
  exists new waits,
    launch env logsDir s = (Ok waits, {| cfg := cfg s; tr := tr s ++ new |}) /\
    length (spawned new) = waits /\
    waits = length (membership (Nodes (cfg s))) /\
    recvs new = [] /\
    (membership (Nodes (cfg s)) = [] ->
     spawned new = [] /\
     forall total s1, drain env waits total s1 = Sync env s1).
Proof.
  destruct (launch_spec env logsDir s) as (new & Hl & He & Hs).
  exists new, (expected (Nodes (cfg s))). split; [done |].
  assert (Hlen : length (spawned new) = expected (Nodes (cfg s))).
  { by rewrite Hs, length_fmap, membership_length. }
  split; [done |]. split; [by rewrite membership_length |].
  split; [by apply launching_recvs |].
  intros Hm. rewrite <- membership_length, Hm. split; [|done].
  rewrite Hm in Hs. by apply Permutation_nil_r in Hs.
Qed.

Lemma waits_count_the_goroutines_witness :
  exists new,
    launch again "/tmp/logs/r" (start true None)
    = (Ok 3, {| cfg := cfg (start true None);
               tr := tr (start true None) ++ new |}) /\
    length (spawned new) = 3.
Proof.
  destruct (waits_count_the_goroutines again "/tmp/logs/r" (start true None))
    as (new & waits & Hl & Hn & Hw & _).
  assert (H3 : waits = 3) by (rewrite Hw; by vm_compute).
  exists new. rewrite <- H3. split; [exact Hl | exact Hn].
Defined.
